(** * Particle Life: the simulation core of [particle-life.js]

    A shallow embedding of the physics of [src/particle-life.js]: the
    [Particle] class, the spatial hash, the force accumulation, the rule
    matrices and the particle management, followed by the properties the
    specification states about them.

    Numbers.  JavaScript numbers are modelled as the real numbers [R] of the
    standard library: [Math.sqrt] is [sqrt], [Math.floor] and [Math.ceil] are
    [Zfloor] and [Zceil], [Math.max] and [Math.min] are [Rmax] and [Rmin].
    Rounding, infinities and NaN of IEEE doubles are outside the model: a
    computation that throws, or whose JavaScript value is not a finite
    number, ends in an explicit [Fault]. *)

From Stdlib Require Import Reals Lra Lia ZArith.
From stdpp Require Import gmap strings list.

Local Open Scope R_scope.

(** ** JavaScript primitives *)

Module Js.

(** [a < b] and [a >= b] as they are used in the conditions of the source. *)
Definition lt (a b : R) : bool := if Rlt_dec a b then true else false.
Definition ge (a b : R) : bool := if Rge_dec a b then true else false.
Definition gt (a b : R) : bool := if Rgt_dec a b then true else false.

(** What ends a computation outside the real numbers. *)
Inductive Fault :=
| TypeError        (* a property of [undefined] is read, or a non-function is called *)
| NotANumber       (* arithmetic on [undefined] *)
| DivisionByZero   (* a division whose divisor is 0: [Infinity] or [NaN] *)
| Unmodelled.      (* a value this model has no type for *)

Definition Result (A : Type) : Type := Fault + A.

Definition ret {A} (a : A) : Result A := inr a.
Definition throw {A} (e : Fault) : Result A := inl e.

Definition bind {A B} (m : Result A) (k : A -> Result B) : Result B :=
  match m with
  | inl e => inl e
  | inr a => k a
  end.

(** [a / b], where a zero divisor leaves the real numbers. *)
Definition div (a b : R) : Result R :=
  if Req_dec_T b 0 then throw DivisionByZero else ret (a / b).

(** [array[i]] for reading: [undefined] is [None]. *)
Definition get {A} (l : list A) (i : nat) : option A := l !! i.

(** [array[i] = v].  Inside the array the cell is overwritten, at its end
    the array grows by one; further out JavaScript leaves holes, which a
    list of numbers cannot hold. *)
Definition set {A} (l : list A) (i : nat) (v : A) : Result (list A) :=
  if (i <? length l)%nat then ret (<[i := v]> l)
  else if (i =? length l)%nat then ret (l ++ [v])
  else throw Unmodelled.

(** [Math.random()]: the calls of one run, in order.  The n-th call returns
    [rnd n]; functions that draw numbers take the index of the next call and
    return the index after their last one. *)
Definition Random := nat -> R.

(** The contract of [Math.random]: every value lies in [0, 1). *)
Definition unit_interval (rnd : Random) : Prop := forall n, 0 <= rnd n < 1.

End Js.

Notation "x <~ m ;; k" := (Js.bind m (fun x => k))
  (at level 100, m at next level, right associativity).

Infix "<?" := Js.lt : R_scope.
Infix ">=?" := Js.ge : R_scope.
Infix ">?" := Js.gt : R_scope.

(** ** Configuration *)

(** The fields of [CONFIG] that the physics reads.  [trails], [trailAlpha] and
    [glow] only drive the renderer and are left out. *)
Record Config := mkConfig {
  particleCount : nat;
  particleRadius : R;
  colors : list string;
  maxForce : R;
  friction : R;
  interactionRadius : R;
  wrap : bool;
  speed : R;
  paused : bool
}.

Definition CONFIG : Config := {|
  particleCount := 1500;
  particleRadius := 25 / 10;
  colors := ["#ff4757"; "#2ed573"; "#3498ff"; "#ffc312"; "#a55eea"; "#00d2d3"]%string;
  maxForce := 1;
  friction := 5 / 10;
  interactionRadius := 80;
  wrap := true;
  speed := 1;
  paused := false
|}.

(** ** Particles *)

Record Particle := mkParticle {
  x : R;
  y : R;
  vx : R;
  vy : R;
  type : nat;
  color : option string
}.

(** The keys of [spatialHash] are the strings [`${cellX},${cellY}`] of two
    integers; the pair of integers stands for the string, which determines
    it. *)
Abbreviation Key := (Z * Z)%type.
Abbreviation SpatialHash := (gmap (Z * Z) (list nat)).

(** [rules]: an object with the one property [matrix]. *)
Record Rules := mkRules { matrix : list (list R) }.

Section Simulation.

(** The module state that a step only reads: the configuration and the
    canvas size. *)
Variable cfg : Config.
Variables width height : R.

(** [let cellSize = CONFIG.interactionRadius]; nothing reassigns either. *)
Definition cellSize : R := interactionRadius cfg.

(** [new Particle(x, y, type)] *)
Definition constructor (x0 y0 : R) (type0 : nat) : Particle :=
  {| x := x0; y := y0; vx := 0; vy := 0; type := type0;
     color := colors cfg !! type0 |}.

(** [Particle.update], first half: apply velocity, then friction. *)
Definition integrate (p : Particle) (dt : R) : Particle :=
  let x1 := x p + vx p * dt * speed cfg in
  let y1 := y p + vy p * dt * speed cfg in
  let vx1 := vx p * (1 - friction cfg * dt) in
  let vy1 := vy p * (1 - friction cfg * dt) in
  {| x := x1; y := y1; vx := vx1; vy := vy1; type := type p; color := color p |}.

(** One axis of the wrap branch: two independent [if]s, in this order. *)
Definition wrap_axis (extent pos : R) : R :=
  let pos1 := if pos <? 0 then pos + extent else pos in
  if pos1 >=? extent then pos1 - extent else pos1.

(** One axis of the bounce branch: returns the velocity and the position. *)
Definition bounce_axis (extent vel pos : R) : R * R :=
  if (pos <? 0) || (pos >=? extent)
  then (vel * - (8 / 10), Rmax 0 (Rmin (extent - 1) pos))
  else (vel, pos).

(** [Particle.update], second half: boundary handling. *)
Definition boundary (p : Particle) : Particle :=
  if wrap cfg then
    {| x := wrap_axis width (x p); y := wrap_axis height (y p);
       vx := vx p; vy := vy p; type := type p; color := color p |}
  else
    let '(vx1, x1) := bounce_axis width (vx p) (x p) in
    let '(vy1, y1) := bounce_axis height (vy p) (y p) in
    {| x := x1; y := y1; vx := vx1; vy := vy1; type := type p; color := color p |}.

Definition update (p : Particle) (dt : R) : Particle :=
  boundary (integrate p dt).

(** The end of one iteration of [applyForces]: [p.vx += fx; p.vy += fy]. *)
Definition addForce (p : Particle) (fx fy : R) : Particle :=
  {| x := x p; y := y p; vx := vx p + fx; vy := vy p + fy;
     type := type p; color := color p |}.

(** ** Spatial hash *)

(** The cell of a particle.  [cellSize] is not zero in the source (it is
    80), so the quotient is a number. *)
Definition cellOf (p : Particle) : Key :=
  (Zfloor (x p / cellSize), Zfloor (y p / cellSize)).

(** The loop of [buildSpatialHash] from index [i] on. *)
Fixpoint buildFrom (ps : list Particle) (i : nat) (h : SpatialHash) : SpatialHash :=
  match ps with
  | [] => h
  | p :: rest =>
      let key := cellOf p in
      buildFrom rest (S i) (<[key := default [] (h !! key) ++ [i]]> h)
  end.

Definition buildSpatialHash (particles : list Particle) : SpatialHash :=
  buildFrom particles 0 ∅.

(** The wrapping of one cell coordinate in [getNeighbors]. *)
Definition wrap_cell (maxCell n : Z) : Z :=
  let n1 := if (n <? 0)%Z then (n + maxCell)%Z else n in
  if (n1 >=? maxCell)%Z then (n1 - maxCell)%Z else n1.

Definition maxCellX : Z := Zceil (width / cellSize).
Definition maxCellY : Z := Zceil (height / cellSize).

Definition neighborKey (cell : Key) (dx dy : Z) : Key :=
  let nx := (cell.1 + dx)%Z in
  let ny := (cell.2 + dy)%Z in
  if wrap cfg then (wrap_cell maxCellX nx, wrap_cell maxCellY ny) else (nx, ny).

Definition offsets : list Z := [-1; 0; 1]%Z.

Definition getNeighbors (spatialHash : SpatialHash) (particle : Particle) : list nat :=
  let cell := cellOf particle in
  flat_map (fun dx =>
    flat_map (fun dy => default [] (spatialHash !! neighborKey cell dx dy)) offsets)
    offsets.

(** ** Physics *)

(** The folding of one axis of the separation under wrap mode. *)
Definition wrap_delta (extent d : R) : R :=
  let d1 := if d >? extent / 2 then d - extent else d in
  if d1 <? - extent / 2 then d1 + extent else d1.

(** [dx] and [dy] of [applyForces], from [p] to [other]. *)
Definition separation (p other : Particle) : R * R :=
  let dx := x other - x p in
  let dy := y other - y p in
  if wrap cfg then (wrap_delta width dx, wrap_delta height dy) else (dx, dy).

Definition distance (p other : Particle) : R :=
  let '(dx, dy) := separation p other in sqrt (dx * dx + dy * dy).

Definition minDist : R := particleRadius cfg * 4.

(** The scalar [force] of a pair at distance [dist]; [strength] is [None]
    when [rules.matrix[p.type][other.type]] is [undefined]. *)
Definition forceAt (strength : option R) (dist : R) : Js.Result R :=
  if dist <? minDist then
    q <~ Js.div dist minDist ;;
    Js.ret ((q - 1) * maxForce cfg)
  else
    normalizedDist <~ Js.div (dist - minDist) (interactionRadius cfg - minDist) ;;
    match strength with
    | Some s => Js.ret (s * (1 - normalizedDist) * maxForce cfg)
    | None => Js.throw Js.NotANumber
    end.

(** The body of the neighbour loop for one [other]: what is added to
    [(fx, fy)], or [None] when the condition on [dist] fails. *)
Definition pairForce (rules : Rules) (p other : Particle) : Js.Result (option (R * R)) :=
  let '(dx, dy) := separation p other in
  let distSq := dx * dx + dy * dy in
  let dist := sqrt distSq in
  if (dist <? interactionRadius cfg) && (dist >? 0) then
    match Js.get (matrix rules) (type p) with
    | None => Js.throw Js.TypeError
    | Some row =>
        force <~ forceAt (Js.get row (type other)) dist ;;
        ux <~ Js.div dx dist ;;
        uy <~ Js.div dy dist ;;
        Js.ret (Some (ux * force, uy * force))
    end
  else Js.ret None.

(** [for (const j of neighbors)] with the running sums [(fx, fy)]. *)
Fixpoint accumulate (rules : Rules) (particles : list Particle) (i : nat)
    (p : Particle) (neighbors : list nat) (f : R * R) : Js.Result (R * R) :=
  match neighbors with
  | [] => Js.ret f
  | j :: rest =>
      if (i =? j)%nat then accumulate rules particles i p rest f
      else
        match Js.get particles j with
        | None => Js.throw Js.TypeError
        | Some other =>
            c <~ pairForce rules p other ;;
            accumulate rules particles i p rest
              match c with
              | Some g => (f.1 + g.1, f.2 + g.2)
              | None => f
              end
        end
  end.

(** One iteration of the outer loop of [applyForces]: particle [i] gets its
    velocity changed in place, the positions stay. *)
Definition forceOn (rules : Rules) (spatialHash : SpatialHash)
    (particles : list Particle) (i : nat) : Js.Result (list Particle) :=
  match Js.get particles i with
  | None => Js.throw Js.TypeError
  | Some p =>
      f <~ accumulate rules particles i p (getNeighbors spatialHash p) (0, 0) ;;
      Js.ret (<[i := addForce p f.1 f.2]> particles)
  end.

Fixpoint forceLoop (rules : Rules) (spatialHash : SpatialHash)
    (indices : list nat) (particles : list Particle) : Js.Result (list Particle) :=
  match indices with
  | [] => Js.ret particles
  | i :: rest =>
      particles' <~ forceOn rules spatialHash particles i ;;
      forceLoop rules spatialHash rest particles'
  end.

Definition applyForces (rules : Rules) (particles : list Particle)
    : Js.Result (list Particle) :=
  forceLoop rules (buildSpatialHash particles) (seq 0 (length particles)) particles.

(** The physics of one frame of [animate], with [dt = 1]. *)
Definition animate (rules : Rules) (particles : list Particle)
    : Js.Result (list Particle) :=
  if paused cfg then Js.ret particles
  else
    particles' <~ applyForces rules particles ;;
    Js.ret (map (fun particle => update particle 1) particles').

End Simulation.

(** ** Rule generation and presets *)

Section RuleTables.

Variable cfg : Config.

Definition numTypes : nat := length (colors cfg).

(** The inner loop of [generateRandomRules]: a row of [n] draws, the first
    one being call [k] of [Math.random]. *)
Fixpoint randomRow (rnd : Js.Random) (k n : nat) : list R * nat :=
  match n with
  | O => ([], k)
  | S n' =>
      let v := rnd k * 2 - 1 in
      let '(row, k') := randomRow rnd (S k) n' in
      (v :: row, k')
  end.

(** The outer loop: [rows] rows of [numTypes] entries. *)
Fixpoint randomRows (rnd : Js.Random) (k rows : nat) : list (list R) * nat :=
  match rows with
  | O => ([], k)
  | S rows' =>
      let '(row, k1) := randomRow rnd k numTypes in
      let '(m, k2) := randomRows rnd k1 rows' in
      (row :: m, k2)
  end.

Definition generateRandomRules (rnd : Js.Random) (k : nat) : Rules * nat :=
  let '(m, k') := randomRows rnd k numTypes in (mkRules m, k').

(** The entries of the preset tables have one decimal; a table is written
    in tenths. *)
Definition tenths (table : list (list Z)) : list (list R) :=
  map (map (fun z => IZR z / 10)) table.

Definition cells : list (list Z) :=
  [ [ 8; -2; -2; -2; -2; -2];
    [-2;  8; -2; -2; -2; -2];
    [-2; -2;  8; -2; -2; -2];
    [-2; -2; -2;  8; -2; -2];
    [-2; -2; -2; -2;  8; -2];
    [-2; -2; -2; -2; -2;  8] ]%Z.

Definition swarm : list (list Z) :=
  [ [ 1; -5;  5;  3;  3;  3];
    [ 8;  1; -1; -1; -1; -1];
    [ 3;  6;  1; -1; -1; -1];
    [ 3;  6; -1;  1; -1; -1];
    [ 3;  6; -1; -1;  1; -1];
    [ 3;  6; -1; -1; -1;  1] ]%Z.

Definition predator : list (list Z) :=
  [ [ 1;  8; -5;  0;  0;  0];
    [-8;  1;  8;  0;  0;  0];
    [ 8; -8;  1;  0;  0;  0];
    [ 0;  0;  0;  5; -3; -3];
    [ 0;  0;  0; -3;  5; -3];
    [ 0;  0;  0; -3; -3;  5] ]%Z.

Definition symbiosis : list (list Z) :=
  [ [ 2;  7; -3; -3;  0;  0];
    [ 7;  2; -3; -3;  0;  0];
    [-3; -3;  2;  7;  0;  0];
    [-3; -3;  7;  2;  0;  0];
    [ 0;  0;  0;  0;  2;  7];
    [ 0;  0;  0;  0;  7;  2] ]%Z.

Definition chains : list (list Z) :=
  [ [ 3;  5; -3; -3; -3; -3];
    [-5;  3;  5; -3; -3; -3];
    [-3; -5;  3;  5; -3; -3];
    [-3; -3; -5;  3;  5; -3];
    [-3; -3; -3; -5;  3;  5];
    [ 5; -3; -3; -3; -5;  3] ]%Z.

(** A property of [PRESETS]: a function without arguments that may call
    [Math.random]. *)
Definition Preset : Type := Js.Random -> nat -> Rules * nat.

Definition constant (table : list (list Z)) : Preset :=
  fun _ k => (mkRules (tenths table), k).

(** The own properties of the object [PRESETS], in source order. *)
Definition PRESETS : list (string * Preset) :=
  [ ("random", generateRandomRules);
    ("cells", constant cells);
    ("swarm", constant swarm);
    ("predator", constant predator);
    ("symbiosis", constant symbiosis);
    ("chains", constant chains) ]%string.

(** [PRESETS] is an object literal, so a name that is not an own property
    is looked up in [Object.prototype]. *)
Definition Object_prototype : list string :=
  [ "constructor"; "hasOwnProperty"; "isPrototypeOf"; "propertyIsEnumerable";
    "toLocaleString"; "toString"; "valueOf"; "__defineGetter__";
    "__defineSetter__"; "__lookupGetter__"; "__lookupSetter__"; "__proto__" ]%string.

Inductive Property :=
| Own (f : Preset)
| Inherited
| Undefined.

Fixpoint own (table : list (string * Preset)) (name : string) : option Preset :=
  match table with
  | [] => None
  | (key, f) :: rest => if String.eqb key name then Some f else own rest name
  end.

(** [PRESETS[name]] *)
Definition lookupPreset (name : string) : Property :=
  match own PRESETS name with
  | Some f => Own f
  | None =>
      if existsb (String.eqb name) Object_prototype then Inherited else Undefined
  end.

(** [setPreset(name)]: the new value of [rules].  The toggling of the
    buttons touches the page only.  Calling [undefined] throws before the
    assignment; what a member of [Object.prototype] returns is not a rules
    object. *)
Definition setPreset (name : string) (rnd : Js.Random) (k : nat)
    : Js.Result (Rules * nat) :=
  match lookupPreset name with
  | Own f => Js.ret (f rnd k)
  | Inherited => Js.throw Js.Unmodelled
  | Undefined => Js.throw Js.TypeError
  end.

(** ** The matrix editor *)

(** An [input.matrix-input] element: [parseInt] of its [data-i] and
    [data-j], and [parseFloat] of its text, [None] for [NaN]. *)
Record MatrixInput := mkInput {
  data_i : nat;
  data_j : nat;
  value : option R
}.

(** [Math.max(-1, Math.min(1, parseFloat(input.value) || 0))] *)
Definition clampValue (v : option R) : R :=
  Rmax (-1) (Rmin 1 (default 0 v)).

(** [rules.matrix[i][j] = value], which writes into the row object. *)
Definition setCell (m : list (list R)) (i j : nat) (v : option R)
    : Js.Result (list (list R)) :=
  match Js.get m i with
  | None => Js.throw Js.TypeError
  | Some row =>
      row' <~ Js.set row j (clampValue v) ;;
      Js.ret (<[i := row']> m)
  end.

Fixpoint applyInputs (inputs : list MatrixInput) (m : list (list R))
    : Js.Result (list (list R)) :=
  match inputs with
  | [] => Js.ret m
  | input :: rest =>
      m' <~ setCell m (data_i input) (data_j input) (value input) ;;
      applyInputs rest m'
  end.

Definition applyMatrixFromUI (inputs : list MatrixInput) (rules : Rules)
    : Js.Result Rules :=
  m <~ applyInputs inputs (matrix rules) ;; Js.ret (mkRules m).

(** The inputs that [buildMatrixUI] puts on the page, one per cell in row
    order; [text i j] is what the field of cell (i, j) holds when it is
    read back. *)
Definition buildMatrixUI (text : nat -> nat -> option R) : list MatrixInput :=
  flat_map (fun i => map (fun j => mkInput i j (text i j)) (seq 0 numTypes))
    (seq 0 numTypes).

End RuleTables.

(** ** Particle management *)

Section Management.

Variable cfg : Config.
Variables width height : R.

(** [Math.floor(Math.random() * numTypes)], never negative. *)
Definition randomType (r : R) : nat :=
  Z.to_nat (Zfloor (r * INR (numTypes cfg))).

(** The loop of [createParticles], pushing onto [particles]. *)
Fixpoint createLoop (rnd : Js.Random) (k count : nat) (particles : list Particle)
    : list Particle * nat :=
  match count with
  | O => (particles, k)
  | S count' =>
      let type0 := randomType (rnd k) in
      let x0 := rnd (k + 1)%nat * width in
      let y0 := rnd (k + 2)%nat * height in
      createLoop rnd (k + 3) count' (particles ++ [constructor cfg x0 y0 type0])
  end.

(** [createParticles(count)] starts from [particles = []]. *)
Definition createParticles (count : nat) (rnd : Js.Random) (k : nat)
    : list Particle * nat :=
  createLoop rnd k count [].

(** The loop of [spawnParticles]. *)
Fixpoint spawnLoop (x0 y0 : R) (rnd : Js.Random) (k count : nat)
    (particles : list Particle) : list Particle * nat :=
  match count with
  | O => (particles, k)
  | S count' =>
      let type0 := randomType (rnd k) in
      let angle := rnd (k + 1)%nat * PI * 2 in
      let radius := rnd (k + 2)%nat * 30 in
      let px := x0 + cos angle * radius in
      let py := y0 + sin angle * radius in
      spawnLoop x0 y0 rnd (k + 3) count' (particles ++ [constructor cfg px py type0])
  end.

(** [spawnParticles(x, y, count = 20)] appends to the existing particles;
    [updateParticleStats] touches the page only. *)
Definition spawnParticles (x0 y0 : R) (count : option nat) (rnd : Js.Random)
    (k : nat) (particles : list Particle) : list Particle * nat :=
  spawnLoop x0 y0 rnd k (default 20%nat count) particles.

(** [reset()] *)
Definition reset (rnd : Js.Random) (k : nat) : list Particle * nat :=
  createParticles (particleCount cfg) rnd k.

End Management.

(** ** Whole operations *)

Section Operations.

Variable cfg : Config.
Variables width height : R.

(** [init()]: the rules and the particles the page starts with.  The canvas
    and the listeners are set up around these two assignments. *)
Definition init (rnd : Js.Random) (k : nat) : Rules * list Particle * nat :=
  let '(rules, k1) := generateRandomRules cfg rnd k in
  let '(particles, k2) := createParticles cfg width height (particleCount cfg) rnd k1 in
  (rules, particles, k2).

(** [randomize()]: [setPreset('random'); reset();] *)
Definition randomize (rnd : Js.Random) (k : nat)
    : Js.Result (Rules * list Particle * nat) :=
  r <~ setPreset cfg "random" rnd k ;;
  let '(particles, k') := reset cfg width height rnd r.2 in
  Js.ret (r.1, particles, k').

(** [n] frames of [animate] in a row, with no event in between, up to the
    first frame that throws. *)
Fixpoint frames (n : nat) (rules : Rules) (particles : list Particle)
    : Js.Result (list Particle) :=
  match n with
  | O => Js.ret particles
  | S n' =>
      particles' <~ animate cfg width height rules particles ;;
      frames n' rules particles'
  end.

End Operations.

(** [value.toFixed(2)] read back by [parseFloat]: the nearest hundredth, a
    tie going away from zero. *)
Definition toFixed2 (v : R) : R :=
  if v <? 0 then - (IZR (Zfloor (- v * 100 + 1 / 2)) / 100)
  else IZR (Zfloor (v * 100 + 1 / 2)) / 100.

(** What [buildMatrixUI] writes into the field of cell (i, j):
    [rules.matrix[i][j].toFixed(2)]. *)
Definition displayed (rules : Rules) (i j : nat) : option R :=
  toFixed2 <$> (matrix rules !! i ≫= fun row => row !! j).

(** ** Example states *)

(** The scenario of the specification: two particles of type 0 at distance
    50 on a canvas of 1000 by 800, and rules that let each type attract its
    own kind with strength 1. *)
Definition scenarioP : Particle := constructor CONFIG 100 100 0.
Definition scenarioQ : Particle := constructor CONFIG 150 100 0.

Definition scenarioRules : Rules :=
  mkRules [ [1; 0; 0; 0; 0; 0];
            [0; 1; 0; 0; 0; 0];
            [0; 0; 1; 0; 0; 0];
            [0; 0; 0; 1; 0; 0];
            [0; 0; 0; 0; 1; 0];
            [0; 0; 0; 0; 0; 1] ].

(** A particle inside the repulsion zone of [scenarioP], and one on top of
    it. *)
Definition closeQ : Particle := constructor CONFIG 105 100 0.
Definition sameQ : Particle := constructor CONFIG 100 100 1.

(** Two particles on either side of the vertical seam of a wrapped canvas of
    1000 by 800: 50 apart across the seam. *)
Definition seamP : Particle := constructor CONFIG 5 5 0.
Definition seamQ : Particle := constructor CONFIG 955 5 0.

(** A particle near the right and the top edge of that canvas, moving out
    of it, and [CONFIG] after the wrap box has been unticked. *)
Definition edgeP : Particle :=
  {| x := 995; y := 3; vx := 20; vy := -10; type := 0; color := None |}.

Definition bounceCONFIG : Config :=
  {| particleCount := particleCount CONFIG;
     particleRadius := particleRadius CONFIG;
     colors := colors CONFIG;
     maxForce := maxForce CONFIG;
     friction := friction CONFIG;
     interactionRadius := interactionRadius CONFIG;
     wrap := false;
     speed := speed CONFIG;
     paused := paused CONFIG |}.

(** The particle of the scenario already moving to the right. *)
Definition movingP : Particle :=
  {| x := 100; y := 100; vx := 2; vy := 0; type := 0; color := colors CONFIG !! 0%nat |}.

(** Two particles on either side of the vertical seam of a wrapped canvas of
    961 by 800: 4 apart across the seam, inside the repulsion zone. *)
Definition nearP : Particle := constructor CONFIG 1 5 0.
Definition nearQ : Particle := constructor CONFIG 958 5 0.

(** A particle of type 1 where [scenarioQ] is, and a square table whose
    entries are not all in [-1, 1]. *)
Definition otherQ : Particle := constructor CONFIG 150 100 1.

Definition wideRules : Rules :=
  mkRules [ [3; -2; 0; 0; 0; 0];
            [-2; 3; 0; 0; 0; 0];
            [0; 0; 3; 0; 0; 0];
            [0; 0; 0; 3; 0; 0];
            [0; 0; 0; 0; 3; 0];
            [0; 0; 0; 0; 0; 3] ].

(** ** Predicates of the properties *)

(** Velocity (0, 0). *)
Definition at_rest (p : Particle) : Prop := vx p = 0 /\ vy p = 0.

(** Two records of one particle that differ in velocity at most. *)
Definition same_place (p q : Particle) : Prop :=
  x p = x q /\ y p = y q /\ type p = type q.

(** An interaction strength. *)
Definition in_range (v : R) : Prop := -1 <= v <= 1.

(** A square table of side [n] whose entries are interaction strengths. *)
Definition matrix_ok (n : nat) (m : list (list R)) : Prop :=
  length m = n /\ Forall (fun row => length row = n /\ Forall in_range row) m.

(** The same check on a table written in tenths; it computes. *)
Definition table_ok (n : nat) (table : list (list Z)) : bool :=
  (length table =? n)%nat &&
  forallb (fun row =>
    (length row =? n)%nat && forallb (fun z => (-10 <=? z)%Z && (z <=? 10)%Z) row) table.

(** Every particle has one of the first [n] types. *)
Definition typed (n : nat) (particles : list Particle) : Prop :=
  Forall (fun p => (type p < n)%nat) particles.

(** A particle of the canvas. *)
Definition in_canvas (width height : R) (p : Particle) : Prop :=
  0 <= x p < width /\ 0 <= y p < height.

(** The entry of a table, [None] for [undefined]. *)
Definition entry (m : list (list R)) (i j : nat) : option R :=
  m !! i ≫= fun row => row !! j.

(** The sum of a list of force vectors. *)
Definition sum_pairs (forces : list (R * R)) : R * R :=
  foldr (fun g total => (g.1 + total.1, g.2 + total.2)) (0, 0) forces.

(** The length of a force vector. *)
Definition magnitude (g : R * R) : R := sqrt (g.1 * g.1 + g.2 * g.2).

(** What particle [j] adds to the force on particle [i], which is [p]:
    nothing for [i] itself and for a pair outside the interaction zone. *)
Definition contribution (cfg : Config) (width height : R) (rules : Rules)
    (particles : list Particle) (i : nat) (p : Particle) (j : nat) : R * R :=
  if (i =? j)%nat then (0, 0)
  else
    match particles !! j with
    | Some other =>
        match pairForce cfg width height rules p other with
        | inr (Some g) => g
        | _ => (0, 0)
        end
    | None => (0, 0)
    end.

(** A square table of side [n], whatever its entries. *)
Definition square (n : nat) (m : list (list R)) : Prop :=
  length m = n /\ Forall (fun row => length row = n) m.

(** The particles of [out] have, index by index, the types of [particles]. *)
Definition same_types (out particles : list Particle) : Prop :=
  Forall2 (fun q p => type q = type p) out particles.

(** * Properties *)

(** ** Comparisons *)

Lemma lt_true a b : (a <? b) = true <-> a < b.
Proof. unfold Js.lt. destruct (Rlt_dec a b); split; intros; try done; lra. Qed.

Lemma lt_false a b : (a <? b) = false <-> b <= a.
Proof. unfold Js.lt. destruct (Rlt_dec a b); split; intros; try done; lra. Qed.

Lemma ge_true a b : (a >=? b) = true <-> b <= a.
Proof. unfold Js.ge. destruct (Rge_dec a b); split; intros; try done; lra. Qed.

Lemma ge_false a b : (a >=? b) = false <-> a < b.
Proof. unfold Js.ge. destruct (Rge_dec a b); split; intros; try done; lra. Qed.

Lemma gt_true a b : (a >? b) = true <-> b < a.
Proof. unfold Js.gt. destruct (Rgt_dec a b); split; intros; try done; lra. Qed.

Lemma gt_false a b : (a >? b) = false <-> a <= b.
Proof. unfold Js.gt. destruct (Rgt_dec a b); split; intros; try done; lra. Qed.

(** Case analysis on every comparison of the goal, keeping the fact. *)
Ltac cmp :=
  repeat match goal with
  | |- context [?a <? ?b] =>
      let E := fresh "E" in
      destruct (a <? b) eqn:E; [apply lt_true in E | apply lt_false in E]
  | |- context [?a >=? ?b] =>
      let E := fresh "E" in
      destruct (a >=? b) eqn:E; [apply ge_true in E | apply ge_false in E]
  | |- context [?a >? ?b] =>
      let E := fresh "E" in
      destruct (a >? b) eqn:E; [apply gt_true in E | apply gt_false in E]
  end.

(** ** Integration *)

(** [update] right after the velocity change of [applyForces]. *)
Lemma update_after_force cfg width height p fx fy dt :
  update cfg width height (addForce p fx fy) dt =
  boundary cfg width height
    {| x := x p + (vx p + fx) * dt * speed cfg;
       y := y p + (vy p + fy) * dt * speed cfg;
       vx := (vx p + fx) * (1 - friction cfg * dt);
       vy := (vy p + fy) * (1 - friction cfg * dt);
       type := type p;
       color := color p |}.
Proof. reflexivity. Qed.

Lemma wrap_axis_range extent pos d :
  0 <= pos < extent -> Rabs d < extent ->
  0 <= wrap_axis extent (pos + d) < extent.
Proof.
  intros Hpos Hd. apply Rabs_def2 in Hd. unfold wrap_axis.
  cmp; lra.
Qed.

(** C2.  Under wrap mode a particle that starts inside the domain and moves
    by less than the extent on each axis is inside the domain again after
    [update]. *)
Theorem wrap_conservation (cfg : Config) (width height : R) (p : Particle) (dt : R) :
  wrap cfg = true ->
  0 <= x p < width ->
  0 <= y p < height ->
  Rabs (vx p * dt * speed cfg) < width ->
  Rabs (vy p * dt * speed cfg) < height ->
  0 <= x (update cfg width height p dt) < width /\
  0 <= y (update cfg width height p dt) < height.
Proof.
  intros Hwrap Hx Hy Hdx Hdy.
  unfold update, boundary. rewrite Hwrap. simpl.
  split; apply wrap_axis_range; assumption.
Qed.

Lemma wrap_conservation_witness :
  0 <= x (update CONFIG 1000 800 edgeP 1) < 1000 /\
  0 <= y (update CONFIG 1000 800 edgeP 1) < 800.
Proof.
  apply wrap_conservation; simpl; try reflexivity; try lra;
    unfold Rabs; destruct (Rcase_abs _); lra.
Defined.

(** ** Bounce *)

Lemma bounce_axis_outside extent vel pos :
  1 <= extent -> pos < 0 \/ extent <= pos ->
  (bounce_axis extent vel pos).1 = vel * - (8 / 10) /\
  0 <= (bounce_axis extent vel pos).2 <= extent - 1 /\
  (pos < 0 -> (bounce_axis extent vel pos).2 = 0) /\
  (extent <= pos -> (bounce_axis extent vel pos).2 = extent - 1).
Proof.
  intros Hext Hout. unfold bounce_axis.
  destruct (pos <? 0) eqn:Elo; [apply lt_true in Elo | apply lt_false in Elo];
    (destruct (pos >=? extent) eqn:Ehi; [apply ge_true in Ehi | apply ge_false in Ehi]);
    simpl; try lra.
  all: split; [reflexivity |].
  all: unfold Rmax, Rmin;
    destruct (Rle_dec (extent - 1) pos); destruct (Rle_dec 0 _); lra.
Qed.

Lemma bounce_axis_inside extent vel pos :
  0 <= pos < extent -> bounce_axis extent vel pos = (vel, pos).
Proof.
  intros Hin. unfold bounce_axis.
  destruct (pos <? 0) eqn:Elo; [apply lt_true in Elo; lra |].
  destruct (pos >=? extent) eqn:Ehi; [apply ge_true in Ehi; lra |].
  reflexivity.
Qed.

Lemma boundary_bounce cfg width height p :
  wrap cfg = false ->
  x (boundary cfg width height p) = (bounce_axis width (vx p) (x p)).2 /\
  vx (boundary cfg width height p) = (bounce_axis width (vx p) (x p)).1 /\
  y (boundary cfg width height p) = (bounce_axis height (vy p) (y p)).2 /\
  vy (boundary cfg width height p) = (bounce_axis height (vy p) (y p)).1.
Proof.
  intros Hwrap. unfold boundary. rewrite Hwrap.
  destruct (bounce_axis width (vx p) (x p)) as [vx1 x1].
  destruct (bounce_axis height (vy p) (y p)) as [vy1 y1].
  simpl. auto.
Qed.

(** C7.  Under bounce mode, with [q] the particle after the position update
    and the friction: an axis on which [q] is outside [0, extent) has its
    velocity multiplied by -0.8 and its position clamped into
    [0, extent - 1], to 0 at the low end and to extent - 1 at the high end;
    an axis on which [q] is inside keeps velocity and position.  The extents
    are canvas sizes of at least one pixel. *)
Theorem bounce_boundary (cfg : Config) (width height : R) (p : Particle) (dt : R) :
  wrap cfg = false ->
  1 <= width ->
  1 <= height ->
  let q := integrate cfg p dt in
  let p' := update cfg width height p dt in
  (x q < 0 \/ width <= x q ->
     vx p' = vx q * - (8 / 10) /\ 0 <= x p' <= width - 1 /\
     (x q < 0 -> x p' = 0) /\ (width <= x q -> x p' = width - 1)) /\
  (0 <= x q < width -> vx p' = vx q /\ x p' = x q) /\
  (y q < 0 \/ height <= y q ->
     vy p' = vy q * - (8 / 10) /\ 0 <= y p' <= height - 1 /\
     (y q < 0 -> y p' = 0) /\ (height <= y q -> y p' = height - 1)) /\
  (0 <= y q < height -> vy p' = vy q /\ y p' = y q).
Proof.
  intros Hwrap Hw Hh q p'. subst p'. unfold update. fold q.
  destruct (boundary_bounce cfg width height q Hwrap) as (Hx & Hvx & Hy & Hvy).
  rewrite Hx, Hvx, Hy, Hvy.
  split; [| split; [| split]].
  - intros Hout. exact (bounce_axis_outside width (vx q) (x q) Hw Hout).
  - intros Hin. rewrite (bounce_axis_inside width (vx q) (x q) Hin). auto.
  - intros Hout. exact (bounce_axis_outside height (vy q) (y q) Hh Hout).
  - intros Hin. rewrite (bounce_axis_inside height (vy q) (y q) Hin). auto.
Qed.

Lemma bounce_boundary_witness :
  vx (update bounceCONFIG 1000 800 edgeP 1) = 20 * (1 - 5 / 10 * 1) * - (8 / 10) /\
  x (update bounceCONFIG 1000 800 edgeP 1) = 1000 - 1 /\
  vy (update bounceCONFIG 1000 800 edgeP 1) = -10 * (1 - 5 / 10 * 1) * - (8 / 10) /\
  y (update bounceCONFIG 1000 800 edgeP 1) = 0.
Proof.
  destruct (bounce_boundary bounceCONFIG 1000 800 edgeP 1) as (Hx & _ & Hy & _);
    [reflexivity | lra | lra |].
  simpl in Hx, Hy.
  destruct Hx as (Hvx & _ & _ & Hhigh); [right; lra |].
  destruct Hy as (Hvy & _ & Hlow & _); [left; lra |].
  repeat split.
  - exact Hvx.
  - apply Hhigh. lra.
  - exact Hvy.
  - apply Hlow. lra.
Defined.

(** ** New particles are at rest *)

Lemma constructor_at_rest cfg x0 y0 type0 : at_rest (constructor cfg x0 y0 type0).
Proof. split; reflexivity. Qed.

Lemma createLoop_appends cfg width height rnd count :
  forall k particles, exists new,
    (createLoop cfg width height rnd k count particles).1 = particles ++ new /\
    length new = count /\ Forall at_rest new.
Proof.
  induction count as [| count IH]; intros k particles; simpl.
  - exists []. rewrite app_nil_r. auto.
  - destruct (IH (k + 3)%nat
        (particles ++
           [constructor cfg (rnd (k + 1)%nat * width) (rnd (k + 2)%nat * height)
              (randomType cfg (rnd k))])) as (new & Heq & Hlen & Hrest).
    eexists (_ :: new). rewrite Heq, <- app_assoc. simpl.
    split; [reflexivity |]. split; [congruence |].
    constructor; [apply constructor_at_rest | assumption].
Qed.

Lemma spawnLoop_appends cfg x0 y0 rnd count :
  forall k particles, exists new,
    (spawnLoop cfg x0 y0 rnd k count particles).1 = particles ++ new /\
    length new = count /\ Forall at_rest new.
Proof.
  induction count as [| count IH]; intros k particles; simpl.
  - exists []. rewrite app_nil_r. auto.
  - match goal with
    | |- context [spawnLoop _ _ _ _ _ _ (particles ++ [?q])] =>
        destruct (IH (k + 3)%nat (particles ++ [q])) as (new & Heq & Hlen & Hrest);
        exists (q :: new)
    end.
    rewrite Heq, <- app_assoc. simpl.
    split; [reflexivity |]. split; [congruence |].
    constructor; [apply constructor_at_rest | assumption].
Qed.

Lemma update_at_rest cfg width height p dt :
  at_rest p -> at_rest (update cfg width height p dt).
Proof.
  intros [Hvx Hvy]. unfold at_rest, update, boundary.
  destruct (wrap cfg); simpl.
  - rewrite Hvx, Hvy. split; lra.
  - unfold bounce_axis. simpl. rewrite Hvx, Hvy.
    repeat match goal with |- context [if ?c then _ else _] => destruct c end;
      simpl; split; lra.
Qed.

(** C10.  Every particle made by [createParticles] has velocity (0, 0);
    [spawnParticles] keeps the particles it finds and appends [count] new
    ones (20 by default), each with velocity (0, 0); and [update] alone
    leaves a velocity of (0, 0) at (0, 0), so that a velocity can only
    become nonzero through the forces added by [applyForces]. *)
Theorem new_particles_at_rest (cfg : Config) (width height : R) :
  (forall count rnd k,
     length (createParticles cfg width height count rnd k).1 = count /\
     Forall at_rest (createParticles cfg width height count rnd k).1) /\
  (forall x0 y0 count rnd k particles, exists new,
     (spawnParticles cfg x0 y0 count rnd k particles).1 = particles ++ new /\
     length new = default 20%nat count /\
     Forall at_rest new) /\
  (forall p dt, at_rest p -> at_rest (update cfg width height p dt)).
Proof.
  split; [| split].
  - intros count rnd k. unfold createParticles.
    destruct (createLoop_appends cfg width height rnd count k [])
      as (new & Heq & Hlen & Hrest).
    rewrite Heq. simpl. auto.
  - intros x0 y0 count rnd k particles. apply spawnLoop_appends.
  - intros p dt. apply update_at_rest.
Qed.

Lemma new_particles_at_rest_witness :
  at_rest (update CONFIG 1000 800 (constructor CONFIG 5 5 0) 1).
Proof.
  apply (new_particles_at_rest CONFIG 1000 800). apply constructor_at_rest.
Defined.

(** ** The interaction matrix stays a square table of strengths *)

Lemma randomRow_ok rnd n :
  Js.unit_interval rnd ->
  forall k, length (randomRow rnd k n).1 = n /\ Forall in_range (randomRow rnd k n).1.
Proof.
  intros Hrnd. induction n as [| n IH]; intros k; simpl.
  - split; [reflexivity | constructor].
  - specialize (IH (S k)). destruct (randomRow rnd (S k) n) as [row k'].
    simpl in *. destruct IH as [Hlen Hall]. split; [congruence |].
    constructor; [| assumption].
    specialize (Hrnd k). unfold in_range. lra.
Qed.

Lemma randomRows_ok cfg rnd rows :
  Js.unit_interval rnd ->
  forall k,
    length (randomRows cfg rnd k rows).1 = rows /\
    Forall (fun row => length row = numTypes cfg /\ Forall in_range row)
      (randomRows cfg rnd k rows).1.
Proof.
  intros Hrnd. induction rows as [| rows IH]; intros k; simpl.
  - split; [reflexivity | constructor].
  - pose proof (randomRow_ok rnd (numTypes cfg) Hrnd k) as Hrow.
    destruct (randomRow rnd k (numTypes cfg)) as [row k1].
    specialize (IH k1). destruct (randomRows cfg rnd k1 rows) as [m k2].
    simpl in *. destruct IH as [Hlen Hall]. split; [congruence |].
    constructor; assumption.
Qed.

Lemma generateRandomRules_ok cfg rnd k :
  Js.unit_interval rnd ->
  matrix_ok (numTypes cfg) (matrix (generateRandomRules cfg rnd k).1).
Proof.
  intros Hrnd. unfold generateRandomRules.
  pose proof (randomRows_ok cfg rnd (numTypes cfg) Hrnd k) as Hrows.
  destruct (randomRows cfg rnd k (numTypes cfg)) as [m k']. exact Hrows.
Qed.

Lemma tenths_ok n table : table_ok n table = true -> matrix_ok n (tenths table).
Proof.
  unfold table_ok, matrix_ok, tenths. intros H.
  apply andb_prop in H as [Hlen Hrows]. apply Nat.eqb_eq in Hlen.
  rewrite length_map. split; [assumption |].
  apply Forall_map. apply Forall_forall. intros row Hin.
  rewrite forallb_forall in Hrows.
  apply list_elem_of_In in Hin. specialize (Hrows row Hin).
  apply andb_prop in Hrows as [Hrowlen Hentries]. apply Nat.eqb_eq in Hrowlen.
  rewrite length_map. split; [assumption |].
  apply Forall_map. apply Forall_forall. intros z Hz.
  rewrite forallb_forall in Hentries.
  apply list_elem_of_In in Hz. specialize (Hentries z Hz). simpl.
  apply andb_prop in Hentries as [Hlo Hhi].
  apply Z.leb_le in Hlo, Hhi. apply IZR_le in Hlo, Hhi.
  unfold in_range. lra.
Qed.

Lemma clampValue_in_range v : in_range (clampValue v).
Proof.
  unfold in_range, clampValue, Rmax, Rmin.
  destruct (Rle_dec 1 (default 0 v)); destruct (Rle_dec (-1) _); lra.
Qed.

Lemma setCell_ok n m i j v :
  matrix_ok n m -> (i < n)%nat -> (j < n)%nat ->
  exists row, m !! i = Some row /\
    setCell m i j v = inr (<[i := <[j := clampValue v]> row]> m) /\
    matrix_ok n (<[i := <[j := clampValue v]> row]> m).
Proof.
  intros [Hlen Hrows] Hi Hj.
  destruct (lookup_lt_is_Some_2 m i) as [row Hrow]; [lia |].
  exists row. split; [assumption |].
  pose proof (proj1 (Forall_lookup _ _) Hrows i row Hrow) as [Hrowlen Hentries].
  unfold setCell, Js.get, Js.set. rewrite Hrow.
  assert ((j <? length row)%nat = true) as -> by (apply Nat.ltb_lt; lia).
  simpl. split; [reflexivity |].
  split; [rewrite length_insert; assumption |].
  apply Forall_insert; [assumption |].
  split; [rewrite length_insert; assumption |].
  apply Forall_insert; [assumption | apply clampValue_in_range].
Qed.

Lemma applyInputs_ok n inputs :
  Forall (fun input => (data_i input < n)%nat /\ (data_j input < n)%nat) inputs ->
  forall m, matrix_ok n m ->
  exists m', applyInputs inputs m = inr m' /\ matrix_ok n m'.
Proof.
  induction 1 as [| input inputs [Hi Hj] _ IH]; intros m Hm; simpl.
  - exists m. auto.
  - destruct (setCell_ok n m _ _ (value input) Hm Hi Hj) as (row & _ & -> & Hm').
    simpl. apply IH, Hm'.
Qed.

Lemma buildMatrixUI_indices cfg text :
  Forall (fun input => (data_i input < numTypes cfg)%nat /\
                       (data_j input < numTypes cfg)%nat)
    (buildMatrixUI cfg text).
Proof.
  unfold buildMatrixUI. apply Forall_forall. intros input Hin.
  apply list_elem_of_In, in_flat_map in Hin as (i & Hi & Hin).
  apply in_map_iff in Hin as (j & <- & Hj).
  apply in_seq in Hi, Hj. simpl. lia.
Qed.

Lemma constant_ok n table rnd k r k' :
  constant table rnd k = (r, k') -> table_ok n table = true -> matrix_ok n (matrix r).
Proof.
  unfold constant. intros [= <- _] Hok. simpl. apply tenths_ok, Hok.
Qed.

Lemma setPreset_ok name rnd k r k' :
  Js.unit_interval rnd ->
  setPreset CONFIG name rnd k = inr (r, k') ->
  matrix_ok (numTypes CONFIG) (matrix r).
Proof.
  intros Hrnd. unfold setPreset, lookupPreset, PRESETS, own.
  repeat match goal with
  | |- context [String.eqb ?a name] => destruct (String.eqb a name)
  end.
  all: intros H; unfold Js.ret in H.
  1: { assert (generateRandomRules CONFIG rnd k = (r, k')) as Heq by congruence.
       pose proof (generateRandomRules_ok CONFIG rnd k Hrnd) as Hok.
       rewrite Heq in Hok. exact Hok. }
  6: { destruct (existsb _ _); discriminate. }
  all: match type of H with
       | context [constant ?t] => apply (constant_ok _ t rnd k r k')
       end; [congruence | reflexivity].
Qed.

(** ** Presets *)

Lemma own_not_in table name :
  ~ In name (map fst table) -> own table name = None.
Proof.
  induction table as [| [key f] table IH]; intros Hnot; [reflexivity |].
  cbn [own]. destruct (String.eqb_spec key name) as [Heq | Hne].
  - exfalso. apply Hnot. left. exact Heq.
  - apply IH. intros Hin. apply Hnot. right. exact Hin.
Qed.

Lemma own_absent cfg name :
  ~ In name (map fst (PRESETS cfg)) -> own (PRESETS cfg) name = None.
Proof. apply own_not_in. Qed.

Lemma not_inherited name :
  ~ In name Object_prototype -> existsb (String.eqb name) Object_prototype = false.
Proof.
  intros Hnot. destruct (existsb _ _) eqn:E; [| reflexivity].
  apply existsb_exists in E as (key & Hin & Heq).
  apply String.eqb_eq in Heq. subst key. contradiction.
Qed.

(** C9, as the code has it.  A name that is neither a property of [PRESETS]
    nor one it inherits from [Object.prototype] makes [setPreset] throw a
    TypeError, and no rules are assigned; [cells], [swarm], [predator],
    [symbiosis] and [chains] give their constant tables and draw no random
    number; [random] gives what [generateRandomRules] generates. *)
Theorem setPreset_outcomes (cfg : Config) (rnd : Js.Random) (k : nat) :
  (forall name,
     ~ In name (map fst (PRESETS cfg)) -> ~ In name Object_prototype ->
     setPreset cfg name rnd k = inl Js.TypeError) /\
  setPreset cfg "cells" rnd k = inr (mkRules (tenths cells), k) /\
  setPreset cfg "swarm" rnd k = inr (mkRules (tenths swarm), k) /\
  setPreset cfg "predator" rnd k = inr (mkRules (tenths predator), k) /\
  setPreset cfg "symbiosis" rnd k = inr (mkRules (tenths symbiosis), k) /\
  setPreset cfg "chains" rnd k = inr (mkRules (tenths chains), k) /\
  setPreset cfg "random" rnd k = inr (generateRandomRules cfg rnd k).
Proof.
  split; [| repeat split].
  intros name Hown Hproto. unfold setPreset, lookupPreset.
  rewrite (own_absent cfg name Hown), (not_inherited name Hproto). reflexivity.
Qed.

Lemma setPreset_outcomes_witness :
  setPreset CONFIG "bogus" (fun _ => 0) 0 = inl Js.TypeError.
Proof.
  apply (setPreset_outcomes CONFIG (fun _ => 0) 0).
  - simpl. intros H. repeat (destruct H as [H | H]; [discriminate H |]). exact H.
  - simpl. intros H. repeat (destruct H as [H | H]; [discriminate H |]). exact H.
Defined.

(** C9, as the specification words it, fails at the name [random]: it is a
    property of [PRESETS], and no single matrix is what it returns. *)
Lemma random_preset_not_constant :
  In "random"%string (map fst (PRESETS CONFIG)) /\
  ~ exists m, forall rnd k, exists k',
      setPreset CONFIG "random" rnd k = inr (mkRules m, k').
Proof.
  split; [simpl; auto |].
  intros (m & Hm).
  destruct (Hm (fun _ => 0) 0%nat) as (k0 & H0).
  destruct (Hm (fun _ => 1 / 2) 0%nat) as (k1 & H1).
  unfold setPreset, lookupPreset, Js.ret in H0, H1. simpl in H0, H1.
  assert (hd 0 (hd [] m) = 0 * 2 - 1) as Ha by (injection H0 as <-; reflexivity).
  assert (hd 0 (hd [] m) = 1 / 2 * 2 - 1) as Hb by (injection H1 as <-; reflexivity).
  lra.
Qed.

(** ** The force of a pair *)

Lemma div_nonzero a b : b <> 0 -> Js.div a b = inr (a / b).
Proof. intros Hb. unfold Js.div. destruct (Req_dec_T b 0); [contradiction | reflexivity]. Qed.

Lemma distance_eq cfg width height p other :
  distance cfg width height p other =
  sqrt ((separation cfg width height p other).1 * (separation cfg width height p other).1 +
        (separation cfg width height p other).2 * (separation cfg width height p other).2).
Proof. unfold distance. destruct (separation _ _ _ _ _). reflexivity. Qed.

Lemma distance_nonneg cfg width height p other :
  0 <= distance cfg width height p other.
Proof. rewrite distance_eq. apply sqrt_pos. Qed.

Lemma forceAt_repulsion cfg strength dist :
  0 < dist < minDist cfg ->
  forceAt cfg strength dist = inr ((dist / minDist cfg - 1) * maxForce cfg).
Proof.
  intros Hd. unfold forceAt.
  destruct (dist <? minDist cfg) eqn:E; [| apply lt_false in E; lra].
  rewrite div_nonzero by lra. reflexivity.
Qed.

Lemma forceAt_interaction cfg strength dist :
  minDist cfg <= dist < interactionRadius cfg ->
  forceAt cfg (Some strength) dist =
  inr (strength *
       (1 - (dist - minDist cfg) / (interactionRadius cfg - minDist cfg)) *
       maxForce cfg).
Proof.
  intros Hd. unfold forceAt.
  destruct (dist <? minDist cfg) eqn:E; [apply lt_true in E; lra |].
  rewrite div_nonzero by lra. reflexivity.
Qed.

(** Outside the open interval (0, interactionRadius) the body of the
    neighbour loop adds nothing. *)
Lemma pairForce_idle cfg width height rules p other :
  distance cfg width height p other = 0 \/
  interactionRadius cfg <= distance cfg width height p other ->
  pairForce cfg width height rules p other = inr None.
Proof.
  rewrite distance_eq. unfold pairForce.
  destruct (separation cfg width height p other) as [dx dy]. simpl.
  intros Hd.
  destruct (_ <? interactionRadius cfg) eqn:E1; [apply lt_true in E1 | reflexivity].
  destruct (_ >? 0) eqn:E2; [apply gt_true in E2 | reflexivity].
  lra.
Qed.

(** Inside it, the force is the scalar of [forceAt] along the unit vector
    from [p] to [other]. *)
Lemma pairForce_active cfg width height rules p other row :
  0 < distance cfg width height p other < interactionRadius cfg ->
  matrix rules !! type p = Some row ->
  pairForce cfg width height rules p other =
  (force <~ forceAt cfg (row !! type other) (distance cfg width height p other) ;;
   inr (Some ((separation cfg width height p other).1 /
                distance cfg width height p other * force,
              (separation cfg width height p other).2 /
                distance cfg width height p other * force))).
Proof.
  rewrite distance_eq. unfold pairForce, Js.get.
  destruct (separation cfg width height p other) as [dx dy]. simpl.
  intros Hd Hrow. rewrite Hrow.
  destruct (_ <? interactionRadius cfg) eqn:E1; [| apply lt_false in E1; lra].
  destruct (_ >? 0) eqn:E2; [| apply gt_false in E2; lra].
  simpl. destruct (forceAt _ _ _) as [e | force]; [reflexivity |]. simpl.
  rewrite !div_nonzero by lra. reflexivity.
Qed.

(** The force law in the interaction zone: the pair gives [p] the unit
    vector towards [other] times
    strength * (1 - (dist - minDist) / (interactionRadius - minDist)) * maxForce,
    the strength being [rules.matrix[p.type][other.type]].  With
    interactionRadius 80, particleRadius 2.5, strength 1 and distance 50 this
    scalar is (1 - 40/70) * maxForce, and for a positive maxForce the force
    on [p] is a positive multiple of the vector from [p] to [other]: it
    pulls [p] towards [other]. *)
Lemma interaction_zone_force (cfg : Config) (width height : R) (rules : Rules)
    (p other : Particle) (strength : R) :
  0 < particleRadius cfg ->
  (matrix rules !! type p ≫= fun row => row !! type other) = Some strength ->
  minDist cfg <= distance cfg width height p other < interactionRadius cfg ->
  let dx := (separation cfg width height p other).1 in
  let dy := (separation cfg width height p other).2 in
  let dist := distance cfg width height p other in
  let force :=
    strength * (1 - (dist - minDist cfg) / (interactionRadius cfg - minDist cfg)) *
    maxForce cfg in
  pairForce cfg width height rules p other =
    inr (Some (dx / dist * force, dy / dist * force)) /\
  (interactionRadius cfg = 80 -> particleRadius cfg = 25 / 10 ->
   strength = 1 -> dist = 50 ->
   force = 1 * (1 - 40 / 70) * maxForce cfg /\
   (0 < maxForce cfg ->
    exists c, 0 < c /\ dx / dist * force = c * dx /\ dy / dist * force = c * dy)).
Proof.
  intros Hradius Hstrength Hzone. cbv zeta.
  destruct (matrix rules !! type p) as [row |] eqn:Hrow; [| discriminate].
  simpl in Hstrength.
  assert (0 < distance cfg width height p other) as Hpos
    by (unfold minDist in Hzone; lra).
  split.
  - rewrite (pairForce_active cfg width height rules p other row);
      [| lra | exact Hrow].
    rewrite Hstrength, (forceAt_interaction cfg strength _ Hzone). reflexivity.
  - intros HR Hr Hs Hd. unfold minDist. rewrite HR, Hr, Hs, Hd.
    split; [field |].
    intros Hmax. exists ((1 - 40 / 70) * maxForce cfg / 50).
    split; [| split].
    + apply Rdiv_lt_0_compat; [| lra]. apply Rmult_lt_0_compat; lra.
    + field.
    + field.
Qed.

(** The force law below [minDist]: the unit vector towards [other] times
    (dist / minDist - 1) * maxForce, which is not positive: the force on [p]
    is a non-positive multiple of the vector from [p] to [other], pushing it
    away.  The matrix only has to have the row of [p]: any two such rule sets
    give the same force.  [maxForce] is not negative and the repulsion zone
    lies within the interaction radius, as in [CONFIG]. *)
Lemma repulsion_zone_force (cfg : Config) (width height : R) (rules : Rules)
    (p other : Particle) (row : list R) :
  0 <= maxForce cfg ->
  minDist cfg <= interactionRadius cfg ->
  matrix rules !! type p = Some row ->
  0 < distance cfg width height p other < minDist cfg ->
  let dx := (separation cfg width height p other).1 in
  let dy := (separation cfg width height p other).2 in
  let dist := distance cfg width height p other in
  let force := (dist / minDist cfg - 1) * maxForce cfg in
  pairForce cfg width height rules p other =
    inr (Some (dx / dist * force, dy / dist * force)) /\
  force <= 0 /\
  (exists c, c <= 0 /\ dx / dist * force = c * dx /\ dy / dist * force = c * dy) /\
  (forall rules' row',
     matrix rules' !! type p = Some row' ->
     pairForce cfg width height rules' p other =
     pairForce cfg width height rules p other).
Proof.
  intros Hmax Hzone Hrow Hd. cbv zeta.
  assert (forall rules' row',
             matrix rules' !! type p = Some row' ->
             pairForce cfg width height rules' p other =
             inr (Some ((separation cfg width height p other).1 /
                          distance cfg width height p other *
                          ((distance cfg width height p other / minDist cfg - 1) *
                           maxForce cfg),
                        (separation cfg width height p other).2 /
                          distance cfg width height p other *
                          ((distance cfg width height p other / minDist cfg - 1) *
                           maxForce cfg)))) as Hany.
  { intros rules' row' Hrow'.
    rewrite (pairForce_active cfg width height rules' p other row');
      [| lra | exact Hrow'].
    rewrite (forceAt_repulsion cfg _ _ Hd). reflexivity. }
  assert (distance cfg width height p other / minDist cfg - 1 <= 0) as Hneg.
  { assert (0 < / minDist cfg) as Hinv by (apply Rinv_0_lt_compat; lra).
    assert (distance cfg width height p other * / minDist cfg <
            minDist cfg * / minDist cfg) as Hlt
      by (apply Rmult_lt_compat_r; lra).
    rewrite Rinv_r in Hlt by lra. unfold Rdiv. lra. }
  assert ((distance cfg width height p other / minDist cfg - 1) * maxForce cfg <= 0)
    as Hforce.
  { rewrite <- (Rmult_0_l (maxForce cfg)). apply Rmult_le_compat_r; assumption. }
  split; [apply (Hany rules row Hrow) |].
  split; [exact Hforce |].
  split.
  - exists ((distance cfg width height p other / minDist cfg - 1) * maxForce cfg /
            distance cfg width height p other).
    split; [| split].
    + assert (0 < / distance cfg width height p other) as Hinv
        by (apply Rinv_0_lt_compat; lra).
      unfold Rdiv at 1. nra.
    + field. lra.
    + field. lra.
  - intros rules' row' Hrow'.
    rewrite (Hany rules' row' Hrow'), (Hany rules row Hrow). reflexivity.
Qed.

Lemma forceAt_divides cfg strength dist :
  0 < dist < interactionRadius cfg ->
  forceAt cfg strength dist <> inl Js.DivisionByZero.
Proof.
  intros Hd. unfold forceAt.
  destruct (dist <? minDist cfg) eqn:E; [apply lt_true in E | apply lt_false in E].
  - rewrite div_nonzero by lra. discriminate.
  - rewrite div_nonzero by lra. simpl. destruct strength; discriminate.
Qed.

(** C5.  At distance 0, and from [interactionRadius] on, the pair adds
    nothing and the neighbour loop goes on with its sums unchanged; the
    branch that divides is entered only with 0 < dist < interactionRadius,
    and no division of [pairForce] ever has a zero divisor. *)
Theorem division_guarded (cfg : Config) (width height : R) (rules : Rules)
    (p other : Particle) :
  (distance cfg width height p other = 0 \/
   interactionRadius cfg <= distance cfg width height p other ->
   pairForce cfg width height rules p other = inr None /\
   forall particles i j rest f,
     i <> j -> particles !! j = Some other ->
     accumulate cfg width height rules particles i p (j :: rest) f =
     accumulate cfg width height rules particles i p rest f) /\
  (pairForce cfg width height rules p other <> inr None ->
   0 < distance cfg width height p other < interactionRadius cfg) /\
  pairForce cfg width height rules p other <> inl Js.DivisionByZero.
Proof.
  split; [| split].
  - intros Hd. pose proof (pairForce_idle cfg width height rules p other Hd) as Hidle.
    split; [exact Hidle |].
    intros particles i j rest f Hij Hj. simpl.
    destruct (Nat.eqb_spec i j) as [| _]; [contradiction |].
    unfold Js.get. rewrite Hj, Hidle. reflexivity.
  - intros Hactive.
    pose proof (distance_nonneg cfg width height p other) as Hnn.
    destruct (Rle_dec (interactionRadius cfg) (distance cfg width height p other))
      as [Hfar |]; [| destruct (Req_dec_T (distance cfg width height p other) 0)
                        as [Hzero |]; [| lra]].
    + exfalso. apply Hactive, pairForce_idle. right. exact Hfar.
    + exfalso. apply Hactive, pairForce_idle. left. exact Hzero.
  - pose proof (distance_nonneg cfg width height p other) as Hnn.
    destruct (Rle_dec (interactionRadius cfg) (distance cfg width height p other))
      as [Hfar | Hnear].
    { rewrite pairForce_idle by (right; exact Hfar). discriminate. }
    destruct (Req_dec_T (distance cfg width height p other) 0) as [Hzero | Hpos].
    { rewrite pairForce_idle by (left; exact Hzero). discriminate. }
    assert (0 < distance cfg width height p other < interactionRadius cfg) as Hd by lra.
    unfold pairForce. rewrite distance_eq in Hd.
    destruct (separation cfg width height p other) as [dx dy]. simpl in Hd.
    destruct (_ && _); [| discriminate].
    destruct (Js.get (matrix rules) (type p)) as [row |]; [| discriminate].
    pose proof (forceAt_divides cfg (Js.get row (type other)) _ Hd) as Hforce.
    destruct (forceAt _ _ _) as [e | force]; simpl.
    + congruence.
    + rewrite !div_nonzero by lra. discriminate.
Qed.

(** ** The example states *)

(** Decides the comparisons of a goal between concrete numbers. *)
Ltac decide_cmp :=
  repeat match goal with
  | |- context [?a <? ?b] =>
      first [ rewrite (proj2 (lt_true a b)) by lra
            | rewrite (proj2 (lt_false a b)) by lra ]
  | |- context [?a >=? ?b] =>
      first [ rewrite (proj2 (ge_true a b)) by lra
            | rewrite (proj2 (ge_false a b)) by lra ]
  | |- context [?a >? ?b] =>
      first [ rewrite (proj2 (gt_true a b)) by lra
            | rewrite (proj2 (gt_false a b)) by lra ]
  end.

Lemma sqrt_axis a b d : 0 <= d -> a * a = d * d -> b = 0 -> sqrt (a * a + b * b) = d.
Proof.
  intros Hd Ha ->. rewrite Ha, Rmult_0_l, Rplus_0_r. apply sqrt_square, Hd.
Qed.

Lemma separation_concrete x0 y0 t0 x1 y1 t1 dx dy :
  wrap_delta 1000 (x1 - x0) = dx -> wrap_delta 800 (y1 - y0) = dy ->
  separation CONFIG 1000 800 (constructor CONFIG x0 y0 t0) (constructor CONFIG x1 y1 t1)
  = (dx, dy).
Proof. intros <- <-. reflexivity. Qed.

Lemma scenario_separation : separation CONFIG 1000 800 scenarioP scenarioQ = (50, 0).
Proof.
  apply separation_concrete; unfold wrap_delta; decide_cmp; lra.
Qed.

Lemma scenario_distance : distance CONFIG 1000 800 scenarioP scenarioQ = 50.
Proof.
  rewrite distance_eq, scenario_separation. apply sqrt_axis; simpl; lra.
Qed.

Lemma close_separation : separation CONFIG 1000 800 scenarioP closeQ = (5, 0).
Proof.
  apply separation_concrete; unfold wrap_delta; decide_cmp; lra.
Qed.

Lemma close_distance : distance CONFIG 1000 800 scenarioP closeQ = 5.
Proof.
  rewrite distance_eq, close_separation. apply sqrt_axis; simpl; lra.
Qed.

Lemma same_separation : separation CONFIG 1000 800 scenarioP sameQ = (0, 0).
Proof.
  apply separation_concrete; unfold wrap_delta; decide_cmp; lra.
Qed.

Lemma same_distance : distance CONFIG 1000 800 scenarioP sameQ = 0.
Proof.
  rewrite distance_eq, same_separation. apply sqrt_axis; simpl; lra.
Qed.

Lemma seam_separation : separation CONFIG 1000 800 seamP seamQ = (-50, 0).
Proof.
  apply separation_concrete; unfold wrap_delta; decide_cmp; lra.
Qed.

Lemma seam_distance : distance CONFIG 1000 800 seamP seamQ = 50.
Proof.
  rewrite distance_eq, seam_separation. apply sqrt_axis; simpl; lra.
Qed.

Lemma division_guarded_witness :
  pairForce CONFIG 1000 800 scenarioRules scenarioP sameQ = inr None.
Proof.
  apply (division_guarded CONFIG 1000 800 scenarioRules scenarioP sameQ).
  left. exact same_distance.
Defined.

(** ** The spatial hash *)

Lemma cellOf_concrete x0 y0 t0 cx cy :
  IZR cx <= x0 / 80 < IZR cx + 1 -> IZR cy <= y0 / 80 < IZR cy + 1 ->
  cellOf CONFIG (constructor CONFIG x0 y0 t0) = (cx, cy).
Proof.
  intros Hx Hy. unfold cellOf, cellSize. simpl.
  rewrite (Zfloor_eq cx), (Zfloor_eq cy) by assumption. reflexivity.
Qed.

Lemma seamP_cell : cellOf CONFIG seamP = (0, 0)%Z.
Proof. apply cellOf_concrete; simpl; lra. Qed.

Lemma seamQ_cell : cellOf CONFIG seamQ = (11, 0)%Z.
Proof. apply cellOf_concrete; simpl; lra. Qed.

Lemma seam_maxCellX : maxCellX CONFIG 1000 = 13%Z.
Proof. unfold maxCellX, cellSize. simpl. apply Zceil_eq. simpl. lra. Qed.

Lemma seam_maxCellY : maxCellY CONFIG 800 = 10%Z.
Proof. unfold maxCellY, cellSize. simpl. apply Zceil_eq. simpl. lra. Qed.

Lemma seam_hash :
  buildSpatialHash CONFIG [seamP; seamQ] =
  <[(11, 0)%Z := [1%nat]]> (<[(0, 0)%Z := [0%nat]]> ∅).
Proof.
  unfold buildSpatialHash. cbn [buildFrom].
  rewrite seamP_cell, seamQ_cell. reflexivity.
Qed.

Lemma seam_neighbors_P :
  getNeighbors CONFIG 1000 800 (buildSpatialHash CONFIG [seamP; seamQ]) seamP = [0%nat].
Proof.
  rewrite seam_hash. unfold getNeighbors, neighborKey.
  rewrite seamP_cell, seam_maxCellX, seam_maxCellY.
  change (wrap CONFIG) with true. cbv iota.
  vm_compute. reflexivity.
Qed.

Lemma seam_neighbors_Q :
  getNeighbors CONFIG 1000 800 (buildSpatialHash CONFIG [seamP; seamQ]) seamQ = [1%nat].
Proof.
  rewrite seam_hash. unfold getNeighbors, neighborKey.
  rewrite seamQ_cell, seam_maxCellX, seam_maxCellY.
  change (wrap CONFIG) with true. cbv iota.
  vm_compute. reflexivity.
Qed.

Lemma seam_applyForces :
  applyForces CONFIG 1000 800 scenarioRules [seamP; seamQ] =
  inr [addForce seamP 0 0; addForce seamQ 0 0].
Proof.
  unfold applyForces. cbn [length seq forceLoop].
  unfold forceOn at 1. cbn [Js.get lookup list_lookup].
  rewrite seam_neighbors_P. cbn [accumulate Nat.eqb Js.ret Js.bind fst snd].
  cbn [insert list_insert].
  unfold forceOn. cbn [Js.get lookup list_lookup].
  rewrite seam_neighbors_Q. cbn [accumulate Nat.eqb Js.ret Js.bind fst snd].
  reflexivity.
Qed.

Lemma seam_pairForce :
  pairForce CONFIG 1000 800 scenarioRules seamP seamQ =
  inr (Some (-50 / 50 * (1 * (1 - (50 - 10) / (80 - 10)) * 1),
             0 / 50 * (1 * (1 - (50 - 10) / (80 - 10)) * 1))).
Proof.
  assert (minDist CONFIG = 10) as Hmin by (unfold minDist; simpl; lra).
  rewrite (pairForce_active CONFIG 1000 800 scenarioRules seamP seamQ [1; 0; 0; 0; 0; 0]);
    [| rewrite seam_distance; simpl; lra | reflexivity].
  rewrite seam_distance, seam_separation.
  change ([1; 0; 0; 0; 0; 0] !! type seamQ) with (Some 1).
  rewrite forceAt_interaction by (rewrite Hmin; simpl; lra).
  rewrite Hmin. reflexivity.
Qed.

(** C1 at the seam of a wrapped canvas.  On a canvas of 1000 by 800 with
    cells of 80 the last column of cells is 40 wide.  [seamP] at x = 5 and
    [seamQ] at x = 955 are 50 apart across the seam, which is less than the
    interaction radius, and [pairForce] has a force for the pair; but the
    candidates of [seamP] are the columns 12, 0 and 1, [seamQ] is in column
    11, and the candidate list of [seamP] is its own index alone.
    [applyForces] therefore adds no force to either particle. *)
Theorem seam_neighbor_missed :
  [seamP; seamQ] !! 1%nat = Some seamQ /\
  distance CONFIG 1000 800 seamP seamQ = 50 /\
  50 < interactionRadius CONFIG /\
  0 <= x seamP < 1000 /\ 0 <= x seamQ < 1000 /\
  getNeighbors CONFIG 1000 800 (buildSpatialHash CONFIG [seamP; seamQ]) seamP
    = [0%nat] /\
  (exists g, pairForce CONFIG 1000 800 scenarioRules seamP seamQ = inr (Some g) /\
             g.1 < 0) /\
  applyForces CONFIG 1000 800 scenarioRules [seamP; seamQ] =
    inr [addForce seamP 0 0; addForce seamQ 0 0].
Proof.
  split; [reflexivity |].
  split; [exact seam_distance |].
  split; [simpl; lra |].
  split; [simpl; lra |].
  split; [simpl; lra |].
  split; [exact seam_neighbors_P |].
  split; [| exact seam_applyForces].
  eexists. split; [exact seam_pairForce |]. simpl. lra.
Qed.

(** ** One frame: forces from the snapshot, then integration *)

Lemma same_place_refl p : same_place p p.
Proof. repeat split. Qed.

Lemma addForce_same_place p fx fy : same_place (addForce p fx fy) p.
Proof. repeat split. Qed.

Lemma pairForce_same_place cfg width height rules p other other' :
  same_place other other' ->
  pairForce cfg width height rules p other = pairForce cfg width height rules p other'.
Proof.
  intros (Hx & Hy & Ht). unfold pairForce, separation. rewrite Hx, Hy, Ht. reflexivity.
Qed.

Lemma accumulate_same_place cfg width height rules cur orig i p :
  Forall2 same_place cur orig ->
  forall neighbors f,
    accumulate cfg width height rules cur i p neighbors f =
    accumulate cfg width height rules orig i p neighbors f.
Proof.
  intros Hsame. induction neighbors as [| j rest IH]; intros f; [reflexivity |].
  cbn [accumulate]. destruct (i =? j)%nat; [apply IH |].
  unfold Js.get. destruct (cur !! j) as [other |] eqn:Hcur.
  - destruct (Forall2_lookup_l _ _ _ _ _ Hsame Hcur) as (other' & -> & Hplace).
    rewrite (pairForce_same_place cfg width height rules p other other' Hplace).
    destruct (pairForce _ _ _ _ _ _) as [e | c]; [reflexivity |]. simpl. apply IH.
  - apply lookup_ge_None in Hcur. rewrite (Forall2_length _ _ _ Hsame) in Hcur.
    apply lookup_ge_None in Hcur. rewrite Hcur. reflexivity.
Qed.

(** The loop of [applyForces] over the indices [a, a + n): it changes
    velocities only, and the force on each particle is the one computed from
    the particles as they were when the loop began. *)
Lemma forceLoop_snapshot cfg width height rules h orig n :
  forall a cur out,
    Forall2 same_place cur orig ->
    (forall j, (a <= j)%nat -> cur !! j = orig !! j) ->
    forceLoop cfg width height rules h (seq a n) cur = inr out ->
    Forall2 same_place out orig /\
    (forall j, (j < a)%nat -> out !! j = cur !! j) /\
    (forall j p, (a <= j < a + n)%nat -> orig !! j = Some p ->
       exists f,
         accumulate cfg width height rules orig j p
           (getNeighbors cfg width height h p) (0, 0) = inr f /\
         out !! j = Some (addForce p f.1 f.2)).
Proof.
  induction n as [| n IH]; intros a cur out Hsame Htail Hloop.
  - simpl in Hloop. injection Hloop as <-.
    split; [exact Hsame |]. split; [reflexivity |]. intros j p Hj. lia.
  - cbn [seq forceLoop] in Hloop. unfold forceOn, Js.get in Hloop.
    rewrite (Htail a) in Hloop by lia.
    destruct (orig !! a) as [pa |] eqn:Hpa; [| discriminate].
    rewrite (accumulate_same_place cfg width height rules cur orig a pa Hsame) in Hloop.
    destruct (accumulate _ _ _ _ orig a pa _ _) as [e | f] eqn:Hacc; [discriminate |].
    cbn [Js.bind Js.ret] in Hloop.
    assert (a < length cur)%nat as Hlen.
    { rewrite (Forall2_length _ _ _ Hsame). apply lookup_lt_Some in Hpa. exact Hpa. }
    apply IH in Hloop as (Hout & Hbefore & Hrange).
    + split; [exact Hout |].
      split.
      * intros j Hj. rewrite Hbefore by lia. apply list_lookup_insert_ne. lia.
      * intros j p Hj Hp. destruct (decide (j = a)) as [-> | Hne].
        -- exists f. assert (p = pa) as -> by congruence.
           split; [exact Hacc |].
           rewrite Hbefore by lia. apply list_lookup_insert_eq. exact Hlen.
        -- apply Hrange; [lia | exact Hp].
    + rewrite <- (list_insert_id orig a pa Hpa).
      apply Forall2_insert; [exact Hsame | apply addForce_same_place].
    + intros j Hj. rewrite list_lookup_insert_ne by lia. apply Htail. lia.
Qed.

Lemma applyForces_snapshot cfg width height rules particles out i p :
  applyForces cfg width height rules particles = inr out ->
  particles !! i = Some p ->
  exists f,
    accumulate cfg width height rules particles i p
      (getNeighbors cfg width height (buildSpatialHash cfg particles) p) (0, 0) = inr f /\
    out !! i = Some (addForce p f.1 f.2).
Proof.
  unfold applyForces. intros Hloop Hp.
  apply forceLoop_snapshot with (orig := particles) in Hloop as (_ & _ & Hrange).
  - apply Hrange; [| exact Hp]. apply lookup_lt_Some in Hp. lia.
  - apply Forall2_same_length_lookup_2; [reflexivity |].
    intros j q q' Hq Hq'. assert (q = q') as -> by congruence. apply same_place_refl.
  - reflexivity.
Qed.

(** C6.  [update] right after the force (fx, fy) has been added to the
    velocity, with time step dt: the position moves by the velocity that
    includes the force and is not yet damped, times dt and the speed; only
    then friction multiplies the velocity by 1 - friction * dt; the boundary
    policy comes last.  In a frame of [animate] that is not paused this is
    what happens to every particle, with dt = 1 and with the force that the
    neighbour loop accumulates from the particles as they were when the
    frame began. *)
Theorem update_order (cfg : Config) (width height : R) :
  (forall p fx fy dt,
     update cfg width height (addForce p fx fy) dt =
     boundary cfg width height
       {| x := x p + (vx p + fx) * dt * speed cfg;
          y := y p + (vy p + fy) * dt * speed cfg;
          vx := (vx p + fx) * (1 - friction cfg * dt);
          vy := (vy p + fy) * (1 - friction cfg * dt);
          type := type p;
          color := color p |}) /\
  (forall rules particles out i p,
     paused cfg = false ->
     animate cfg width height rules particles = inr out ->
     particles !! i = Some p ->
     exists f,
       accumulate cfg width height rules particles i p
         (getNeighbors cfg width height (buildSpatialHash cfg particles) p) (0, 0)
         = inr f /\
       out !! i =
       Some (boundary cfg width height
               {| x := x p + (vx p + f.1) * 1 * speed cfg;
                  y := y p + (vy p + f.2) * 1 * speed cfg;
                  vx := (vx p + f.1) * (1 - friction cfg * 1);
                  vy := (vy p + f.2) * (1 - friction cfg * 1);
                  type := type p;
                  color := color p |})).
Proof.
  split; [intros; apply update_after_force |].
  intros rules particles out i p Hrun Hframe Hp.
  unfold animate in Hframe. rewrite Hrun in Hframe.
  destruct (applyForces cfg width height rules particles) as [e | forced] eqn:Hforces;
    [discriminate |].
  cbn [Js.bind Js.ret] in Hframe. injection Hframe as <-.
  destruct (applyForces_snapshot cfg width height rules particles forced i p Hforces Hp)
    as (f & Hacc & Hforced).
  exists f. split; [exact Hacc |].
  rewrite list_lookup_fmap, Hforced. cbn [fmap option_fmap option_map].
  rewrite update_after_force. reflexivity.
Qed.

(** ** Where the candidates do cover the neighbours *)

(** What [buildSpatialHash] stores: index [j] is in the list of a key exactly
    when particle [j] lies in that cell. *)
Lemma buildFrom_elem cfg ps :
  forall i h key j,
    j ∈ default [] (buildFrom cfg ps i h !! key) <->
    j ∈ default [] (h !! key) \/
    exists q, (i <= j)%nat /\ ps !! (j - i)%nat = Some q /\ cellOf cfg q = key.
Proof.
  induction ps as [| p rest IH]; intros i h key j; cbn [buildFrom].
  - split; [auto |]. intros [H | (q & _ & Hq & _)]; [exact H | discriminate].
  - rewrite IH. destruct (decide (cellOf cfg p = key)) as [<- | Hne].
    + rewrite lookup_insert_eq. cbn [from_option Datatypes.id].
      rewrite elem_of_app, list_elem_of_singleton.
      split.
      * intros [[H | ->] | (q & Hle & Hq & Hkey)].
        -- left. exact H.
        -- right. exists p. rewrite Nat.sub_diag. auto.
        -- right. exists q. split; [lia |]. split; [| exact Hkey].
           replace (j - i)%nat with (S (j - S i)) by lia. exact Hq.
      * intros [H | (q & Hle & Hq & Hkey)]; [auto |].
        destruct (decide (j = i)) as [-> | Hji]; [auto |].
        right. exists q. split; [lia |]. split; [| exact Hkey].
        replace (j - i)%nat with (S (j - S i)) in Hq by lia. exact Hq.
    + rewrite lookup_insert_ne by exact Hne.
      split.
      * intros [H | (q & Hle & Hq & Hkey)]; [auto |].
        right. exists q. split; [lia |]. split; [| exact Hkey].
        replace (j - i)%nat with (S (j - S i)) by lia. exact Hq.
      * intros [H | (q & Hle & Hq & Hkey)]; [auto |].
        destruct (decide (j = i)) as [-> | Hji].
        -- rewrite Nat.sub_diag in Hq. injection Hq as <-. contradiction.
        -- right. exists q. split; [lia |]. split; [| exact Hkey].
           replace (j - i)%nat with (S (j - S i)) in Hq by lia. exact Hq.
Qed.

Lemma buildSpatialHash_elem cfg particles key j :
  j ∈ default [] (buildSpatialHash cfg particles !! key) <->
  exists q, particles !! j = Some q /\ cellOf cfg q = key.
Proof.
  unfold buildSpatialHash. rewrite buildFrom_elem, lookup_empty. cbn [from_option Datatypes.id].
  rewrite Nat.sub_0_r. split.
  - intros [H | (q & _ & Hq)]; [inversion H | eauto].
  - intros (q & Hq). right. exists q. split; [lia | exact Hq].
Qed.

(** The candidates of [getNeighbors]: the particles whose cell is one of the
    nine keys that the two loops form. *)
Lemma getNeighbors_elem cfg width height particles p j :
  In j (getNeighbors cfg width height (buildSpatialHash cfg particles) p) <->
  exists dx dy q,
    In dx offsets /\ In dy offsets /\ particles !! j = Some q /\
    cellOf cfg q = neighborKey cfg width height (cellOf cfg p) dx dy.
Proof.
  unfold getNeighbors. rewrite in_flat_map. split.
  - intros (dx & Hdx & Hin). apply in_flat_map in Hin as (dy & Hdy & Hin).
    apply list_elem_of_In, buildSpatialHash_elem in Hin as (q & Hq & Hkey).
    exists dx, dy, q. auto.
  - intros (dx & dy & q & Hdx & Hdy & Hq & Hkey).
    exists dx. split; [exact Hdx |]. apply in_flat_map.
    exists dy. split; [exact Hdy |].
    apply list_elem_of_In, buildSpatialHash_elem. exists q. auto.
Qed.

Lemma distance_axes a b r : sqrt (a * a + b * b) < r -> Rabs a < r /\ Rabs b < r.
Proof.
  intros Hr.
  assert (0 <= a * a) as Ha by nra. assert (0 <= b * b) as Hb by nra.
  split; eapply Rle_lt_trans; try exact Hr.
  - rewrite <- sqrt_Rsqr_abs. unfold Rsqr. apply sqrt_le_1_alt. lra.
  - rewrite <- sqrt_Rsqr_abs. unfold Rsqr. apply sqrt_le_1_alt. lra.
Qed.

(** Two coordinates that differ by less than a cell, up to [k] whole cells,
    lie in cells whose numbers differ by -1, 0 or 1, up to [k]. *)
Lemma cells_near cs a b k :
  0 < cs -> Rabs (b - a - IZR k * cs) < cs ->
  exists d, In d offsets /\ Zfloor (b / cs) = (Zfloor (a / cs) + d + k)%Z.
Proof.
  intros Hcs Hnear. apply Rabs_def2 in Hnear as [Hhi Hlo].
  assert (a = a / cs * cs) as Ha by (field; lra).
  assert (b = b / cs * cs) as Hb by (field; lra).
  pose proof (Zfloor_bound (a / cs)) as [Ha1 Ha2].
  pose proof (Zfloor_bound (b / cs)) as [Hb1 Hb2].
  set (u := a / cs) in *. set (v := b / cs) in *.
  assert (-1 < v - u - IZR k < 1) as [Hd1 Hd2] by (split; nra).
  assert (-2 < Zfloor v - Zfloor u - k < 2)%Z as Hdiff.
  { split; apply lt_IZR; rewrite !minus_IZR; lra. }
  exists (Zfloor v - Zfloor u - k)%Z. split; [| lia].
  unfold offsets.
  assert (Zfloor v - Zfloor u - k = -1 \/ Zfloor v - Zfloor u - k = 0 \/
          Zfloor v - Zfloor u - k = 1)%Z as [-> | [-> | ->]] by lia;
    simpl; auto.
Qed.

(** Bounce mode: every particle closer than the interaction radius is among
    the candidates. *)
Lemma neighbors_cover_bounce cfg width height particles p q j :
  wrap cfg = false ->
  0 < interactionRadius cfg ->
  particles !! j = Some q ->
  distance cfg width height p q < interactionRadius cfg ->
  In j (getNeighbors cfg width height (buildSpatialHash cfg particles) p).
Proof.
  intros Hwrap Hradius Hq Hdist.
  rewrite distance_eq in Hdist. unfold separation in Hdist. rewrite Hwrap in Hdist.
  cbn [fst snd] in Hdist. apply distance_axes in Hdist as [Hx Hy].
  destruct (cells_near (cellSize cfg) (x p) (x q) 0 Hradius) as (dx & Hdx & Hcx).
  { rewrite Rmult_0_l, Rminus_0_r. exact Hx. }
  destruct (cells_near (cellSize cfg) (y p) (y q) 0 Hradius) as (dy & Hdy & Hcy).
  { rewrite Rmult_0_l, Rminus_0_r. exact Hy. }
  apply getNeighbors_elem. exists dx, dy, q.
  split; [exact Hdx |]. split; [exact Hdy |]. split; [exact Hq |].
  unfold neighborKey, cellOf. rewrite Hwrap. cbn [fst snd].
  rewrite Hcx, Hcy, !Z.add_0_r. reflexivity.
Qed.

Lemma Zfloor_in_grid cs a n :
  0 < cs -> 0 <= a < IZR n * cs -> (0 <= Zfloor (a / cs) < n)%Z.
Proof.
  intros Hcs [Ha1 Ha2].
  assert (a = a / cs * cs) as Ha by (field; lra).
  pose proof (Zfloor_bound (a / cs)) as [Hf1 Hf2].
  set (u := a / cs) in *.
  assert (0 <= u < IZR n) as [Hu1 Hu2] by (split; nra).
  split; [apply Zfloor_lub; exact Hu1 |].
  apply lt_IZR. lra.
Qed.

(** Goes through the three offsets and the branches of [wrap_cell]. *)
Ltac wrap_cell_cases Hd :=
  unfold offsets in Hd; simpl in Hd; unfold wrap_cell;
  destruct Hd as [<- | [<- | [<- | []]]];
  repeat match goal with
  | |- context [(?u <? ?v)%Z] => destruct (Z.ltb_spec u v)
  | |- context [(?u >=? ?v)%Z] => destruct (Z.geb_spec u v)
  end; lia.

(** One axis of wrap mode on a canvas of [n] whole cells: if the folded
    separation is within a cell, the cell of [b] is the wrapped cell of [a]
    shifted by -1, 0 or 1. *)
Lemma wrapped_cells_near cs n a b :
  0 < cs -> (1 <= n)%Z ->
  0 <= a < IZR n * cs -> 0 <= b < IZR n * cs ->
  Rabs (wrap_delta (IZR n * cs) (b - a)) < cs ->
  exists d, In d offsets /\ Zfloor (b / cs) = wrap_cell n (Zfloor (a / cs) + d).
Proof.
  intros Hcs Hn Ha Hb Hnear.
  pose proof (Zfloor_in_grid cs a n Hcs Ha) as Hca.
  pose proof (Zfloor_in_grid cs b n Hcs Hb) as Hcb.
  unfold wrap_delta in Hnear.
  destruct (b - a >? IZR n * cs / 2) eqn:E1;
    [apply gt_true in E1 | apply gt_false in E1].
  - destruct (_ <? _) eqn:E2 in Hnear; [apply lt_true in E2; lra |].
    destruct (cells_near cs a b n Hcs Hnear) as (d & Hd & Hcell).
    exists d. split; [exact Hd | wrap_cell_cases Hd].
  - destruct (_ <? _) eqn:E2 in Hnear; [apply lt_true in E2 | apply lt_false in E2].
    + destruct (cells_near cs a b (- n) Hcs) as (d & Hd & Hcell).
      { rewrite opp_IZR.
        replace (b - a - - IZR n * cs) with (b - a + IZR n * cs) by lra. exact Hnear. }
      exists d. split; [exact Hd | wrap_cell_cases Hd].
    + destruct (cells_near cs a b 0 Hcs) as (d & Hd & Hcell).
      { rewrite Rmult_0_l, Rminus_0_r. exact Hnear. }
      exists d. split; [exact Hd | wrap_cell_cases Hd].
Qed.

Lemma maxCell_whole cs n : 0 < cs -> Zceil (IZR n * cs / cs) = n.
Proof.
  intros Hcs. replace (IZR n * cs / cs) with (IZR n) by (field; lra).
  apply Zceil_eq. lra.
Qed.

(** Wrap mode on a canvas that is a whole number of cells wide and high:
    every particle of the domain whose folded distance from [p] is less than
    the interaction radius is among the candidates of [p]. *)
Lemma neighbors_cover_wrap cfg nx ny particles p q j :
  wrap cfg = true ->
  0 < interactionRadius cfg ->
  (1 <= nx)%Z -> (1 <= ny)%Z ->
  0 <= x p < IZR nx * cellSize cfg -> 0 <= y p < IZR ny * cellSize cfg ->
  0 <= x q < IZR nx * cellSize cfg -> 0 <= y q < IZR ny * cellSize cfg ->
  particles !! j = Some q ->
  distance cfg (IZR nx * cellSize cfg) (IZR ny * cellSize cfg) p q
    < interactionRadius cfg ->
  In j (getNeighbors cfg (IZR nx * cellSize cfg) (IZR ny * cellSize cfg)
          (buildSpatialHash cfg particles) p).
Proof.
  intros Hwrap Hradius Hnx Hny Hpx Hpy Hqx Hqy Hq Hdist.
  rewrite distance_eq in Hdist. unfold separation in Hdist. rewrite Hwrap in Hdist.
  cbn [fst snd] in Hdist. apply distance_axes in Hdist as [Hx Hy].
  destruct (wrapped_cells_near (cellSize cfg) nx (x p) (x q) Hradius Hnx Hpx Hqx Hx)
    as (dx & Hdx & Hcx).
  destruct (wrapped_cells_near (cellSize cfg) ny (y p) (y q) Hradius Hny Hpy Hqy Hy)
    as (dy & Hdy & Hcy).
  apply getNeighbors_elem. exists dx, dy, q.
  split; [exact Hdx |]. split; [exact Hdy |]. split; [exact Hq |].
  unfold neighborKey, cellOf, maxCellX, maxCellY. rewrite Hwrap. cbn [fst snd].
  rewrite !(maxCell_whole (cellSize cfg)) by exact Hradius.
  rewrite Hcx, Hcy. reflexivity.
Qed.

(** * Further properties of the code *)

(** ** The buckets of the spatial hash *)

Lemma filter_seq_iff (P Q : nat -> Prop)
    `{!forall j, Decision (P j), !forall j, Decision (Q j)} n :
  forall a, (forall j, (a <= j)%nat -> P j <-> Q j) ->
  filter P (seq a n) = filter Q (seq a n).
Proof.
  induction n as [| n IH]; intros a Hiff; [reflexivity |]. cbn [seq].
  rewrite !filter_cons, (IH (S a)) by (intros j Hj; apply Hiff; lia).
  destruct (decide (P a)) as [HP | HP], (decide (Q a)) as [HQ | HQ];
    try reflexivity; exfalso; specialize (Hiff a (le_n a)); tauto.
Qed.

Lemma buildFrom_bucket cfg ps :
  forall i h key,
    default [] (buildFrom cfg ps i h !! key) =
    default [] (h !! key) ++
    filter (fun j => cellOf cfg <$> ps !! (j - i)%nat = Some key) (seq i (length ps)).
Proof.
  induction ps as [| p rest IH]; intros i h key; cbn [buildFrom length seq].
  - rewrite filter_nil, app_nil_r. reflexivity.
  - rewrite IH. rewrite filter_cons.
    rewrite (filter_seq_iff
               (fun j => cellOf cfg <$> (p :: rest) !! (j - i)%nat = Some key)
               (fun j => cellOf cfg <$> rest !! (j - S i)%nat = Some key)).
    2: { intros j Hj. replace (j - i)%nat with (S (j - S i)) by lia. reflexivity. }

    rewrite Nat.sub_diag. cbn [lookup list_lookup fmap option_fmap option_map].
    destruct (decide (cellOf cfg p = key)) as [<- | Hne].
    + rewrite lookup_insert_eq. cbn [from_option Datatypes.id].
      rewrite decide_True by reflexivity. rewrite <- app_assoc. reflexivity.
    + rewrite lookup_insert_ne by exact Hne.
      rewrite decide_False by congruence. reflexivity.
Qed.

Lemma buildFrom_nonempty cfg ps :
  forall i h,
    (forall key, h !! key <> Some []) ->
    forall key, buildFrom cfg ps i h !! key <> Some [].
Proof.
  induction ps as [| p rest IH]; intros i h Hh key; cbn [buildFrom]; [apply Hh |].
  apply IH. intros key'. destruct (decide (cellOf cfg p = key')) as [<- | Hne].
  - rewrite lookup_insert_eq. intros Heq.
    apply (f_equal (fmap length)) in Heq. simpl in Heq.
    rewrite length_app in Heq. simpl in Heq. injection Heq. lia.
  - rewrite lookup_insert_ne by exact Hne. apply Hh.
Qed.

(** X1.  The bucket that [buildSpatialHash] stores under a key is the list,
    in increasing order and without repetition, of the indices of the
    particles that lie in that cell; a key with no particle has no bucket,
    so no stored bucket is empty. *)
Theorem hash_buckets (cfg : Config) (particles : list Particle) (key : Z * Z) :
  default [] (buildSpatialHash cfg particles !! key) =
    filter (fun j => cellOf cfg <$> particles !! j = Some key)
      (seq 0 (length particles)) /\
  buildSpatialHash cfg particles !! key <> Some [] /\
  NoDup (default [] (buildSpatialHash cfg particles !! key)).
Proof.
  assert (default [] (buildSpatialHash cfg particles !! key) =
          filter (fun j => cellOf cfg <$> particles !! j = Some key)
            (seq 0 (length particles))) as Hbucket.
  { unfold buildSpatialHash. rewrite buildFrom_bucket, lookup_empty.
    cbn [from_option app]. apply filter_seq_iff.
    intros j _. rewrite Nat.sub_0_r. split; intros H; exact H. }
  split; [exact Hbucket |]. split.
  - unfold buildSpatialHash. apply buildFrom_nonempty.
    intros key'. rewrite lookup_empty. discriminate.
  - rewrite Hbucket. apply NoDup_filter, NoDup_seq.
Qed.

(** ** The candidates of the neighbour query *)

Lemma cells_apart cs a b d :
  0 < cs -> In d offsets -> Zfloor (b / cs) = (Zfloor (a / cs) + d)%Z ->
  Rabs (b - a) < 2 * cs.
Proof.
  intros Hcs Hd Hcell.
  assert (-1 <= IZR d <= 1) as Hrange.
  { unfold offsets in Hd. simpl in Hd.
    destruct Hd as [<- | [<- | [<- | []]]]; simpl; lra. }
  assert (a = a / cs * cs) as Ha by (field; lra).
  assert (b = b / cs * cs) as Hb by (field; lra).
  pose proof (Zfloor_bound (a / cs)) as [Ha1 Ha2].
  pose proof (Zfloor_bound (b / cs)) as [Hb1 Hb2].
  rewrite Hcell, plus_IZR in Hb1, Hb2.
  set (u := a / cs) in *. set (v := b / cs) in *.
  assert (-2 < v - u < 2) as [Hd1 Hd2] by lra.
  apply Rabs_def1; nra.
Qed.

(** X2.  Bounce mode, wherever the particles are: every particle closer to
    [p] than the interaction radius is among the candidates of [p], and
    every candidate is less than two cells away from [p] on each axis. *)
Theorem bounce_candidates (cfg : Config) (width height : R)
    (particles : list Particle) (p q : Particle) (j : nat) :
  wrap cfg = false ->
  0 < interactionRadius cfg ->
  particles !! j = Some q ->
  (distance cfg width height p q < interactionRadius cfg ->
   In j (getNeighbors cfg width height (buildSpatialHash cfg particles) p)) /\
  (In j (getNeighbors cfg width height (buildSpatialHash cfg particles) p) ->
   Rabs (x q - x p) < 2 * cellSize cfg /\ Rabs (y q - y p) < 2 * cellSize cfg).
Proof.
  intros Hwrap Hradius Hq. split.
  - intros Hdist.
    exact (neighbors_cover_bounce cfg width height particles p q j Hwrap Hradius Hq Hdist).
  - intros Hin. apply getNeighbors_elem in Hin as (dx & dy & q' & Hdx & Hdy & Hq' & Hkey).
    assert (q' = q) as -> by congruence.
    unfold neighborKey, cellOf in Hkey. rewrite Hwrap in Hkey. cbn [fst snd] in Hkey.
    injection Hkey as Hx Hy.
    split.
    + exact (cells_apart (cellSize cfg) (x p) (x q) dx Hradius Hdx Hx).
    + exact (cells_apart (cellSize cfg) (y p) (y q) dy Hradius Hdy Hy).
Qed.

Lemma bounce_candidates_witness :
  In 1%nat (getNeighbors bounceCONFIG 1000 800
              (buildSpatialHash bounceCONFIG [scenarioP; scenarioQ]) scenarioP).
Proof.
  apply (bounce_candidates bounceCONFIG 1000 800 [scenarioP; scenarioQ]
           scenarioP scenarioQ 1).
  - reflexivity.
  - simpl. lra.
  - reflexivity.
  - rewrite distance_eq. unfold separation. simpl.
    rewrite (sqrt_axis (150 - 100) (100 - 100) 50) by lra. lra.
Defined.

(** X3.  Wrap mode on a canvas that is a whole number of cells wide and
    high: every particle of the canvas whose folded distance from [p] is less
    than the interaction radius is among the candidates of [p]. *)
Theorem wrap_candidates (cfg : Config) (nx ny : Z) (particles : list Particle)
    (p q : Particle) (j : nat) :
  wrap cfg = true ->
  0 < interactionRadius cfg ->
  (1 <= nx)%Z -> (1 <= ny)%Z ->
  in_canvas (IZR nx * cellSize cfg) (IZR ny * cellSize cfg) p ->
  in_canvas (IZR nx * cellSize cfg) (IZR ny * cellSize cfg) q ->
  particles !! j = Some q ->
  distance cfg (IZR nx * cellSize cfg) (IZR ny * cellSize cfg) p q
    < interactionRadius cfg ->
  In j (getNeighbors cfg (IZR nx * cellSize cfg) (IZR ny * cellSize cfg)
          (buildSpatialHash cfg particles) p).
Proof.
  intros Hwrap Hradius Hnx Hny [Hpx Hpy] [Hqx Hqy] Hq Hdist.
  exact (neighbors_cover_wrap cfg nx ny particles p q j
           Hwrap Hradius Hnx Hny Hpx Hpy Hqx Hqy Hq Hdist).
Qed.

Lemma wrap_candidates_witness :
  In 1%nat (getNeighbors CONFIG (IZR 12 * cellSize CONFIG) (IZR 10 * cellSize CONFIG)
              (buildSpatialHash CONFIG [seamP; seamQ]) seamP).
Proof.
  apply (wrap_candidates CONFIG 12 10 [seamP; seamQ] seamP seamQ 1);
    try reflexivity; try lia; unfold in_canvas, cellSize; simpl; try lra.
  rewrite distance_eq. unfold separation, wrap_delta. simpl.
  decide_cmp.
  rewrite (sqrt_axis (955 - 5 - 12 * 80) (5 - 5) 10) by lra. lra.
Defined.

Lemma cell_in_grid cs extent a :
  0 < cs -> 0 <= a < extent -> (0 <= Zfloor (a / cs) < Zceil (extent / cs))%Z.
Proof.
  intros Hcs [Ha1 Ha2].
  assert (0 < / cs) as Hinv by (apply Rinv_0_lt_compat; exact Hcs).
  pose proof (Zfloor_bound (a / cs)) as [Hf1 Hf2].
  pose proof (Zceil_bound (extent / cs)) as [Hc1 Hc2].
  assert (0 <= a / cs) as Hq1 by (unfold Rdiv; nra).
  assert (a / cs < extent / cs) as Hq2 by (unfold Rdiv; nra).
  split; [apply Zfloor_lub; exact Hq1 |].
  apply lt_IZR. lra.
Qed.

Lemma wrap_cell_fixed maxCell n : (0 <= n < maxCell)%Z -> wrap_cell maxCell n = n.
Proof.
  intros Hn. unfold wrap_cell.
  destruct (Z.ltb_spec n 0); [lia |]. destruct (Z.geb_spec n maxCell); lia.
Qed.

Lemma neighborKey_center cfg width height p :
  wrap cfg = false \/ (0 < interactionRadius cfg /\ in_canvas width height p) ->
  neighborKey cfg width height (cellOf cfg p) 0 0 = cellOf cfg p.
Proof.
  intros Hmode. unfold neighborKey. rewrite !Z.add_0_r.
  destruct (wrap cfg); [| destruct (cellOf cfg p); reflexivity].
  destruct Hmode as [Hfalse | (Hcs & Hx & Hy)]; [discriminate |].
  unfold cellOf, maxCellX, maxCellY. cbn [fst snd].
  rewrite !wrap_cell_fixed by (apply cell_in_grid; assumption). reflexivity.
Qed.

(** X4.  Every candidate of [getNeighbors] is the index of a particle, so
    [particles[j]] is never [undefined] in the neighbour loop; and a particle
    is a candidate of itself, in bounce mode always and in wrap mode when it
    lies in the canvas, which is why the loop skips [i === j]. *)
Theorem candidates_sound (cfg : Config) (width height : R) (particles : list Particle) :
  (forall p j,
     In j (getNeighbors cfg width height (buildSpatialHash cfg particles) p) ->
     is_Some (particles !! j)) /\
  (forall i p,
     particles !! i = Some p ->
     wrap cfg = false \/ (0 < interactionRadius cfg /\ in_canvas width height p) ->
     In i (getNeighbors cfg width height (buildSpatialHash cfg particles) p)).
Proof.
  split.
  - intros p j Hin. apply getNeighbors_elem in Hin as (dx & dy & q & _ & _ & Hq & _).
    exists q. exact Hq.
  - intros i p Hp Hmode. apply getNeighbors_elem.
    exists 0%Z, 0%Z, p. unfold offsets. simpl.
    split; [auto |]. split; [auto |]. split; [exact Hp |].
    symmetry. apply neighborKey_center, Hmode.
Qed.

Lemma candidates_sound_witness :
  In 0%nat (getNeighbors CONFIG 1000 800 (buildSpatialHash CONFIG [seamP; seamQ]) seamP).
Proof.
  apply (proj2 (candidates_sound CONFIG 1000 800 [seamP; seamQ]) 0%nat seamP).
  - reflexivity.
  - right. unfold in_canvas. simpl. lra.
Defined.

Lemma flat_map_bind {A B} (f : A -> list B) (l : list A) : flat_map f l = l ≫= f.
Proof. induction l as [| a l IH]; [reflexivity |]. cbn. rewrite IH. reflexivity. Qed.

Lemma bucket_NoDup cfg particles key :
  NoDup (default [] (buildSpatialHash cfg particles !! key)).
Proof.
  unfold buildSpatialHash. rewrite buildFrom_bucket, lookup_empty.
  cbn [from_option app]. apply NoDup_filter, NoDup_seq.
Qed.

Lemma bucket_key cfg particles key1 key2 j :
  j ∈ default [] (buildSpatialHash cfg particles !! key1) ->
  j ∈ default [] (buildSpatialHash cfg particles !! key2) ->
  key1 = key2.
Proof.
  intros (q1 & Hq1 & <-)%buildSpatialHash_elem (q2 & Hq2 & <-)%buildSpatialHash_elem.
  congruence.
Qed.

Lemma offsets_NoDup : NoDup offsets.
Proof.
  unfold offsets. rewrite !NoDup_cons, !not_elem_of_cons.
  repeat split; try lia; try apply not_elem_of_nil. apply NoDup_nil_2.
Qed.

Lemma wrap_cell_inj maxCell c d1 d2 :
  (3 <= maxCell)%Z -> (0 <= c < maxCell)%Z ->
  d1 ∈ offsets -> d2 ∈ offsets ->
  wrap_cell maxCell (c + d1) = wrap_cell maxCell (c + d2) -> d1 = d2.
Proof.
  intros Hmax Hc Hd1%list_elem_of_In Hd2%list_elem_of_In.
  unfold offsets in Hd1, Hd2. simpl in Hd1, Hd2. unfold wrap_cell.
  destruct Hd1 as [<- | [<- | [<- | []]]]; destruct Hd2 as [<- | [<- | [<- | []]]];
    repeat match goal with
    | |- context [(?u <? ?v)%Z] => destruct (Z.ltb_spec u v)
    | |- context [(?u >=? ?v)%Z] => destruct (Z.geb_spec u v)
    end; lia.
Qed.

Lemma neighborKey_inj cfg width height cell dx1 dy1 dx2 dy2 :
  wrap cfg = false \/
  ((3 <= maxCellX cfg width)%Z /\ (3 <= maxCellY cfg height)%Z /\
   (0 <= cell.1 < maxCellX cfg width)%Z /\ (0 <= cell.2 < maxCellY cfg height)%Z) ->
  dx1 ∈ offsets -> dx2 ∈ offsets -> dy1 ∈ offsets -> dy2 ∈ offsets ->
  neighborKey cfg width height cell dx1 dy1 = neighborKey cfg width height cell dx2 dy2 ->
  dx1 = dx2 /\ dy1 = dy2.
Proof.
  intros Hmode Hdx1 Hdx2 Hdy1 Hdy2. unfold neighborKey.
  destruct (wrap cfg).
  - destruct Hmode as [Hfalse | (HX & HY & Hcx & Hcy)]; [discriminate |].
    intros [= Hx Hy]. split.
    + exact (wrap_cell_inj _ _ _ _ HX Hcx Hdx1 Hdx2 Hx).
    + exact (wrap_cell_inj _ _ _ _ HY Hcy Hdy1 Hdy2 Hy).
  - intros [= Hx Hy]. lia.
Qed.

(** The nine keys of a query are distinct and the buckets are disjoint. *)
Lemma getNeighbors_NoDup cfg width height particles p :
  wrap cfg = false \/
  (0 < interactionRadius cfg /\ in_canvas width height p /\
   (3 <= maxCellX cfg width)%Z /\ (3 <= maxCellY cfg height)%Z) ->
  NoDup (getNeighbors cfg width height (buildSpatialHash cfg particles) p).
Proof.
  intros Hmode.
  assert (wrap cfg = false \/
          ((3 <= maxCellX cfg width)%Z /\ (3 <= maxCellY cfg height)%Z /\
           (0 <= (cellOf cfg p).1 < maxCellX cfg width)%Z /\
           (0 <= (cellOf cfg p).2 < maxCellY cfg height)%Z)) as Hgrid.
  { destruct Hmode as [Hfalse | (Hcs & [Hx Hy] & HX & HY)]; [left; exact Hfalse |].
    right. split; [exact HX |]. split; [exact HY |].
    unfold cellOf, maxCellX, maxCellY. cbn [fst snd].
    split; apply cell_in_grid; assumption. }
  unfold getNeighbors. rewrite flat_map_bind.
  apply NoDup_bind.
  - intros dx1 dx2 j Hdx1 Hdx2 Hj1 Hj2.
    rewrite flat_map_bind in Hj1, Hj2.
    apply list_elem_of_bind in Hj1 as (dy1 & Hj1 & Hdy1).
    apply list_elem_of_bind in Hj2 as (dy2 & Hj2 & Hdy2).
    pose proof (bucket_key cfg particles _ _ j Hj1 Hj2) as Hkey.
    exact (proj1 (neighborKey_inj cfg width height _ _ _ _ _
                    Hgrid Hdx1 Hdx2 Hdy1 Hdy2 Hkey)).
  - intros dx Hdx. rewrite flat_map_bind. apply NoDup_bind.
    + intros dy1 dy2 j Hdy1 Hdy2 Hj1 Hj2.
      pose proof (bucket_key cfg particles _ _ j Hj1 Hj2) as Hkey.
      exact (proj2 (neighborKey_inj cfg width height _ _ _ _ _
                      Hgrid Hdx Hdx Hdy1 Hdy2 Hkey)).
    + intros dy _. apply bucket_NoDup.
    + exact offsets_NoDup.
  - exact offsets_NoDup.
Qed.

(** X5.  No candidate is listed twice, so no pair is counted twice in the
    force sum: in bounce mode always, and in wrap mode for a particle of the
    canvas when the grid has at least three cells in each direction (on a
    narrower canvas the wrapped keys coincide). *)
Theorem candidates_nodup (cfg : Config) (width height : R)
    (particles : list Particle) (p : Particle) :
  wrap cfg = false \/
  (0 < interactionRadius cfg /\ in_canvas width height p /\
   (3 <= maxCellX cfg width)%Z /\ (3 <= maxCellY cfg height)%Z) ->
  NoDup (getNeighbors cfg width height (buildSpatialHash cfg particles) p).
Proof. apply getNeighbors_NoDup. Qed.

Lemma candidates_nodup_witness :
  NoDup (getNeighbors CONFIG 1000 800 (buildSpatialHash CONFIG [seamP; seamQ]) seamP).
Proof.
  apply candidates_nodup. right.
  rewrite seam_maxCellX, seam_maxCellY. unfold in_canvas. simpl.
  repeat split; try lra; lia.
Defined.

(** ** A frame never throws on a well-formed state *)

Lemma matrix_ok_square n m : matrix_ok n m -> square n m.
Proof.
  intros [Hlen Hrows]. split; [exact Hlen |].
  apply (Forall_impl _ _ _ Hrows). intros row [Hrow _]. exact Hrow.
Qed.

Lemma pairForce_total cfg width height rules n p other :
  square n (matrix rules) -> (type p < n)%nat -> (type other < n)%nat ->
  exists c, pairForce cfg width height rules p other = inr c.
Proof.
  intros [Hlen Hrows] Hp Hother.
  pose proof (distance_nonneg cfg width height p other) as Hnn.
  destruct (Rle_dec (interactionRadius cfg) (distance cfg width height p other))
    as [Hfar | Hnear].
  { exists None. apply pairForce_idle. right. exact Hfar. }
  destruct (Req_dec_T (distance cfg width height p other) 0) as [Hzero | Hpos].
  { exists None. apply pairForce_idle. left. exact Hzero. }
  destruct (lookup_lt_is_Some_2 (matrix rules) (type p)) as [row Hrow]; [lia |].
  pose proof (proj1 (Forall_lookup _ _) Hrows _ _ Hrow) as Hrowlen.
  cbn beta in Hrowlen.
  destruct (lookup_lt_is_Some_2 row (type other)) as [s Hs]; [lia |].
  rewrite (pairForce_active cfg width height rules p other row) by (lra || exact Hrow).
  rewrite Hs.
  destruct (Rlt_dec (distance cfg width height p other) (minDist cfg)) as [Hclose | Hzone].
  - rewrite forceAt_repulsion by lra. eexists. reflexivity.
  - rewrite forceAt_interaction by lra. eexists. reflexivity.
Qed.

Lemma accumulate_total cfg width height rules n particles i p :
  square n (matrix rules) -> typed n particles -> (type p < n)%nat ->
  forall neighbors f,
    Forall (fun j => is_Some (particles !! j)) neighbors ->
    exists f', accumulate cfg width height rules particles i p neighbors f = inr f'.
Proof.
  intros Hm Htyped Hp. induction neighbors as [| j rest IH]; intros f Hvalid.
  - exists f. reflexivity.
  - apply Forall_cons in Hvalid as [[other Hother] Hrest].
    cbn [accumulate]. destruct (i =? j)%nat; [apply IH, Hrest |].
    unfold Js.get. rewrite Hother.
    destruct (pairForce_total cfg width height rules n p other Hm Hp) as [c ->].
    { exact (proj1 (Forall_lookup _ _) Htyped _ _ Hother). }
    cbn [Js.bind]. apply IH, Hrest.
Qed.

Lemma candidates_valid cfg width height particles p :
  Forall (fun j => is_Some (particles !! j))
    (getNeighbors cfg width height (buildSpatialHash cfg particles) p).
Proof.
  apply Forall_forall. intros j Hin.
  apply list_elem_of_In, getNeighbors_elem in Hin as (dx & dy & q & _ & _ & Hq & _).
  exists q. exact Hq.
Qed.

Lemma forceLoop_total cfg width height rules nt orig :
  square nt (matrix rules) -> typed nt orig ->
  forall n a cur,
    Forall2 same_place cur orig ->
    (forall j, (a <= j)%nat -> cur !! j = orig !! j) ->
    (a + n <= length orig)%nat ->
    exists out,
      forceLoop cfg width height rules (buildSpatialHash cfg orig) (seq a n) cur = inr out.
Proof.
  intros Hm Htyped. induction n as [| n IH]; intros a cur Hsame Htail Hlen.
  - exists cur. reflexivity.
  - cbn [seq forceLoop]. unfold forceOn, Js.get. rewrite (Htail a) by lia.
    destruct (lookup_lt_is_Some_2 orig a) as [pa Hpa]; [lia |]. rewrite Hpa.
    rewrite (accumulate_same_place cfg width height rules cur orig a pa Hsame).
    destruct (accumulate_total cfg width height rules nt orig a pa Hm Htyped
                (proj1 (Forall_lookup _ _) Htyped _ _ Hpa)
                (getNeighbors cfg width height (buildSpatialHash cfg orig) pa) (0, 0)
                (candidates_valid cfg width height orig pa)) as [f ->].
    cbn [Js.bind Js.ret]. apply IH.
    + rewrite <- (list_insert_id orig a pa Hpa).
      apply Forall2_insert; [exact Hsame | apply addForce_same_place].
    + intros j Hj. rewrite list_lookup_insert_ne by lia. apply Htail. lia.
    + lia.
Qed.

Lemma Forall2_same_place_refl particles : Forall2 same_place particles particles.
Proof.
  apply Forall2_same_length_lookup_2; [reflexivity |].
  intros j q q' Hq Hq'. assert (q = q') as -> by congruence. apply same_place_refl.
Qed.

Lemma applyForces_same_place cfg width height rules particles out :
  applyForces cfg width height rules particles = inr out ->
  Forall2 same_place out particles.
Proof.
  unfold applyForces. intros Hloop.
  apply forceLoop_snapshot with (orig := particles) in Hloop as (Hsame & _).
  - exact Hsame.
  - apply Forall2_same_place_refl.
  - reflexivity.
Qed.

Lemma same_place_typed n out particles :
  Forall2 same_place out particles -> typed n particles -> typed n out.
Proof.
  unfold typed. intros Hsame Htyped.
  apply Forall_forall. intros q Hq.
  apply list_elem_of_lookup in Hq as [j Hj].
  destruct (Forall2_lookup_l _ _ _ _ _ Hsame Hj) as (p & Hp & _ & _ & Htype).
  rewrite Htype. exact (proj1 (Forall_lookup _ _) Htyped _ _ Hp).
Qed.

Lemma animate_total cfg width height rules n particles :
  square n (matrix rules) -> typed n particles ->
  exists out,
    animate cfg width height rules particles = inr out /\
    typed n out /\ length out = length particles.
Proof.
  intros Hm Htyped. unfold animate.
  destruct (paused cfg); [exists particles; auto |].
  destruct (forceLoop_total cfg width height rules n particles Hm Htyped
              (length particles) 0%nat particles
              (Forall2_same_place_refl particles) (fun _ _ => eq_refl) (le_n _))
    as [forced Hforced].
  fold (applyForces cfg width height rules particles) in Hforced.
  rewrite Hforced. cbn [Js.bind Js.ret].
  pose proof (applyForces_same_place _ _ _ _ _ _ Hforced) as Hsame.
  eexists. split; [reflexivity |]. split.
  - unfold typed. apply Forall_map.
    apply (Forall_impl _ _ _ (same_place_typed n _ _ Hsame Htyped)).
    intros q Hq. unfold update, boundary.
    destruct (wrap cfg); [exact Hq |].
    cbn [integrate x y vx vy].
    destruct (bounce_axis _ _ _), (bounce_axis _ _ _). exact Hq.
  - rewrite length_map. exact (Forall2_length _ _ _ Hsame).
Qed.

(** X7.  [applyForces] changes velocities only: it returns as many
    particles, each at its old position and of its old type. *)
Theorem applyForces_keeps_places (cfg : Config) (width height : R) (rules : Rules)
    (particles out : list Particle) :
  applyForces cfg width height rules particles = inr out ->
  length out = length particles /\
  forall i p, particles !! i = Some p ->
    exists q, out !! i = Some q /\ x q = x p /\ y q = y p /\ type q = type p.
Proof.
  intros Hforces.
  pose proof (applyForces_same_place _ _ _ _ _ _ Hforces) as Hsame.
  split; [exact (Forall2_length _ _ _ Hsame) |].
  intros i p Hp.
  destruct (Forall2_lookup_r _ _ _ _ _ Hsame Hp) as (q & Hq & Hplace).
  exists q. split; [exact Hq | exact Hplace].
Qed.

Lemma scenarioRules_ok : matrix_ok 6 (matrix scenarioRules).
Proof.
  split; [reflexivity |].
  repeat (apply Forall_cons; split;
          [split; [reflexivity |];
           repeat (apply Forall_cons; split; [unfold in_range; lra |]);
           apply Forall_nil_2 |]).
  apply Forall_nil_2.
Qed.

Lemma seam_typed : typed 6 [seamP; seamQ].
Proof. unfold typed. repeat (apply Forall_cons; split; [simpl; lia |]). apply Forall_nil_2. Qed.

Lemma applyForces_keeps_places_witness :
  length [addForce seamP 0 0; addForce seamQ 0 0] = length [seamP; seamQ] /\
  forall i p, [seamP; seamQ] !! i = Some p ->
    exists q, [addForce seamP 0 0; addForce seamQ 0 0] !! i = Some q /\
              x q = x p /\ y q = y p /\ type q = type p.
Proof.
  exact (applyForces_keeps_places CONFIG 1000 800 scenarioRules _ _ seam_applyForces).
Defined.

(** ** The separation and the force of a pair *)

Lemma wrap_delta_opp extent d :
  0 <= extent -> wrap_delta extent (- d) = - wrap_delta extent d.
Proof. intros Hext. unfold wrap_delta. cmp; lra. Qed.

Lemma separation_opp cfg width height p q :
  wrap cfg = false \/ (0 <= width /\ 0 <= height) ->
  separation cfg width height q p =
  (- (separation cfg width height p q).1, - (separation cfg width height p q).2).
Proof.
  intros Hmode. unfold separation. destruct (wrap cfg); cbn [fst snd].
  - destruct Hmode as [Hfalse | [Hw Hh]]; [discriminate |].
    rewrite <- !wrap_delta_opp by assumption.
    f_equal; f_equal; lra.
  - f_equal; lra.
Qed.

Lemma distance_sym cfg width height p q :
  wrap cfg = false \/ (0 <= width /\ 0 <= height) ->
  distance cfg width height q p = distance cfg width height p q.
Proof.
  intros Hmode. rewrite !distance_eq, (separation_opp cfg width height p q Hmode).
  cbn [fst snd]. f_equal. ring.
Qed.

Lemma pairForce_some_active cfg width height rules p q g :
  pairForce cfg width height rules p q = inr (Some g) ->
  0 < distance cfg width height p q < interactionRadius cfg.
Proof.
  intros Hg. pose proof (distance_nonneg cfg width height p q) as Hnn.
  destruct (Rle_dec (interactionRadius cfg) (distance cfg width height p q)) as [Hfar |].
  { rewrite pairForce_idle in Hg by (right; exact Hfar). discriminate. }
  destruct (Req_dec_T (distance cfg width height p q) 0) as [Hzero |]; [| lra].
  rewrite pairForce_idle in Hg by (left; exact Hzero). discriminate.
Qed.

(** With the same strength in both orders the force law gives opposite
    vectors to the two particles of a pair. *)
Lemma pairForce_opposite (cfg : Config) (width height : R) (rules : Rules)
    (p q : Particle) (s : R) (g : R * R) :
  wrap cfg = false \/ (0 <= width /\ 0 <= height) ->
  entry (matrix rules) (type p) (type q) = Some s ->
  entry (matrix rules) (type q) (type p) = Some s ->
  pairForce cfg width height rules p q = inr (Some g) ->
  pairForce cfg width height rules q p = inr (Some (- g.1, - g.2)).
Proof.
  intros Hmode Hpq Hqp Hg.
  pose proof (pairForce_some_active _ _ _ _ _ _ _ Hg) as Hactive.
  unfold entry in Hpq, Hqp.
  destruct (matrix rules !! type p) as [rowp |] eqn:Hrowp; [| discriminate].
  destruct (matrix rules !! type q) as [rowq |] eqn:Hrowq; [| discriminate].
  cbn in Hpq, Hqp.
  rewrite (pairForce_active cfg width height rules p q rowp Hactive Hrowp), Hpq in Hg.
  rewrite (pairForce_active cfg width height rules q p rowq);
    [| rewrite distance_sym by assumption; exact Hactive | exact Hrowq].
  rewrite Hqp, (distance_sym cfg width height p q Hmode),
    (separation_opp cfg width height p q Hmode).
  destruct (forceAt cfg (Some s) (distance cfg width height p q)) as [e | force];
    [discriminate |].
  cbn [Js.bind fst snd] in *. injection Hg as <-. cbn [fst snd].
  f_equal. f_equal. f_equal; unfold Rdiv; ring.
Qed.

Lemma forceAt_bounded cfg s dist force :
  0 <= maxForce cfg -> in_range s ->
  0 < dist < interactionRadius cfg ->
  forceAt cfg (Some s) dist = inr force ->
  - maxForce cfg <= force <= maxForce cfg.
Proof.
  intros Hmax [Hs1 Hs2] Hd Hforce.
  destruct (Rlt_dec dist (minDist cfg)) as [Hclose | Hzone].
  - rewrite forceAt_repulsion in Hforce by lra. injection Hforce as <-.
    assert (0 < / minDist cfg) as Hinv by (apply Rinv_0_lt_compat; lra).
    assert (minDist cfg * / minDist cfg = 1) as Hone by (apply Rinv_r; lra).
    assert (0 < dist * / minDist cfg) as Hu1 by (apply Rmult_lt_0_compat; lra).
    assert (dist * / minDist cfg < 1) as Hu2
      by (rewrite <- Hone; apply Rmult_lt_compat_r; lra).
    unfold Rdiv. set (u := dist * / minDist cfg) in *. split; nra.
  - rewrite forceAt_interaction in Hforce by lra. injection Hforce as <-.
    assert (0 < / (interactionRadius cfg - minDist cfg)) as Hinv
      by (apply Rinv_0_lt_compat; lra).
    assert ((interactionRadius cfg - minDist cfg) *
            / (interactionRadius cfg - minDist cfg) = 1) as Hone
      by (apply Rinv_r; lra).
    set (t := (dist - minDist cfg) / (interactionRadius cfg - minDist cfg)).
    assert (0 <= t) as Ht1
      by (unfold t, Rdiv; apply Rmult_le_pos; lra).
    assert (t < 1) as Ht2
      by (unfold t, Rdiv; rewrite <- Hone; apply Rmult_lt_compat_r; lra).
    assert (-1 <= s * (1 - t) <= 1) as [Hv1 Hv2] by (split; nra).
    set (v := s * (1 - t)) in *. split; nra.
Qed.

(** With strengths in [-1, 1] the force law gives no vector longer than
    maxForce. *)
Lemma pairForce_bounded (cfg : Config) (width height : R) (rules : Rules)
    (n : nat) (p q : Particle) (g : R * R) :
  0 <= maxForce cfg ->
  matrix_ok n (matrix rules) -> (type p < n)%nat -> (type q < n)%nat ->
  pairForce cfg width height rules p q = inr (Some g) ->
  sqrt (g.1 * g.1 + g.2 * g.2) <= maxForce cfg.
Proof.
  intros Hmax [Hlen Hrows] Hp Hq Hg.
  pose proof (pairForce_some_active _ _ _ _ _ _ _ Hg) as Hactive.
  destruct (lookup_lt_is_Some_2 (matrix rules) (type p)) as [row Hrow]; [lia |].
  pose proof (proj1 (Forall_lookup _ _) Hrows _ _ Hrow) as [Hrowlen Hentries].
  destruct (lookup_lt_is_Some_2 row (type q)) as [s Hs]; [lia |].
  pose proof (proj1 (Forall_lookup _ _) Hentries _ _ Hs) as Hrange.
  rewrite (pairForce_active cfg width height rules p q row Hactive Hrow), Hs in Hg.
  destruct (forceAt cfg (Some s) (distance cfg width height p q)) as [e | force] eqn:Hforce;
    [discriminate |].
  pose proof (forceAt_bounded cfg s _ force Hmax Hrange Hactive Hforce) as Hbound.
  cbn [Js.bind] in Hg. injection Hg as <-. cbn [fst snd].
  rewrite distance_eq in *.
  set (dx := (separation cfg width height p q).1) in *.
  set (dy := (separation cfg width height p q).2) in *.
  set (dist := sqrt (dx * dx + dy * dy)) in *.
  assert (dist * dist = dx * dx + dy * dy) as Hsq by (apply sqrt_sqrt; nra).
  replace (dx / dist * force * (dx / dist * force) + dy / dist * force * (dy / dist * force))
    with (force * force).
  2: { transitivity (force * force * ((dx * dx + dy * dy) / (dist * dist))).
       - rewrite <- Hsq. field. lra.
       - field. lra. }
  rewrite <- (sqrt_square (maxForce cfg)) by exact Hmax.
  apply sqrt_le_1_alt. nra.
Qed.

(** ** The folded separation is the shortest one *)

Lemma wrap_delta_cases extent d :
  0 < extent -> - extent <= d <= extent ->
  Rabs (wrap_delta extent d) <= extent / 2 /\
  (wrap_delta extent d = d \/ wrap_delta extent d = d - extent \/
   wrap_delta extent d = d + extent).
Proof.
  intros Hext Hd. unfold wrap_delta. cmp.
  all: split;
    [apply Rabs_le; lra | first [left; lra | right; left; lra | right; right; lra]].
Qed.

Lemma image_not_shorter extent delta (m : Z) :
  0 < extent -> Rabs delta <= extent / 2 ->
  delta * delta <= (delta + IZR m * extent) * (delta + IZR m * extent).
Proof.
  intros Hext Hdelta.
  assert (- (extent / 2) <= delta <= extent / 2) as Hhalf
    by (unfold Rabs in Hdelta; destruct (Rcase_abs delta); lra).
  destruct (Z.eq_dec m 0%Z) as [-> | Hm].
  - rewrite Rmult_0_l, Rplus_0_r. lra.
  - assert (1 <= IZR m \/ IZR m <= -1) as [Hpos | Hneg].
    { destruct (Z_lt_le_dec m 0%Z) as [Hlt | Hge].
      - right. apply (IZR_le m (-1)%Z). lia.
      - left. apply (IZR_le 1%Z m). lia. }
    + assert (extent <= IZR m * extent) as Hz by nra.
      set (z := IZR m * extent) in *.
      assert (0 <= z * (2 * delta + z)) as Hprod by (apply Rmult_le_pos; lra).
      nra.
    + assert (IZR m * extent <= - extent) as Hz by nra.
      set (z := IZR m * extent) in *.
      assert (0 <= (- z) * (- (2 * delta + z))) as Hprod by (apply Rmult_le_pos; lra).
      nra.
Qed.

Lemma wrap_delta_shortest extent d (k : Z) :
  0 < extent -> - extent <= d <= extent ->
  wrap_delta extent d * wrap_delta extent d <=
  (d + IZR k * extent) * (d + IZR k * extent).
Proof.
  intros Hext Hd.
  destruct (wrap_delta_cases extent d Hext Hd) as [Hhalf [Heq | [Heq | Heq]]].
  - pose proof (image_not_shorter extent _ k Hext Hhalf) as H.
    replace (wrap_delta extent d + IZR k * extent)
      with (d + IZR k * extent) in H by (rewrite Heq; lra).
    exact H.
  - pose proof (image_not_shorter extent _ (k + 1) Hext Hhalf) as H.
    rewrite plus_IZR in H.
    replace (wrap_delta extent d + (IZR k + 1) * extent)
      with (d + IZR k * extent) in H by (rewrite Heq; lra).
    exact H.
  - pose proof (image_not_shorter extent _ (k - 1) Hext Hhalf) as H.
    rewrite minus_IZR in H.
    replace (wrap_delta extent d + (IZR k - 1) * extent)
      with (d + IZR k * extent) in H by (rewrite Heq; lra).
    exact H.
Qed.

(** X10.  Under wrap mode the distance that [applyForces] uses between two
    particles of the canvas is the toroidal one: no copy of the other
    particle, shifted by whole canvas widths and heights, is closer, and
    each folded component is at most half the extent. *)
Theorem wrapped_distance_shortest (cfg : Config) (width height : R) (p q : Particle)
    (kx ky : Z) :
  wrap cfg = true ->
  in_canvas width height p -> in_canvas width height q ->
  distance cfg width height p q <=
    sqrt ((x q - x p + IZR kx * width) * (x q - x p + IZR kx * width) +
          (y q - y p + IZR ky * height) * (y q - y p + IZR ky * height)) /\
  Rabs (separation cfg width height p q).1 <= width / 2 /\
  Rabs (separation cfg width height p q).2 <= height / 2.
Proof.
  intros Hwrap [Hpx Hpy] [Hqx Hqy].
  rewrite distance_eq. unfold separation. rewrite Hwrap. cbn [fst snd].
  assert (0 < width) as Hw by lra. assert (0 < height) as Hh by lra.
  assert (- width <= x q - x p <= width) as Hdx by lra.
  assert (- height <= y q - y p <= height) as Hdy by lra.
  split; [| split].
  - apply sqrt_le_1_alt.
    pose proof (wrap_delta_shortest width _ kx Hw Hdx).
    pose proof (wrap_delta_shortest height _ ky Hh Hdy). lra.
  - apply (wrap_delta_cases width _ Hw Hdx).
  - apply (wrap_delta_cases height _ Hh Hdy).
Qed.

Lemma wrapped_distance_shortest_witness :
  distance CONFIG 1000 800 seamP seamQ <=
    sqrt ((x seamQ - x seamP + IZR 0 * 1000) * (x seamQ - x seamP + IZR 0 * 1000) +
          (y seamQ - y seamP + IZR 0 * 800) * (y seamQ - y seamP + IZR 0 * 800)) /\
  Rabs (separation CONFIG 1000 800 seamP seamQ).1 <= 1000 / 2 /\
  Rabs (separation CONFIG 1000 800 seamP seamQ).2 <= 800 / 2.
Proof.
  apply wrapped_distance_shortest; [reflexivity | |]; unfold in_canvas; simpl; lra.
Defined.

(** ** What [update] guarantees without a bound on the speed *)

Lemma bounce_axis_lands extent vel pos :
  1 <= extent -> 0 <= (bounce_axis extent vel pos).2 < extent.
Proof.
  intros Hext.
  destruct (Rlt_dec pos 0) as [Hlow | Hnotlow].
  { destruct (bounce_axis_outside extent vel pos Hext (or_introl Hlow)) as (_ & H & _).
    lra. }
  destruct (Rle_dec extent pos) as [Hhigh | Hnothigh].
  { destruct (bounce_axis_outside extent vel pos Hext (or_intror Hhigh)) as (_ & H & _).
    lra. }
  rewrite bounce_axis_inside by lra. cbn [snd]. lra.
Qed.

(** X11.  Under bounce mode, on a canvas of at least one pixel each way,
    [update] leaves every particle inside the canvas, wherever it was and
    however fast it moved. *)
Theorem bounce_conservation (cfg : Config) (width height : R) (p : Particle) (dt : R) :
  wrap cfg = false -> 1 <= width -> 1 <= height ->
  in_canvas width height (update cfg width height p dt).
Proof.
  intros Hwrap Hw Hh. unfold in_canvas, update.
  destruct (boundary_bounce cfg width height (integrate cfg p dt) Hwrap)
    as (Hx & _ & Hy & _).
  rewrite Hx, Hy. split; apply bounce_axis_lands; assumption.
Qed.

Lemma bounce_conservation_witness :
  in_canvas 1000 800 (update bounceCONFIG 1000 800 edgeP 100).
Proof. apply bounce_conservation; [reflexivity | lra | lra]. Defined.

Lemma bounce_axis_speed extent vel pos :
  Rabs (bounce_axis extent vel pos).1 <= Rabs vel.
Proof.
  unfold bounce_axis. destruct (_ || _); cbn [fst]; [| lra].
  rewrite Rabs_mult, Rabs_Ropp, (Rabs_right (8 / 10)) by lra.
  pose proof (Rabs_pos vel). lra.
Qed.

(** X12.  [update] never makes a particle faster: with friction * dt between
    0 and 2, neither velocity component grows in absolute value, in wrap
    mode and in bounce mode alike. *)
Theorem update_never_accelerates (cfg : Config) (width height : R) (p : Particle)
    (dt : R) :
  0 <= friction cfg * dt <= 2 ->
  Rabs (vx (update cfg width height p dt)) <= Rabs (vx p) /\
  Rabs (vy (update cfg width height p dt)) <= Rabs (vy p).
Proof.
  intros Hdamp.
  assert (forall v, Rabs (v * (1 - friction cfg * dt)) <= Rabs v) as Hfriction.
  { intros v. rewrite Rabs_mult. pose proof (Rabs_pos v).
    assert (Rabs (1 - friction cfg * dt) <= 1) by (apply Rabs_le; lra). nra. }
  unfold update, boundary. destruct (wrap cfg).
  - cbn [vx vy integrate]. split; apply Hfriction.
  - pose proof (bounce_axis_speed width (vx (integrate cfg p dt))
                  (x (integrate cfg p dt))) as Hbx.
    pose proof (bounce_axis_speed height (vy (integrate cfg p dt))
                  (y (integrate cfg p dt))) as Hby.
    destruct (bounce_axis width _ _) as [vx1 x1].
    destruct (bounce_axis height _ _) as [vy1 y1].
    cbn [vx vy fst integrate] in *. split.
    + eapply Rle_trans; [exact Hbx | apply Hfriction].
    + eapply Rle_trans; [exact Hby | apply Hfriction].
Qed.

Lemma update_never_accelerates_witness :
  Rabs (vx (update CONFIG 1000 800 edgeP 1)) <= Rabs (vx edgeP) /\
  Rabs (vy (update CONFIG 1000 800 edgeP 1)) <= Rabs (vy edgeP).
Proof. apply update_never_accelerates. simpl. lra. Defined.

(** ** New particles *)

Lemma randomType_lt cfg r :
  0 <= r < 1 -> (0 < numTypes cfg)%nat -> (randomType cfg r < numTypes cfg)%nat.
Proof.
  intros [Hr1 Hr2] Hn. unfold randomType.
  assert (0 < INR (numTypes cfg)) as Hpos by (apply lt_0_INR; exact Hn).
  pose proof (Zfloor_bound (r * INR (numTypes cfg))) as [Hf1 Hf2].
  assert (0 <= Zfloor (r * INR (numTypes cfg)))%Z as Hlow by (apply Zfloor_lub; nra).
  assert (Zfloor (r * INR (numTypes cfg)) < Z.of_nat (numTypes cfg))%Z as Hhigh.
  { apply lt_IZR. rewrite <- INR_IZR_INZ. nra. }
  lia.
Qed.

Lemma createLoop_spec cfg width height rnd (P : Particle -> Prop) :
  (forall k, P (constructor cfg (rnd (k + 1)%nat * width) (rnd (k + 2)%nat * height)
                  (randomType cfg (rnd k)))) ->
  forall count k particles, exists new,
    createLoop cfg width height rnd k count particles =
      (particles ++ new, (k + 3 * count)%nat) /\
    length new = count /\ Forall P new.
Proof.
  intros HP. induction count as [| count IH]; intros k particles; cbn [createLoop].
  - exists []. rewrite app_nil_r, Nat.mul_0_r, Nat.add_0_r. auto.
  - destruct (IH (k + 3)%nat
        (particles ++
           [constructor cfg (rnd (k + 1)%nat * width) (rnd (k + 2)%nat * height)
              (randomType cfg (rnd k))])) as (new & -> & Hlen & Hall).
    eexists (_ :: new). rewrite <- app_assoc. cbn [app length].
    split; [f_equal; lia |]. split; [congruence |].
    apply Forall_cons. split; [apply HP | exact Hall].
Qed.

Lemma spawnLoop_spec cfg x0 y0 rnd (P : Particle -> Prop) :
  (forall k, P (constructor cfg
                  (x0 + cos (rnd (k + 1)%nat * PI * 2) * (rnd (k + 2)%nat * 30))
                  (y0 + sin (rnd (k + 1)%nat * PI * 2) * (rnd (k + 2)%nat * 30))
                  (randomType cfg (rnd k)))) ->
  forall count k particles, exists new,
    spawnLoop cfg x0 y0 rnd k count particles =
      (particles ++ new, (k + 3 * count)%nat) /\
    length new = count /\ Forall P new.
Proof.
  intros HP. induction count as [| count IH]; intros k particles; cbn [spawnLoop].
  - exists []. rewrite app_nil_r, Nat.mul_0_r, Nat.add_0_r. auto.
  - match goal with
    | |- context [spawnLoop _ _ _ _ _ _ (particles ++ [?q])] =>
        destruct (IH (k + 3)%nat (particles ++ [q])) as (new & -> & Hlen & Hall);
        exists (q :: new)
    end.
    rewrite <- app_assoc. cbn [app length].
    split; [f_equal; lia |]. split; [congruence |].
    apply Forall_cons. split; [apply HP | exact Hall].
Qed.

(** X13.  With [Math.random] in [0, 1), at least one colour and a canvas of
    positive size, [createParticles(count)] makes exactly [count] particles,
    each inside the canvas, of a type below [numTypes] and with a colour, and
    draws three random numbers per particle. *)
Theorem createParticles_well_formed (cfg : Config) (width height : R)
    (rnd : Js.Random) (count k : nat) :
  Js.unit_interval rnd -> (0 < numTypes cfg)%nat -> 0 < width -> 0 < height ->
  length (createParticles cfg width height count rnd k).1 = count /\
  (createParticles cfg width height count rnd k).2 = (k + 3 * count)%nat /\
  Forall (in_canvas width height) (createParticles cfg width height count rnd k).1 /\
  typed (numTypes cfg) (createParticles cfg width height count rnd k).1 /\
  Forall (fun p => is_Some (color p)) (createParticles cfg width height count rnd k).1.
Proof.
  intros Hrnd Hn Hw Hh. unfold createParticles.
  destruct (createLoop_spec cfg width height rnd
              (fun p => in_canvas width height p /\ (type p < numTypes cfg)%nat /\
                        is_Some (color p))) with (count := count) (k := k)
              (particles := @nil Particle)
    as (new & -> & Hlen & Hall).
  { intros j. pose proof (Hrnd j) as Hj. pose proof (Hrnd (j + 1)%nat) as Hj1.
    pose proof (Hrnd (j + 2)%nat) as Hj2.
    pose proof (randomType_lt cfg (rnd j) Hj Hn) as Htype.
    split; [| split].
    - unfold in_canvas. cbn [x y constructor]. split; split; nra.
    - exact Htype.
    - cbn [color constructor]. apply lookup_lt_is_Some_2. exact Htype. }
  cbn [app fst snd]. split; [exact Hlen |]. split; [reflexivity |].
  unfold typed. rewrite !Forall_forall in *.
  split; [| split]; intros p Hp; apply (Hall p Hp).
Qed.

Lemma createParticles_well_formed_witness :
  length (createParticles CONFIG 1000 800 500 (fun _ => 1 / 2) 0).1 = 500%nat /\
  (createParticles CONFIG 1000 800 500 (fun _ => 1 / 2) 0).2 = (0 + 3 * 500)%nat /\
  Forall (in_canvas 1000 800) (createParticles CONFIG 1000 800 500 (fun _ => 1 / 2) 0).1 /\
  typed (numTypes CONFIG) (createParticles CONFIG 1000 800 500 (fun _ => 1 / 2) 0).1 /\
  Forall (fun p => is_Some (color p))
    (createParticles CONFIG 1000 800 500 (fun _ => 1 / 2) 0).1.
Proof.
  apply createParticles_well_formed.
  - intros n. lra.
  - unfold numTypes. simpl. lia.
  - lra.
  - lra.
Defined.

(** X14.  With [Math.random] in [0, 1) and at least one colour,
    [spawnParticles(x, y, count)] keeps the particles it finds and appends
    [count] new ones (20 when [count] is left out), each less than 30 away
    from (x, y) and of a type below [numTypes], and draws three random
    numbers per particle. *)
Theorem spawnParticles_around (cfg : Config) (x0 y0 : R) (count : option nat)
    (rnd : Js.Random) (k : nat) (particles : list Particle) :
  Js.unit_interval rnd -> (0 < numTypes cfg)%nat ->
  exists new,
    spawnParticles cfg x0 y0 count rnd k particles =
      (particles ++ new, (k + 3 * default 20%nat count)%nat) /\
    length new = default 20%nat count /\
    typed (numTypes cfg) new /\
    Forall (fun p => sqrt ((x p - x0) * (x p - x0) + (y p - y0) * (y p - y0)) < 30) new.
Proof.
  intros Hrnd Hn. unfold spawnParticles.
  destruct (spawnLoop_spec cfg x0 y0 rnd
              (fun p => (type p < numTypes cfg)%nat /\
                        sqrt ((x p - x0) * (x p - x0) + (y p - y0) * (y p - y0)) < 30))
              with (count := default 20%nat count) (k := k) (particles := particles)
    as (new & -> & Hlen & Hall).
  { intros j. pose proof (Hrnd j) as Hj. pose proof (Hrnd (j + 2)%nat) as Hj2.
    split; [exact (randomType_lt cfg (rnd j) Hj Hn) |].
    cbn [x y constructor].
    set (angle := rnd (j + 1)%nat * PI * 2). set (radius := rnd (j + 2)%nat * 30).
    assert (0 <= radius < 30) as Hradius by (unfold radius; lra).
    replace ((x0 + cos angle * radius - x0) * (x0 + cos angle * radius - x0) +
             (y0 + sin angle * radius - y0) * (y0 + sin angle * radius - y0))
      with (radius * radius).
    2: { pose proof (sin2_cos2 angle) as Hunit. unfold Rsqr in Hunit.
         transitivity ((sin angle * sin angle + cos angle * cos angle) * (radius * radius));
           [rewrite Hunit | ]; ring. }
    rewrite sqrt_square by lra. lra. }
  exists new. split; [reflexivity |]. split; [exact Hlen |].
  unfold typed. rewrite !Forall_forall in *.
  split; intros p Hp; apply (Hall p Hp).
Qed.

Lemma spawnParticles_around_witness :
  exists new,
    spawnParticles CONFIG 100 100 None (fun _ => 1 / 2) 0 [seamP] =
      ([seamP] ++ new, (0 + 3 * 20)%nat) /\
    length new = 20%nat /\
    typed (numTypes CONFIG) new /\
    Forall (fun p => sqrt ((x p - 100) * (x p - 100) + (y p - 100) * (y p - 100)) < 30) new.
Proof.
  apply (spawnParticles_around CONFIG 100 100 None (fun _ => 1 / 2) 0 [seamP]).
  - intros n. lra.
  - unfold numTypes. simpl. lia.
Defined.

(** ** The cells of a random matrix *)

Lemma randomRow_cells rnd n :
  forall k,
    (randomRow rnd k n).2 = (k + n)%nat /\
    forall j, (j < n)%nat -> (randomRow rnd k n).1 !! j = Some (rnd (k + j)%nat * 2 - 1).
Proof.
  induction n as [| n IH]; intros k; cbn [randomRow].
  - split; [cbn; lia | intros j Hj; lia].
  - destruct (IH (S k)) as [Hnext Hcells].
    destruct (randomRow rnd (S k) n) as [row k']. cbn [fst snd] in *.
    split; [lia |]. intros [| j] Hj.
    + rewrite Nat.add_0_r. reflexivity.
    + replace (k + S j)%nat with (S k + j)%nat by lia. apply (Hcells j). lia.
Qed.

Lemma randomRows_cells cfg rnd rows :
  forall k,
    (randomRows cfg rnd k rows).2 = (k + rows * numTypes cfg)%nat /\
    forall i, (i < rows)%nat ->
      (randomRows cfg rnd k rows).1 !! i =
      Some (randomRow rnd (k + i * numTypes cfg) (numTypes cfg)).1.
Proof.
  induction rows as [| rows IH]; intros k; cbn [randomRows].
  - split; [cbn; lia | intros i Hi; lia].
  - destruct (randomRow_cells rnd (numTypes cfg) k) as [Hk1 _].
    destruct (randomRow rnd k (numTypes cfg)) as [row k1] eqn:Hrow.
    cbn [snd] in Hk1. subst k1.
    destruct (IH (k + numTypes cfg)%nat) as [Hnext Hcells].
    destruct (randomRows cfg rnd (k + numTypes cfg) rows) as [m k2].
    cbn [fst snd] in *. split; [lia |]. intros [| i] Hi.
    + rewrite Nat.add_0_r, Hrow. reflexivity.
    + replace (k + S i * numTypes cfg)%nat
        with (k + numTypes cfg + i * numTypes cfg)%nat by lia.
      apply (Hcells i). lia.
Qed.

(** X15.  [generateRandomRules] gives every cell a draw of its own: cell
    (i, j) is 2 r - 1 for the draw r number i * numTypes + j, counted from
    the first draw of the call, and the call makes numTypes * numTypes
    draws. *)
Theorem generateRandomRules_cells (cfg : Config) (rnd : Js.Random) (k : nat) :
  (generateRandomRules cfg rnd k).2 = (k + numTypes cfg * numTypes cfg)%nat /\
  forall i j, (i < numTypes cfg)%nat -> (j < numTypes cfg)%nat ->
    entry (matrix (generateRandomRules cfg rnd k).1) i j =
    Some (rnd (k + i * numTypes cfg + j)%nat * 2 - 1).
Proof.
  unfold generateRandomRules.
  destruct (randomRows_cells cfg rnd (numTypes cfg) k) as [Hnext Hrows].
  destruct (randomRows cfg rnd k (numTypes cfg)) as [m k'].
  cbn [fst snd matrix] in *. split; [exact Hnext |].
  intros i j Hi Hj. unfold entry. rewrite (Hrows i Hi). cbn [mbind option_bind].
  apply randomRow_cells. exact Hj.
Qed.

Lemma generateRandomRules_cells_witness :
  entry (matrix (generateRandomRules CONFIG (fun n => / (INR n + 2)) 0).1) 1 2 =
  Some (/ (INR (0 + 1 * numTypes CONFIG + 2) + 2) * 2 - 1).
Proof.
  apply (generateRandomRules_cells CONFIG (fun n => / (INR n + 2)) 0);
    unfold numTypes; simpl; lia.
Defined.

(** ** The matrix editor *)

Lemma setCell_entry n m i0 j0 v :
  matrix_ok n m -> (i0 < n)%nat -> (j0 < n)%nat ->
  exists m1,
    setCell m i0 j0 v = inr m1 /\ matrix_ok n m1 /\
    forall i j,
      entry m1 i j = if decide (i = i0 /\ j = j0) then Some (clampValue v) else entry m i j.
Proof.
  intros Hm Hi0 Hj0.
  destruct (setCell_ok n m i0 j0 v Hm Hi0 Hj0) as (row & Hrow & Hset & Hok).
  eexists. split; [exact Hset |]. split; [exact Hok |].
  destruct Hm as [Hlen Hrows].
  pose proof (proj1 (Forall_lookup _ _) Hrows _ _ Hrow) as [Hrowlen _].
  intros i j. unfold entry.
  destruct (decide (i = i0)) as [-> | Hi].
  - rewrite list_lookup_insert_eq by lia. cbn [mbind option_bind].
    destruct (decide (j = j0)) as [-> | Hj].
    + rewrite decide_True by auto. apply list_lookup_insert_eq. lia.
    + rewrite decide_False by (intros [_ H]; contradiction).
      rewrite list_lookup_insert_ne by auto. rewrite Hrow. reflexivity.
  - rewrite decide_False by (intros [H _]; contradiction).
    rewrite list_lookup_insert_ne by auto. reflexivity.
Qed.

Lemma applyInputs_entry n inputs :
  Forall (fun input => (data_i input < n)%nat /\ (data_j input < n)%nat) inputs ->
  forall m, matrix_ok n m ->
  exists m',
    applyInputs inputs m = inr m' /\ matrix_ok n m' /\
    forall i j v,
      (forall input, input ∈ inputs -> data_i input = i -> data_j input = j ->
                     clampValue (value input) = v) ->
      (entry m i j = Some v \/
       exists input, input ∈ inputs /\ data_i input = i /\ data_j input = j) ->
      entry m' i j = Some v.
Proof.
  induction 1 as [| input inputs [Hi Hj] _ IH]; intros m Hm; cbn [applyInputs].
  - exists m. split; [reflexivity |]. split; [exact Hm |].
    intros i j v _ [Hentry | (input & Hin & _)]; [exact Hentry |].
    apply not_elem_of_nil in Hin. contradiction.
  - destruct (setCell_entry n m _ _ (value input) Hm Hi Hj) as (m1 & -> & Hm1 & Hentry1).
    cbn [Js.bind]. destruct (IH m1 Hm1) as (m' & Hrun & Hm' & Hentry').
    exists m'. split; [exact Hrun |]. split; [exact Hm' |].
    intros i j v Hvalues Hcell. apply Hentry'.
    + intros input' Hin. apply Hvalues. apply list_elem_of_further, Hin.
    + rewrite Hentry1.
      destruct (decide (i = data_i input /\ j = data_j input)) as [[-> ->] | Hother].
      * left. f_equal. apply Hvalues; [apply list_elem_of_here | reflexivity | reflexivity].
      * destruct Hcell as [Hentry | (input' & Hin & Hi' & Hj')]; [left; exact Hentry |].
        apply elem_of_cons in Hin as [-> | Hin].
        -- exfalso. apply Hother. auto.
        -- right. exists input'. auto.
Qed.

Lemma buildMatrixUI_inputs cfg text input :
  input ∈ buildMatrixUI cfg text <->
  (data_i input < numTypes cfg)%nat /\ (data_j input < numTypes cfg)%nat /\
  value input = text (data_i input) (data_j input).
Proof.
  unfold buildMatrixUI. rewrite list_elem_of_In, in_flat_map. split.
  - intros (i & Hi & Hin). apply in_map_iff in Hin as (j & <- & Hj).
    apply in_seq in Hi, Hj. cbn. split; [lia |]. split; [lia | reflexivity].
  - intros (Hi & Hj & Hvalue). exists (data_i input).
    split; [apply in_seq; lia |]. apply in_map_iff. exists (data_j input).
    split; [| apply in_seq; lia]. rewrite <- Hvalue. destruct input. reflexivity.
Qed.

Lemma editor_entries cfg text rules :
  matrix_ok (numTypes cfg) (matrix rules) ->
  exists rules',
    applyMatrixFromUI (buildMatrixUI cfg text) rules = inr rules' /\
    matrix_ok (numTypes cfg) (matrix rules') /\
    forall i j, (i < numTypes cfg)%nat -> (j < numTypes cfg)%nat ->
      entry (matrix rules') i j = Some (clampValue (text i j)).
Proof.
  intros Hm. unfold applyMatrixFromUI.
  destruct (applyInputs_entry (numTypes cfg) (buildMatrixUI cfg text)
              (buildMatrixUI_indices cfg text) (matrix rules) Hm)
    as (m' & -> & Hm' & Hentry).
  exists (mkRules m'). split; [reflexivity |]. split; [exact Hm' |].
  intros i j Hi Hj. cbn [matrix]. apply Hentry.
  - intros input Hin <- <-. apply buildMatrixUI_inputs in Hin as (_ & _ & ->). reflexivity.
  - right. exists (mkInput i j (text i j)). split; [| auto].
    apply buildMatrixUI_inputs. cbn. auto.
Qed.

(** X16.  Applying the editor overwrites the whole matrix: whatever the
    rules were, cell (i, j) becomes the clamp to [-1, 1] of what field (i, j)
    holds, with 0 for a text that is not a number. *)
Theorem editor_overwrites (cfg : Config) (text : nat -> nat -> option R) (rules : Rules) :
  matrix_ok (numTypes cfg) (matrix rules) ->
  exists rules',
    applyMatrixFromUI (buildMatrixUI cfg text) rules = inr rules' /\
    forall i j, (i < numTypes cfg)%nat -> (j < numTypes cfg)%nat ->
      entry (matrix rules') i j = Some (Rmax (-1) (Rmin 1 (default 0 (text i j)))).
Proof.
  intros Hm. destruct (editor_entries cfg text rules Hm) as (rules' & Hrun & _ & Hentry).
  exists rules'. split; [exact Hrun | exact Hentry].
Qed.

Lemma scenarioRules_CONFIG : matrix_ok (numTypes CONFIG) (matrix scenarioRules).
Proof. exact scenarioRules_ok. Qed.

Lemma editor_overwrites_witness :
  exists rules',
    applyMatrixFromUI (buildMatrixUI CONFIG (fun _ _ => Some 5)) scenarioRules
      = inr rules' /\
    forall i j, (i < numTypes CONFIG)%nat -> (j < numTypes CONFIG)%nat ->
      entry (matrix rules') i j = Some (Rmax (-1) (Rmin 1 (default 0 (Some 5)))).
Proof.
  apply (editor_overwrites CONFIG (fun _ _ => Some 5) scenarioRules).
  exact scenarioRules_CONFIG.
Defined.

Lemma toFixed2_close v : Rabs (toFixed2 v - v) <= 1 / 200.
Proof.
  unfold toFixed2.
  destruct (v <? 0).
  - pose proof (Zfloor_bound (- v * 100 + 1 / 2)) as [H1 H2]. apply Rabs_le. lra.
  - pose proof (Zfloor_bound (v * 100 + 1 / 2)) as [H1 H2]. apply Rabs_le. lra.
Qed.

Lemma toFixed2_in_range v : in_range v -> in_range (toFixed2 v).
Proof.
  intros [Hlow Hhigh]. unfold in_range, toFixed2.
  destruct (v <? 0) eqn:E; [apply lt_true in E | apply lt_false in E].
  - pose proof (Zfloor_bound (- v * 100 + 1 / 2)) as [H1 H2].
    assert (0 <= Zfloor (- v * 100 + 1 / 2))%Z as Hn1 by (apply Zfloor_lub; lra).
    assert (Zfloor (- v * 100 + 1 / 2) < 101)%Z as Hn2 by (apply lt_IZR; lra).
    assert (Zfloor (- v * 100 + 1 / 2) <= 100)%Z as Hn3 by lia.
    apply IZR_le in Hn1, Hn3. lra.
  - pose proof (Zfloor_bound (v * 100 + 1 / 2)) as [H1 H2].
    assert (0 <= Zfloor (v * 100 + 1 / 2))%Z as Hn1 by (apply Zfloor_lub; lra).
    assert (Zfloor (v * 100 + 1 / 2) < 101)%Z as Hn2 by (apply lt_IZR; lra).
    assert (Zfloor (v * 100 + 1 / 2) <= 100)%Z as Hn3 by lia.
    apply IZR_le in Hn1, Hn3. lra.
Qed.

Lemma toFixed2_hundredths z : toFixed2 (IZR z / 100) = IZR z / 100.
Proof.
  unfold toFixed2. destruct (IZR z / 100 <? 0).
  - rewrite (Zfloor_eq (- z)%Z) by (rewrite opp_IZR; lra). rewrite opp_IZR. lra.
  - rewrite (Zfloor_eq z) by lra. reflexivity.
Qed.

Lemma clampValue_id v : in_range v -> clampValue (Some v) = v.
Proof.
  intros [Hlow Hhigh]. unfold clampValue, Rmax, Rmin. cbn [from_option Datatypes.id].
  destruct (Rle_dec 1 v); destruct (Rle_dec (-1) _); lra.
Qed.

Lemma matrix_ok_entry n m i j :
  matrix_ok n m -> (i < n)%nat -> (j < n)%nat ->
  exists v, entry m i j = Some v /\ in_range v.
Proof.
  intros [Hlen Hrows] Hi Hj. unfold entry.
  destruct (lookup_lt_is_Some_2 m i) as [row Hrow]; [lia |].
  pose proof (proj1 (Forall_lookup _ _) Hrows _ _ Hrow) as [Hrowlen Hentries].
  destruct (lookup_lt_is_Some_2 row j) as [v Hv]; [lia |].
  exists v. rewrite Hrow. cbn [mbind option_bind].
  split; [exact Hv | exact (proj1 (Forall_lookup _ _) Hentries _ _ Hv)].
Qed.

(** X17.  Opening the editor and applying it without an edit rounds the
    rules: every cell becomes its own value to two decimals, at most 0.005
    away, and a cell that is a whole number of hundredths, as in every
    preset, keeps its value. *)
Theorem apply_without_edits (cfg : Config) (rules : Rules) :
  matrix_ok (numTypes cfg) (matrix rules) ->
  exists rules',
    applyMatrixFromUI (buildMatrixUI cfg (displayed rules)) rules = inr rules' /\
    forall i j, (i < numTypes cfg)%nat -> (j < numTypes cfg)%nat ->
      exists v,
        entry (matrix rules) i j = Some v /\
        entry (matrix rules') i j = Some (toFixed2 v) /\
        Rabs (toFixed2 v - v) <= 1 / 200 /\
        forall z, v = IZR z / 100 -> toFixed2 v = v.
Proof.
  intros Hm.
  destruct (editor_entries cfg (displayed rules) rules Hm) as (rules' & Hrun & _ & Hentry).
  exists rules'. split; [exact Hrun |]. intros i j Hi Hj.
  destruct (matrix_ok_entry _ _ i j Hm Hi Hj) as (v & Hv & Hrange).
  exists v. split; [exact Hv |]. split; [| split].
  - rewrite (Hentry i j Hi Hj). unfold displayed. fold (entry (matrix rules) i j).
    rewrite Hv. cbn [fmap option_fmap option_map].
    rewrite clampValue_id by (apply toFixed2_in_range; exact Hrange). reflexivity.
  - apply toFixed2_close.
  - intros z ->. apply toFixed2_hundredths.
Qed.

Lemma apply_without_edits_witness :
  exists rules',
    applyMatrixFromUI (buildMatrixUI CONFIG (displayed scenarioRules)) scenarioRules
      = inr rules' /\
    forall i j, (i < numTypes CONFIG)%nat -> (j < numTypes CONFIG)%nat ->
      exists v,
        entry (matrix scenarioRules) i j = Some v /\
        entry (matrix rules') i j = Some (toFixed2 v) /\
        Rabs (toFixed2 v - v) <= 1 / 200 /\
        forall z, v = IZR z / 100 -> toFixed2 v = v.
Proof. apply apply_without_edits. exact scenarioRules_CONFIG. Defined.

(** ** From the start of the page to any later frame *)

Lemma init_parts cfg width height rnd k :
  init cfg width height rnd k =
  ((generateRandomRules cfg rnd k).1,
   (createParticles cfg width height (particleCount cfg) rnd
      (generateRandomRules cfg rnd k).2).1,
   (createParticles cfg width height (particleCount cfg) rnd
      (generateRandomRules cfg rnd k).2).2).
Proof.
  unfold init. destruct (generateRandomRules cfg rnd k) as [rules k1]. cbn [fst snd].
  destruct (createParticles cfg width height (particleCount cfg) rnd k1). reflexivity.
Qed.

Lemma randomize_init cfg width height rnd k :
  randomize cfg width height rnd k = inr (init cfg width height rnd k).
Proof.
  assert (setPreset cfg "random" rnd k = inr (generateRandomRules cfg rnd k)) as Hpreset
    by reflexivity.
  unfold randomize, init, reset. rewrite Hpreset. cbn [Js.ret Js.bind].
  destruct (generateRandomRules cfg rnd k) as [rules k1]. cbn [fst snd].
  destruct (createParticles cfg width height (particleCount cfg) rnd k1). reflexivity.
Qed.

(** X18.  With [Math.random] in [0, 1) and at least one colour, the state
    that [init] sets up is well formed: a square matrix of strengths in
    [-1, 1], [particleCount] particles at rest whose types index it, made
    from numTypes * numTypes + 3 * particleCount draws.  [randomize] sets up
    the same state and does not throw, and from that state any number of
    frames runs without a fault. *)
Theorem start_is_safe (cfg : Config) (width height : R) (rnd : Js.Random) (k : nat) :
  Js.unit_interval rnd -> (0 < numTypes cfg)%nat ->
  randomize cfg width height rnd k = inr (init cfg width height rnd k) /\
  matrix_ok (numTypes cfg) (matrix (init cfg width height rnd k).1.1) /\
  length (init cfg width height rnd k).1.2 = particleCount cfg /\
  typed (numTypes cfg) (init cfg width height rnd k).1.2 /\
  Forall at_rest (init cfg width height rnd k).1.2 /\
  (init cfg width height rnd k).2 =
    (k + numTypes cfg * numTypes cfg + 3 * particleCount cfg)%nat /\
  forall count, exists out,
    frames cfg width height count (init cfg width height rnd k).1.1
      (init cfg width height rnd k).1.2 = inr out /\
    length out = particleCount cfg.
Proof.
  intros Hrnd Hn. split; [apply randomize_init |].
  rewrite init_parts. cbn [fst snd].
  pose proof (generateRandomRules_ok cfg rnd k Hrnd) as Hm.
  destruct (randomRows_cells cfg rnd (numTypes cfg) k) as [Hdraws _].
  assert ((generateRandomRules cfg rnd k).2 = (k + numTypes cfg * numTypes cfg)%nat)
    as Hk1.
  { unfold generateRandomRules.
    destruct (randomRows cfg rnd k (numTypes cfg)). exact Hdraws. }
  unfold createParticles.
  destruct (createLoop_spec cfg width height rnd
              (fun p => (type p < numTypes cfg)%nat /\ at_rest p))
              with (count := particleCount cfg) (k := (generateRandomRules cfg rnd k).2)
                   (particles := @nil Particle)
    as (new & -> & Hlen & Hall).
  { intros j. split; [apply randomType_lt; [apply Hrnd | exact Hn] |].
    apply constructor_at_rest. }
  cbn [app fst snd].
  assert (typed (numTypes cfg) new) as Htyped.
  { unfold typed. apply (Forall_impl _ _ _ Hall). intros p [Hp _]. exact Hp. }
  split; [exact Hm |]. split; [exact Hlen |]. split; [exact Htyped |].
  split; [apply (Forall_impl _ _ _ Hall); intros p [_ Hp]; exact Hp |].
  split; [rewrite Hk1; reflexivity |].
  intros count.
  assert (forall c start, typed (numTypes cfg) start ->
            exists out,
              frames cfg width height c (generateRandomRules cfg rnd k).1 start = inr out /\
              typed (numTypes cfg) out /\ length out = length start) as Hframes.
  { induction c as [| c IH]; intros start Hstart; cbn [frames].
    - exists start. auto.
    - destruct (animate_total cfg width height _ (numTypes cfg) start
                  (matrix_ok_square _ _ Hm) Hstart)
        as (next & -> & Hnext & Hnextlen).
      cbn [Js.bind]. destruct (IH next Hnext) as (out & Hout & Houttyped & Houtlen).
      exists out. split; [exact Hout |]. split; [exact Houttyped | congruence]. }
  destruct (Hframes count new Htyped) as (out & Hout & _ & Houtlen).
  exists out. split; [exact Hout | congruence].
Qed.

Lemma start_is_safe_witness :
  randomize CONFIG 1000 800 (fun _ => 1 / 2) 0 = inr (init CONFIG 1000 800 (fun _ => 1 / 2) 0).
Proof.
  apply (start_is_safe CONFIG 1000 800 (fun _ => 1 / 2) 0).
  - intros n. lra.
  - unfold numTypes. simpl. lia.
Defined.

(** ** When wrap mode keeps a particle in the canvas *)

Lemma wrap_axis_exact extent pos :
  0 < extent ->
  0 <= wrap_axis extent pos < extent <-> - extent <= pos < 2 * extent.
Proof. intros Hext. unfold wrap_axis. cmp; split; lra. Qed.

(** X19.  Under wrap mode [update] corrects a position by one extent at
    most: the particle ends inside the canvas on an axis exactly when the
    position it moved to is less than one extent outside, wherever it
    started. *)
Theorem wrap_conservation_exact (cfg : Config) (width height : R) (p : Particle)
    (dt : R) :
  wrap cfg = true -> 0 < width -> 0 < height ->
  (0 <= x (update cfg width height p dt) < width <->
   - width <= x p + vx p * dt * speed cfg < 2 * width) /\
  (0 <= y (update cfg width height p dt) < height <->
   - height <= y p + vy p * dt * speed cfg < 2 * height).
Proof.
  intros Hwrap Hw Hh. unfold update, boundary. rewrite Hwrap. cbn [x y integrate].
  split; apply wrap_axis_exact; assumption.
Qed.

Lemma wrap_conservation_exact_witness :
  ~ 0 <= x (update CONFIG 1000 800 edgeP 100) < 1000.
Proof.
  intros Hin.
  apply (proj1 (wrap_conservation_exact CONFIG 1000 800 edgeP 100
                  eq_refl ltac:(lra) ltac:(lra))) in Hin.
  simpl in Hin. lra.
Defined.

(** ** The spatial hash does not change the forces *)

Lemma sum_pairs_nil : sum_pairs [] = (0, 0).
Proof. reflexivity. Qed.

Lemma sum_pairs_cons g l :
  sum_pairs (g :: l) = (g.1 + (sum_pairs l).1, g.2 + (sum_pairs l).2).
Proof. reflexivity. Qed.

Lemma sum_pairs_app l k :
  (sum_pairs (l ++ k)).1 = (sum_pairs l).1 + (sum_pairs k).1 /\
  (sum_pairs (l ++ k)).2 = (sum_pairs l).2 + (sum_pairs k).2.
Proof.
  induction l as [| g l [IH1 IH2]]; cbn [app].
  - rewrite sum_pairs_nil. cbn [fst snd]. split; lra.
  - rewrite !sum_pairs_cons. cbn [fst snd]. split; lra.
Qed.

Lemma sum_pairs_Permutation l k :
  l ≡ₚ k ->
  (sum_pairs l).1 = (sum_pairs k).1 /\ (sum_pairs l).2 = (sum_pairs k).2.
Proof.
  induction 1 as [| g l k _ [IH1 IH2] | g1 g2 l | l k m _ [IH1 IH2] _ [IH3 IH4]].
  - auto.
  - rewrite !sum_pairs_cons. cbn [fst snd]. split; lra.
  - rewrite !sum_pairs_cons. cbn [fst snd]. split; lra.
  - split; congruence.
Qed.

Lemma sum_pairs_zero l :
  Forall (fun g => g = (0, 0)) l -> (sum_pairs l).1 = 0 /\ (sum_pairs l).2 = 0.
Proof.
  induction 1 as [| g l -> _ [IH1 IH2]].
  - rewrite sum_pairs_nil. auto.
  - rewrite sum_pairs_cons. cbn [fst snd]. split; lra.
Qed.

(** On a well-formed state the neighbour loop adds up the contributions of
    the indices it is given. *)
Lemma accumulate_sum cfg width height rules n particles i p :
  matrix_ok n (matrix rules) -> typed n particles -> (type p < n)%nat ->
  forall neighbors f,
    Forall (fun j => is_Some (particles !! j)) neighbors ->
    exists f',
      accumulate cfg width height rules particles i p neighbors f = inr f' /\
      f'.1 = f.1 + (sum_pairs (contribution cfg width height rules particles i p
                                 <$> neighbors)).1 /\
      f'.2 = f.2 + (sum_pairs (contribution cfg width height rules particles i p
                                 <$> neighbors)).2.
Proof.
  intros Hm Htyped Hp. induction neighbors as [| j rest IH]; intros f Hvalid.
  - exists f. cbn [accumulate fmap list_fmap]. rewrite sum_pairs_nil. cbn [fst snd].
    split; [reflexivity |]. split; lra.
  - apply Forall_cons in Hvalid as [[other Hother] Hrest].
    cbn [accumulate fmap list_fmap]. rewrite sum_pairs_cons. cbn [fst snd].
    unfold contribution at 1 3. unfold Js.get. rewrite Hother.
    destruct (i =? j)%nat.
    + destruct (IH f Hrest) as (f' & Hrun & H1 & H2).
      exists f'. split; [exact Hrun |]. cbn [fst snd]. split; lra.
    + destruct (pairForce_total cfg width height rules n p other
                    (matrix_ok_square _ _ Hm) Hp) as [c Hc].
      { exact (proj1 (Forall_lookup _ _) Htyped _ _ Hother). }
      rewrite Hc. cbn [Js.bind]. destruct c as [g |].
      * destruct (IH (f.1 + g.1, f.2 + g.2) Hrest) as (f' & Hrun & H1 & H2).
        exists f'. split; [exact Hrun |]. cbn [fst snd] in *. split; lra.
      * destruct (IH f Hrest) as (f' & Hrun & H1 & H2).
        exists f'. split; [exact Hrun |]. cbn [fst snd]. split; lra.
Qed.

(** A list of candidates without repetition that holds every particle closer
    than the interaction radius gives the force of the loop over all
    particles. *)
Lemma accumulate_all_pairs cfg width height rules n particles i p candidates :
  matrix_ok n (matrix rules) -> typed n particles -> (type p < n)%nat ->
  NoDup candidates ->
  Forall (fun j => is_Some (particles !! j)) candidates ->
  (forall j q, particles !! j = Some q ->
     distance cfg width height p q < interactionRadius cfg -> j ∈ candidates) ->
  exists f g,
    accumulate cfg width height rules particles i p candidates (0, 0) = inr f /\
    accumulate cfg width height rules particles i p (seq 0 (length particles)) (0, 0)
      = inr g /\
    f.1 = g.1 /\ f.2 = g.2.
Proof.
  intros Hm Htyped Hp Hnodup Hvalid Hcover.
  assert (Forall (fun j => is_Some (particles !! j)) (seq 0 (length particles))) as Hall.
  { apply Forall_forall. intros j Hj. apply elem_of_seq in Hj.
    apply lookup_lt_is_Some_2. lia. }
  destruct (accumulate_sum cfg width height rules n particles i p Hm Htyped Hp
              candidates (0, 0) Hvalid) as (f & Hf & Hf1 & Hf2).
  destruct (accumulate_sum cfg width height rules n particles i p Hm Htyped Hp
              (seq 0 (length particles)) (0, 0) Hall) as (g & Hg & Hg1 & Hg2).
  exists f, g. split; [exact Hf |]. split; [exact Hg |].
  assert (candidates ⊆+ seq 0 (length particles)) as Hsub.
  { apply NoDup_submseteq; [exact Hnodup |]. intros j Hj.
    apply elem_of_seq. pose proof (proj1 (Forall_forall _ _) Hvalid j Hj) as Hsome.
    apply lookup_lt_is_Some_1 in Hsome. lia. }
  apply submseteq_Permutation in Hsub as [rest Hperm].
  assert (Forall (fun c => c = (0, 0))
            (contribution cfg width height rules particles i p <$> rest)) as Hzero.
  { apply Forall_fmap, Forall_forall. intros j Hj. cbn.
    assert (j ∉ candidates) as Hout.
    { pose proof (NoDup_seq 0 (length particles)) as Hnd. rewrite Hperm in Hnd.
      apply NoDup_app in Hnd as (_ & Hdisjoint & _).
      intros Hin. exact (Hdisjoint j Hin Hj). }
    unfold contribution. destruct (i =? j)%nat; [reflexivity |].
    destruct (particles !! j) as [other |] eqn:Hother; [| reflexivity].
    destruct (pairForce cfg width height rules p other) as [e | [c |]] eqn:Hc;
      try reflexivity.
    exfalso. apply Hout, (Hcover j other Hother).
    apply (pairForce_some_active _ _ _ _ _ _ _ Hc). }
  pose proof (sum_pairs_Permutation _ _
                (fmap_Permutation (contribution cfg width height rules particles i p)
                   _ _ Hperm)) as [Hp1 Hp2].
  rewrite fmap_app in Hp1, Hp2.
  destruct (sum_pairs_app
              (contribution cfg width height rules particles i p <$> candidates)
              (contribution cfg width height rules particles i p <$> rest)) as [Ha1 Ha2].
  destruct (sum_pairs_zero _ Hzero) as [Hz1 Hz2].
  cbn [fst snd] in *. split; lra.
Qed.

(** X20.  The spatial hash is an optimisation only.  On a well-formed
    state, in bounce mode, and in wrap mode when the canvas is a whole number
    of cells, at least three each way, and holds all particles, the force
    that the neighbour loop accumulates for a particle from its candidates
    is the force it would accumulate from all particles. *)
Theorem hash_is_transparent (cfg : Config) (width height : R) (rules : Rules)
    (n : nat) (particles : list Particle) (i : nat) (p : Particle) :
  matrix_ok n (matrix rules) -> typed n particles -> particles !! i = Some p ->
  0 < interactionRadius cfg ->
  wrap cfg = false \/
  (exists nx ny, (3 <= nx)%Z /\ (3 <= ny)%Z /\
     width = IZR nx * cellSize cfg /\ height = IZR ny * cellSize cfg /\
     Forall (in_canvas width height) particles) ->
  exists f g,
    accumulate cfg width height rules particles i p
      (getNeighbors cfg width height (buildSpatialHash cfg particles) p) (0, 0) = inr f /\
    accumulate cfg width height rules particles i p (seq 0 (length particles)) (0, 0)
      = inr g /\
    f.1 = g.1 /\ f.2 = g.2.
Proof.
  intros Hm Htyped Hp Hradius Hmode.
  apply (accumulate_all_pairs cfg width height rules n); try assumption.
  - exact (proj1 (Forall_lookup _ _) Htyped _ _ Hp).
  - apply getNeighbors_NoDup.
    destruct Hmode as [Hbounce | (nx & ny & Hnx & Hny & -> & -> & Hcanvas)];
      [left; exact Hbounce | right].
    split; [exact Hradius |].
    split; [exact (proj1 (Forall_lookup _ _) Hcanvas _ _ Hp) |].
    unfold maxCellX, maxCellY. rewrite !(maxCell_whole (cellSize cfg)) by exact Hradius.
    auto.
  - apply candidates_valid.
  - intros j q Hq Hdist. apply list_elem_of_In.
    destruct (wrap cfg) eqn:Hwrap.
    + destruct Hmode as [Hbounce | (nx & ny & Hnx & Hny & -> & -> & Hcanvas)];
        [discriminate |].
      destruct (proj1 (Forall_lookup _ _) Hcanvas _ _ Hp) as [Hpx Hpy].
      destruct (proj1 (Forall_lookup _ _) Hcanvas _ _ Hq) as [Hqx Hqy].
      apply (neighbors_cover_wrap cfg nx ny particles p q j); try assumption; lia.
    + apply (neighbors_cover_bounce cfg width height particles p q j); assumption.
Qed.

Lemma hash_is_transparent_witness :
  exists f g,
    accumulate bounceCONFIG 1000 800 scenarioRules [scenarioP; scenarioQ] 0 scenarioP
      (getNeighbors bounceCONFIG 1000 800
         (buildSpatialHash bounceCONFIG [scenarioP; scenarioQ]) scenarioP) (0, 0) = inr f /\
    accumulate bounceCONFIG 1000 800 scenarioRules [scenarioP; scenarioQ] 0 scenarioP
      (seq 0 (length [scenarioP; scenarioQ])) (0, 0) = inr g /\
    f.1 = g.1 /\ f.2 = g.2.
Proof.
  apply (hash_is_transparent bounceCONFIG 1000 800 scenarioRules 6).
  - exact scenarioRules_ok.
  - unfold typed. repeat (apply Forall_cons; split; [simpl; lia |]). apply Forall_nil_2.
  - reflexivity.
  - simpl. lra.
  - left. reflexivity.
Defined.

(** * The force law through [applyForces] *)

(** ** One step of the neighbour loop *)

Lemma accumulate_self cfg width height rules particles i p rest f :
  accumulate cfg width height rules particles i p (i :: rest) f =
  accumulate cfg width height rules particles i p rest f.
Proof. cbn [accumulate]. rewrite Nat.eqb_refl. reflexivity. Qed.

Lemma accumulate_step cfg width height rules particles i p j q c :
  i <> j -> particles !! j = Some q ->
  pairForce cfg width height rules p q = inr c ->
  forall rest f,
    accumulate cfg width height rules particles i p (j :: rest) f =
    accumulate cfg width height rules particles i p rest
      match c with
      | Some g => (f.1 + g.1, f.2 + g.2)
      | None => f
      end.
Proof.
  intros Hij Hq Hc rest f. cbn [accumulate].
  destruct (Nat.eqb_spec i j) as [| _]; [contradiction |].
  unfold Js.get. rewrite Hq, Hc. reflexivity.
Qed.

(** ** Two particles *)

(** Neither particle is a candidate of the other: no force is added. *)
Lemma applyForces_blind cfg width height rules p q :
  getNeighbors cfg width height (buildSpatialHash cfg [p; q]) p = [0%nat] ->
  getNeighbors cfg width height (buildSpatialHash cfg [p; q]) q = [1%nat] ->
  applyForces cfg width height rules [p; q] = inr [addForce p 0 0; addForce q 0 0].
Proof.
  intros Hp Hq. unfold applyForces. cbn [length seq forceLoop].
  unfold forceOn at 1. cbn [Js.get lookup list_lookup].
  rewrite Hp, accumulate_self. cbn [accumulate Js.ret Js.bind fst snd].
  cbn [insert list_insert].
  unfold forceOn. cbn [Js.get lookup list_lookup].
  rewrite Hq, accumulate_self. cbn [accumulate Js.ret Js.bind fst snd].
  reflexivity.
Qed.

(** Each particle is a candidate of the other, once: each gets the force of
    the pair, computed from the positions at the start. *)
Lemma applyForces_pair cfg width height rules p q g g' :
  getNeighbors cfg width height (buildSpatialHash cfg [p; q]) p = [0%nat; 1%nat] ->
  getNeighbors cfg width height (buildSpatialHash cfg [p; q]) q = [0%nat; 1%nat] ->
  pairForce cfg width height rules p q = inr (Some g) ->
  pairForce cfg width height rules q p = inr (Some g') ->
  applyForces cfg width height rules [p; q] =
  inr [addForce p (0 + g.1) (0 + g.2); addForce q (0 + g'.1) (0 + g'.2)].
Proof.
  intros Hp Hq Hg Hg'. unfold applyForces. cbn [length seq forceLoop].
  unfold forceOn at 1. cbn [Js.get lookup list_lookup].
  rewrite Hp, accumulate_self.
  rewrite (accumulate_step cfg width height rules [p; q] 0 p 1 q (Some g))
    by (auto || exact Hg).
  cbn [accumulate Js.ret Js.bind fst snd insert list_insert].
  unfold forceOn. cbn [Js.get lookup list_lookup].
  rewrite Hq.
  rewrite (accumulate_step cfg width height rules _ 1 q 0 (addForce p (0 + g.1) (0 + g.2))
             (Some g'));
    [| auto | reflexivity
     | rewrite (pairForce_same_place cfg width height rules q _ p
                  (addForce_same_place p _ _)); exact Hg'].
  rewrite accumulate_self.
  cbn [accumulate Js.ret Js.bind fst snd insert list_insert]. reflexivity.
Qed.

Lemma cellOf_in cfg p cx cy :
  IZR cx <= x p / cellSize cfg < IZR cx + 1 ->
  IZR cy <= y p / cellSize cfg < IZR cy + 1 ->
  cellOf cfg p = (cx, cy).
Proof.
  intros Hx Hy. unfold cellOf.
  rewrite (Zfloor_eq cx), (Zfloor_eq cy) by assumption. reflexivity.
Qed.

(** Two particles of cell (1, 1) of the canvas of 1000 by 800. *)
Lemma inner_neighbors a b p :
  cellOf CONFIG a = (1, 1)%Z -> cellOf CONFIG b = (1, 1)%Z -> cellOf CONFIG p = (1, 1)%Z ->
  getNeighbors CONFIG 1000 800 (buildSpatialHash CONFIG [a; b]) p = [0%nat; 1%nat].
Proof.
  intros Ha Hb Hp. unfold buildSpatialHash. cbn [buildFrom]. rewrite Ha, Hb.
  unfold getNeighbors, neighborKey. rewrite Hp, seam_maxCellX, seam_maxCellY.
  change (wrap CONFIG) with true. cbv iota.
  vm_compute. reflexivity.
Qed.

Lemma scenarioP_cell : cellOf CONFIG scenarioP = (1, 1)%Z.
Proof. apply cellOf_in; unfold cellSize; simpl; lra. Qed.

Lemma scenarioQ_cell : cellOf CONFIG scenarioQ = (1, 1)%Z.
Proof. apply cellOf_in; unfold cellSize; simpl; lra. Qed.

Lemma closeQ_cell : cellOf CONFIG closeQ = (1, 1)%Z.
Proof. apply cellOf_in; unfold cellSize; simpl; lra. Qed.

Lemma movingP_cell : cellOf CONFIG movingP = (1, 1)%Z.
Proof. apply cellOf_in; unfold cellSize; simpl; lra. Qed.

Lemma scenario_entry : entry (matrix scenarioRules) 0 0 = Some 1.
Proof. reflexivity. Qed.

Lemma CONFIG_minDist : minDist CONFIG = 10.
Proof. unfold minDist. simpl. lra. Qed.

Lemma scenario_pairForce :
  pairForce CONFIG 1000 800 scenarioRules scenarioP scenarioQ =
  inr (Some (50 / 50 * (1 * (1 - (50 - 10) / (80 - 10)) * 1),
             0 / 50 * (1 * (1 - (50 - 10) / (80 - 10)) * 1))).
Proof.
  rewrite (pairForce_active CONFIG 1000 800 scenarioRules scenarioP scenarioQ
             [1; 0; 0; 0; 0; 0]);
    [| rewrite scenario_distance; simpl; lra | reflexivity].
  rewrite scenario_distance, scenario_separation.
  change ([1; 0; 0; 0; 0; 0] !! type scenarioQ) with (Some 1).
  rewrite forceAt_interaction by (rewrite CONFIG_minDist; simpl; lra).
  rewrite CONFIG_minDist. reflexivity.
Qed.

Lemma close_pairForce :
  pairForce CONFIG 1000 800 scenarioRules scenarioP closeQ =
  inr (Some (5 / 5 * ((5 / 10 - 1) * 1), 0 / 5 * ((5 / 10 - 1) * 1))).
Proof.
  rewrite (pairForce_active CONFIG 1000 800 scenarioRules scenarioP closeQ
             [1; 0; 0; 0; 0; 0]);
    [| rewrite close_distance; simpl; lra | reflexivity].
  rewrite close_distance, close_separation.
  rewrite forceAt_repulsion by (rewrite CONFIG_minDist; lra).
  rewrite CONFIG_minDist. reflexivity.
Qed.

Lemma wrapped_canvas width height :
  0 <= width -> 0 <= height -> wrap CONFIG = false \/ (0 <= width /\ 0 <= height).
Proof. intros Hw Hh. right. split; assumption. Qed.

(** The scenario through [applyForces]: each particle gains 3/7 towards the
    other. *)
Lemma scenario_applyForces :
  exists p' q',
    applyForces CONFIG 1000 800 scenarioRules [scenarioP; scenarioQ] = inr [p'; q'] /\
    vx p' = 1 * (1 - 40 / 70) * maxForce CONFIG /\ vy p' = 0 /\
    vx q' = - (1 * (1 - 40 / 70) * maxForce CONFIG) /\ vy q' = 0.
Proof.
  eexists _, _. split.
  - apply applyForces_pair.
    + apply inner_neighbors; [apply scenarioP_cell | apply scenarioQ_cell | apply scenarioP_cell].
    + apply inner_neighbors; [apply scenarioP_cell | apply scenarioQ_cell | apply scenarioQ_cell].
    + exact scenario_pairForce.
    + apply (pairForce_opposite CONFIG 1000 800 scenarioRules scenarioP scenarioQ 1);
        [apply wrapped_canvas; lra | exact scenario_entry | exact scenario_entry
        | exact scenario_pairForce].
  - cbn [vx vy addForce fst snd scenarioP scenarioQ constructor maxForce CONFIG].
    repeat split; lra.
Qed.

(** A pair inside the repulsion zone through [applyForces]: each particle
    gains 1/2 away from the other. *)
Lemma close_applyForces :
  exists p' q',
    applyForces CONFIG 1000 800 scenarioRules [scenarioP; closeQ] = inr [p'; q'] /\
    vx p' = (5 / 10 - 1) * maxForce CONFIG /\ vy p' = 0 /\
    vx q' = - ((5 / 10 - 1) * maxForce CONFIG) /\ vy q' = 0.
Proof.
  eexists _, _. split.
  - apply applyForces_pair.
    + apply inner_neighbors; [apply scenarioP_cell | apply closeQ_cell | apply scenarioP_cell].
    + apply inner_neighbors; [apply scenarioP_cell | apply closeQ_cell | apply closeQ_cell].
    + exact close_pairForce.
    + apply (pairForce_opposite CONFIG 1000 800 scenarioRules scenarioP closeQ 1);
        [apply wrapped_canvas; lra | exact scenario_entry | exact scenario_entry
        | exact close_pairForce].
  - cbn [vx vy addForce fst snd scenarioP closeQ constructor maxForce CONFIG].
    repeat split; lra.
Qed.

(** ** What a candidate in a zone adds *)

(** A candidate [j] of [p] in the interaction zone adds the force of
    [interaction_zone_force] to the sum of [p]. *)
Lemma interaction_zone_added cfg width height rules particles i p j q strength :
  0 < particleRadius cfg ->
  i <> j -> particles !! j = Some q ->
  (matrix rules !! type p ≫= fun row => row !! type q) = Some strength ->
  minDist cfg <= distance cfg width height p q < interactionRadius cfg ->
  forall rest f,
    accumulate cfg width height rules particles i p (j :: rest) f =
    accumulate cfg width height rules particles i p rest
      (f.1 + (separation cfg width height p q).1 / distance cfg width height p q *
             (strength * (1 - (distance cfg width height p q - minDist cfg) /
                              (interactionRadius cfg - minDist cfg)) * maxForce cfg),
       f.2 + (separation cfg width height p q).2 / distance cfg width height p q *
             (strength * (1 - (distance cfg width height p q - minDist cfg) /
                              (interactionRadius cfg - minDist cfg)) * maxForce cfg)).
Proof.
  intros Hr Hij Hq Hs Hzone rest f.
  destruct (interaction_zone_force cfg width height rules p q strength Hr Hs Hzone)
    as [Hforce _].
  rewrite (accumulate_step _ _ _ _ _ _ _ _ _ _ Hij Hq Hforce). reflexivity.
Qed.

(** A candidate [j] of [p] in the repulsion zone adds the force of
    [repulsion_zone_force] to the sum of [p]. *)
Lemma repulsion_zone_added cfg width height rules particles i p j q row :
  0 <= maxForce cfg -> minDist cfg <= interactionRadius cfg ->
  i <> j -> particles !! j = Some q ->
  matrix rules !! type p = Some row ->
  0 < distance cfg width height p q < minDist cfg ->
  forall rest f,
    accumulate cfg width height rules particles i p (j :: rest) f =
    accumulate cfg width height rules particles i p rest
      (f.1 + (separation cfg width height p q).1 / distance cfg width height p q *
             ((distance cfg width height p q / minDist cfg - 1) * maxForce cfg),
       f.2 + (separation cfg width height p q).2 / distance cfg width height p q *
             ((distance cfg width height p q / minDist cfg - 1) * maxForce cfg)).
Proof.
  intros Hmax Hmin Hij Hq Hrow Hzone rest f.
  destruct (repulsion_zone_force cfg width height rules p q row Hmax Hmin Hrow Hzone)
    as [Hforce _].
  rewrite (accumulate_step _ _ _ _ _ _ _ _ _ _ Hij Hq Hforce). reflexivity.
Qed.

(** ** A pair 4 apart across the seam of a canvas of 961 by 800 *)

Lemma near_separation : separation CONFIG 961 800 nearP nearQ = (-4, 0).
Proof.
  change (separation CONFIG 961 800 nearP nearQ)
    with (wrap_delta 961 (958 - 1), wrap_delta 800 (5 - 5)).
  unfold wrap_delta. decide_cmp. f_equal; lra.
Qed.

Lemma near_distance : distance CONFIG 961 800 nearP nearQ = 4.
Proof.
  rewrite distance_eq, near_separation. apply sqrt_axis; simpl; lra.
Qed.

Lemma nearP_cell : cellOf CONFIG nearP = (0, 0)%Z.
Proof. apply cellOf_concrete; simpl; lra. Qed.

Lemma nearQ_cell : cellOf CONFIG nearQ = (11, 0)%Z.
Proof. apply cellOf_concrete; simpl; lra. Qed.

Lemma near_maxCellX : maxCellX CONFIG 961 = 13%Z.
Proof. unfold maxCellX, cellSize. simpl. apply Zceil_eq. simpl. lra. Qed.

Lemma near_hash :
  buildSpatialHash CONFIG [nearP; nearQ] =
  <[(11, 0)%Z := [1%nat]]> (<[(0, 0)%Z := [0%nat]]> ∅).
Proof.
  unfold buildSpatialHash. cbn [buildFrom].
  rewrite nearP_cell, nearQ_cell. reflexivity.
Qed.

Lemma near_neighbors_P :
  getNeighbors CONFIG 961 800 (buildSpatialHash CONFIG [nearP; nearQ]) nearP = [0%nat].
Proof.
  rewrite near_hash. unfold getNeighbors, neighborKey.
  rewrite nearP_cell, near_maxCellX, seam_maxCellY.
  change (wrap CONFIG) with true. cbv iota.
  vm_compute. reflexivity.
Qed.

Lemma near_neighbors_Q :
  getNeighbors CONFIG 961 800 (buildSpatialHash CONFIG [nearP; nearQ]) nearQ = [1%nat].
Proof.
  rewrite near_hash. unfold getNeighbors, neighborKey.
  rewrite nearQ_cell, near_maxCellX, seam_maxCellY.
  change (wrap CONFIG) with true. cbv iota.
  vm_compute. reflexivity.
Qed.

Lemma near_pairForce :
  pairForce CONFIG 961 800 scenarioRules nearP nearQ =
  inr (Some (-4 / 4 * ((4 / 10 - 1) * 1), 0 / 4 * ((4 / 10 - 1) * 1))).
Proof.
  rewrite (pairForce_active CONFIG 961 800 scenarioRules nearP nearQ
             [1; 0; 0; 0; 0; 0]);
    [| rewrite near_distance; simpl; lra | reflexivity].
  rewrite near_distance, near_separation.
  rewrite forceAt_repulsion by (rewrite CONFIG_minDist; lra).
  rewrite CONFIG_minDist. reflexivity.
Qed.

(** C3 at the seam of a wrapped canvas.  Where each particle of a pair is a
    candidate of the other, [applyForces] adds the force of the interaction
    zone: the pair [scenarioP], [scenarioQ] of type 0 with matrix[0][0] = 1,
    50 apart in the middle of the canvas of 1000 by 800, gains
    (1 - 40/70) * maxForce each, [scenarioP] at x = 100 towards larger x and
    [scenarioQ] at x = 150 towards smaller x, so that their separation
    decreases.  The pair [seamP], [seamQ] has the same types, the same matrix
    entry and the same distance 50, in the interaction zone, across the seam
    of the same canvas: [pairForce] has the same magnitude for it, but
    neither particle is a candidate of the other and [applyForces] leaves
    both velocities at 0. *)
Theorem seam_attraction_missed :
  type seamP = 0%nat /\ type seamQ = 0%nat /\
  entry (matrix scenarioRules) 0 0 = Some 1 /\
  interactionRadius CONFIG = 80 /\ particleRadius CONFIG = 25 / 10 /\
  minDist CONFIG = 10 /\
  distance CONFIG 1000 800 seamP seamQ = 50 /\
  0 <= x seamP < 1000 /\ 0 <= y seamP < 800 /\
  0 <= x seamQ < 1000 /\ 0 <= y seamQ < 800 /\
  (exists g, pairForce CONFIG 1000 800 scenarioRules seamP seamQ = inr (Some g) /\
             g.1 = - (1 * (1 - 40 / 70) * maxForce CONFIG) /\ g.2 = 0) /\
  (exists p' q',
     applyForces CONFIG 1000 800 scenarioRules [seamP; seamQ] = inr [p'; q'] /\
     vx p' = 0 /\ vy p' = 0 /\ vx q' = 0 /\ vy q' = 0) /\
  distance CONFIG 1000 800 scenarioP scenarioQ = 50 /\
  x scenarioP < x scenarioQ /\
  (exists p' q',
     applyForces CONFIG 1000 800 scenarioRules [scenarioP; scenarioQ] = inr [p'; q'] /\
     vx p' = 1 * (1 - 40 / 70) * maxForce CONFIG /\ vy p' = 0 /\
     vx q' = - (1 * (1 - 40 / 70) * maxForce CONFIG) /\ vy q' = 0).
Proof.
  split; [reflexivity |]. split; [reflexivity |]. split; [reflexivity |].
  split; [reflexivity |]. split; [reflexivity |].
  split; [exact CONFIG_minDist |].
  split; [exact seam_distance |].
  split; [simpl; lra |]. split; [simpl; lra |].
  split; [simpl; lra |]. split; [simpl; lra |].
  split; [eexists; split; [exact seam_pairForce | simpl; split; lra] |].
  split; [eexists _, _; split; [exact seam_applyForces | simpl; repeat split; lra] |].
  split; [exact scenario_distance |].
  split; [simpl; lra |].
  exact scenario_applyForces.
Qed.

(** C4 at the seam of a wrapped canvas.  Where each particle of a pair is a
    candidate of the other, [applyForces] adds the repulsion below minDist:
    the pair [scenarioP], [closeQ], 5 apart in the middle of the canvas of
    1000 by 800, gains (5/10 - 1) * maxForce each, [scenarioP] at x = 100
    towards smaller x and [closeQ] at x = 105 towards larger x, so that they
    are pushed apart.  On a canvas of 961 by 800 the last column of cells is
    1 wide; [nearP] at x = 1 and [nearQ] at x = 958 are 4 apart across the
    seam, less than minDist = 10, and [pairForce] has the repulsion
    (4/10 - 1) * maxForce for the pair; but [nearP] reads the columns 12, 0
    and 1, [nearQ] is in column 11, and [applyForces] leaves both velocities
    at 0. *)
Theorem seam_repulsion_missed :
  minDist CONFIG = 10 /\
  distance CONFIG 961 800 nearP nearQ = 4 /\
  0 <= x nearP < 961 /\ 0 <= y nearP < 800 /\
  0 <= x nearQ < 961 /\ 0 <= y nearQ < 800 /\
  (exists g, pairForce CONFIG 961 800 scenarioRules nearP nearQ = inr (Some g) /\
             g.1 = - ((4 / 10 - 1) * maxForce CONFIG) /\ g.2 = 0) /\
  getNeighbors CONFIG 961 800 (buildSpatialHash CONFIG [nearP; nearQ]) nearP = [0%nat] /\
  getNeighbors CONFIG 961 800 (buildSpatialHash CONFIG [nearP; nearQ]) nearQ = [1%nat] /\
  (exists p' q',
     applyForces CONFIG 961 800 scenarioRules [nearP; nearQ] = inr [p'; q'] /\
     vx p' = 0 /\ vy p' = 0 /\ vx q' = 0 /\ vy q' = 0) /\
  distance CONFIG 1000 800 scenarioP closeQ = 5 /\
  x scenarioP < x closeQ /\
  (exists p' q',
     applyForces CONFIG 1000 800 scenarioRules [scenarioP; closeQ] = inr [p'; q'] /\
     vx p' = (5 / 10 - 1) * maxForce CONFIG /\ vy p' = 0 /\
     vx q' = - ((5 / 10 - 1) * maxForce CONFIG) /\ vy q' = 0).
Proof.
  split; [exact CONFIG_minDist |].
  split; [exact near_distance |].
  split; [simpl; lra |]. split; [simpl; lra |].
  split; [simpl; lra |]. split; [simpl; lra |].
  split; [eexists; split; [exact near_pairForce | simpl; split; lra] |].
  split; [exact near_neighbors_P |].
  split; [exact near_neighbors_Q |].
  split.
  { eexists _, _. split.
    - apply applyForces_blind; [exact near_neighbors_P | exact near_neighbors_Q].
    - simpl. repeat split; lra. }
  split; [exact close_distance |].
  split; [simpl; lra |].
  exact close_applyForces.
Qed.

(** ** A frame for a particle that moves and is pulled *)

Lemma pairForce_same_place_l cfg width height rules p p' other :
  same_place p p' ->
  pairForce cfg width height rules p other = pairForce cfg width height rules p' other.
Proof.
  intros (Hx & Hy & Ht). unfold pairForce, separation. rewrite Hx, Hy, Ht. reflexivity.
Qed.

Lemma movingP_place : same_place movingP scenarioP.
Proof. repeat split. Qed.

Lemma moving_pairForce :
  pairForce CONFIG 1000 800 scenarioRules movingP scenarioQ =
  inr (Some (50 / 50 * (1 * (1 - (50 - 10) / (80 - 10)) * 1),
             0 / 50 * (1 * (1 - (50 - 10) / (80 - 10)) * 1))).
Proof.
  rewrite (pairForce_same_place_l _ _ _ _ _ _ _ movingP_place).
  exact scenario_pairForce.
Qed.

Lemma moving_neighbors :
  getNeighbors CONFIG 1000 800 (buildSpatialHash CONFIG [movingP; scenarioQ]) movingP =
  [0%nat; 1%nat].
Proof.
  apply inner_neighbors; [apply movingP_cell | apply scenarioQ_cell | apply movingP_cell].
Qed.

Lemma moving_applyForces :
  applyForces CONFIG 1000 800 scenarioRules [movingP; scenarioQ] =
  inr [addForce movingP (0 + 50 / 50 * (1 * (1 - (50 - 10) / (80 - 10)) * 1))
                        (0 + 0 / 50 * (1 * (1 - (50 - 10) / (80 - 10)) * 1));
       addForce scenarioQ (0 + - (50 / 50 * (1 * (1 - (50 - 10) / (80 - 10)) * 1)))
                          (0 + - (0 / 50 * (1 * (1 - (50 - 10) / (80 - 10)) * 1)))].
Proof.
  apply (applyForces_pair CONFIG 1000 800 scenarioRules movingP scenarioQ
           (50 / 50 * (1 * (1 - (50 - 10) / (80 - 10)) * 1),
            0 / 50 * (1 * (1 - (50 - 10) / (80 - 10)) * 1))
           (- (50 / 50 * (1 * (1 - (50 - 10) / (80 - 10)) * 1)),
            - (0 / 50 * (1 * (1 - (50 - 10) / (80 - 10)) * 1)))).
  - exact moving_neighbors.
  - apply inner_neighbors; [apply movingP_cell | apply scenarioQ_cell | apply scenarioQ_cell].
  - exact moving_pairForce.
  - exact (pairForce_opposite CONFIG 1000 800 scenarioRules movingP scenarioQ 1
             (50 / 50 * (1 * (1 - (50 - 10) / (80 - 10)) * 1),
              0 / 50 * (1 * (1 - (50 - 10) / (80 - 10)) * 1))
             (wrapped_canvas 1000 800 ltac:(lra) ltac:(lra))
             scenario_entry scenario_entry moving_pairForce).
Qed.

Lemma moving_accumulate f :
  accumulate CONFIG 1000 800 scenarioRules [movingP; scenarioQ] 0 movingP
    (getNeighbors CONFIG 1000 800 (buildSpatialHash CONFIG [movingP; scenarioQ]) movingP)
    (0, 0) = inr f ->
  f.1 = 1 * (1 - 40 / 70) * 1 /\ f.2 = 0.
Proof.
  rewrite moving_neighbors, accumulate_self.
  rewrite (accumulate_step CONFIG 1000 800 scenarioRules [movingP; scenarioQ] 0 movingP 1
             scenarioQ _ (fun H => Nat.neq_succ_0 0 (eq_sym H)) eq_refl moving_pairForce).
  cbn [accumulate Js.ret fst snd]. intros [= <-]. cbn [fst snd]. split; lra.
Qed.

Lemma wrap_axis_inside extent pos : 0 <= pos < extent -> wrap_axis extent pos = pos.
Proof. intros H. unfold wrap_axis. decide_cmp. reflexivity. Qed.

(** [movingP] moves at 2 along x and is pulled by 3/7 towards [scenarioQ]:
    after the frame it is at 100 + (2 + 3/7), the velocity with the force and
    before friction, and its velocity is (2 + 3/7) / 2. *)
Lemma update_order_witness :
  exists out f,
    animate CONFIG 1000 800 scenarioRules [movingP; scenarioQ] = inr out /\
    accumulate CONFIG 1000 800 scenarioRules [movingP; scenarioQ] 0 movingP
      (getNeighbors CONFIG 1000 800 (buildSpatialHash CONFIG [movingP; scenarioQ]) movingP)
      (0, 0) = inr f /\
    f.1 = 1 * (1 - 40 / 70) * 1 /\ f.2 = 0 /\
    out !! 0%nat =
      Some (boundary CONFIG 1000 800
              {| x := x movingP + (vx movingP + f.1) * 1 * speed CONFIG;
                 y := y movingP + (vy movingP + f.2) * 1 * speed CONFIG;
                 vx := (vx movingP + f.1) * (1 - friction CONFIG * 1);
                 vy := (vy movingP + f.2) * (1 - friction CONFIG * 1);
                 type := type movingP;
                 color := color movingP |}) /\
    exists q,
      out !! 0%nat = Some q /\
      x q = 100 + (2 + 3 / 7) * 1 * 1 /\ y q = 100 /\
      vx q = (2 + 3 / 7) * (1 - 5 / 10 * 1) /\ vy q = 0.
Proof.
  assert (animate CONFIG 1000 800 scenarioRules [movingP; scenarioQ] =
          inr (map (fun particle => update CONFIG 1000 800 particle 1)
                 [addForce movingP (0 + 50 / 50 * (1 * (1 - (50 - 10) / (80 - 10)) * 1))
                                   (0 + 0 / 50 * (1 * (1 - (50 - 10) / (80 - 10)) * 1));
                  addForce scenarioQ
                    (0 + - (50 / 50 * (1 * (1 - (50 - 10) / (80 - 10)) * 1)))
                    (0 + - (0 / 50 * (1 * (1 - (50 - 10) / (80 - 10)) * 1)))]))
    as Hframe.
  { unfold animate. change (paused CONFIG) with false. cbv iota.
    rewrite moving_applyForces. reflexivity. }
  destruct (proj2 (update_order CONFIG 1000 800) scenarioRules [movingP; scenarioQ] _
              0%nat movingP eq_refl Hframe eq_refl) as (f & Hacc & Hout).
  destruct (moving_accumulate f Hacc) as [Hfx Hfy].
  eexists _, f.
  split; [exact Hframe |]. split; [exact Hacc |].
  split; [exact Hfx |]. split; [exact Hfy |].
  split; [exact Hout |].
  eexists. split; [exact Hout |].
  unfold boundary. change (wrap CONFIG) with true. cbv iota.
  cbn [x y vx vy movingP speed friction CONFIG]. rewrite Hfx, Hfy.
  rewrite !wrap_axis_inside by lra.
  repeat split; lra.
Defined.

(** ** The matrix under every operation that writes it *)

Lemma clampValue_high : clampValue (Some 5) = 1.
Proof.
  unfold clampValue, Rmax, Rmin. simpl.
  destruct (Rle_dec 1 5); [| lra]. destruct (Rle_dec (-1) 1); lra.
Qed.

Lemma clampValue_low : clampValue (Some (-5)) = -1.
Proof.
  unfold clampValue, Rmax, Rmin. simpl.
  destruct (Rle_dec 1 (-5)); [lra |]. destruct (Rle_dec (-1) (-5)); lra.
Qed.

(** C8.  With [Math.random] in [0, 1): random generation yields a square
    table of side [numTypes] with entries in [-1, 1]; so does every preset of
    the six-colour configuration; a cell write inside the table stores the
    clamped value and keeps the table square and in range; and
    [applyMatrixFromUI], which performs the manual edits, runs on the editor
    of a table that is square and in range, leaves a table that is square and
    in range, and stores in every cell (i, j) the clamp to [-1, 1] of what
    field (i, j) holds: 1 where the field holds 5 and -1 where it holds -5,
    whatever the cell was before.  The clamp of 5 is 1 and the clamp of -5 is
    -1. *)
Theorem matrix_invariant (rnd : Js.Random) (Hrnd : Js.unit_interval rnd) :
  (forall cfg k,
     matrix_ok (numTypes cfg) (matrix (generateRandomRules cfg rnd k).1)) /\
  (forall name k r k',
     setPreset CONFIG name rnd k = inr (r, k') ->
     matrix_ok (numTypes CONFIG) (matrix r)) /\
  (forall n m i j v,
     matrix_ok n m -> (i < n)%nat -> (j < n)%nat ->
     exists m',
       setCell m i j v = inr m' /\ matrix_ok n m' /\
       (m' !! i ≫= fun row => row !! j) = Some (clampValue v)) /\
  (forall cfg text rules,
     matrix_ok (numTypes cfg) (matrix rules) ->
     exists rules',
       applyMatrixFromUI (buildMatrixUI cfg text) rules = inr rules' /\
       matrix_ok (numTypes cfg) (matrix rules') /\
       forall i j, (i < numTypes cfg)%nat -> (j < numTypes cfg)%nat ->
         entry (matrix rules') i j = Some (Rmax (-1) (Rmin 1 (default 0 (text i j)))) /\
         (text i j = Some 5 -> entry (matrix rules') i j = Some 1) /\
         (text i j = Some (-5) -> entry (matrix rules') i j = Some (-1))) /\
  clampValue (Some 5) = 1 /\
  clampValue (Some (-5)) = -1.
Proof.
  split; [| split; [| split; [| split; [| split]]]].
  - intros cfg k. apply generateRandomRules_ok, Hrnd.
  - intros name k r k'. apply setPreset_ok, Hrnd.
  - intros n m i j v Hm Hi Hj.
    destruct (setCell_ok n m i j v Hm Hi Hj) as (row & Hrow & Hset & Hok).
    eexists. split; [exact Hset |]. split; [exact Hok |].
    destruct Hm as [Hlen Hrows].
    pose proof (proj1 (Forall_lookup _ _) Hrows i row Hrow) as [Hrowlen _].
    rewrite list_lookup_insert_eq by lia. simpl.
    apply list_lookup_insert_eq. lia.
  - intros cfg text rules Hm.
    destruct (editor_entries cfg text rules Hm) as (rules' & Hrun & Hok & Hentry).
    exists rules'. split; [exact Hrun |]. split; [exact Hok |].
    intros i j Hi Hj. split; [exact (Hentry i j Hi Hj) |]. split; intros Htext.
    + rewrite (Hentry i j Hi Hj), Htext, clampValue_high. reflexivity.
    + rewrite (Hentry i j Hi Hj), Htext, clampValue_low. reflexivity.
  - exact clampValue_high.
  - exact clampValue_low.
Qed.

(** The editor of the six-colour table with -5 typed on the diagonal and 5
    elsewhere, applied to [scenarioRules], whose cell (0, 0) is 1 and whose
    cell (0, 1) is 0: cell (0, 0) becomes -1 and cell (0, 1) becomes 1. *)
Lemma matrix_invariant_witness :
  Js.unit_interval (fun _ => 1 / 2) /\
  matrix_ok (numTypes CONFIG)
    (matrix (generateRandomRules CONFIG (fun _ => 1 / 2) 0).1) /\
  entry (matrix scenarioRules) 0 0 = Some 1 /\
  entry (matrix scenarioRules) 0 1 = Some 0 /\
  exists rules',
    applyMatrixFromUI
      (buildMatrixUI CONFIG (fun i j => if Nat.eqb i j then Some (-5) else Some 5))
      scenarioRules = inr rules' /\
    matrix_ok (numTypes CONFIG) (matrix rules') /\
    entry (matrix rules') 0 0 = Some (-1) /\
    entry (matrix rules') 0 1 = Some 1.
Proof.
  assert (Js.unit_interval (fun _ => 1 / 2)) as Hrnd by (intros n; lra).
  destruct (matrix_invariant (fun _ => 1 / 2) Hrnd)
    as (Hrandom & _ & _ & Heditor & _ & _).
  split; [exact Hrnd |].
  split; [exact (Hrandom CONFIG 0%nat) |].
  split; [reflexivity |]. split; [reflexivity |].
  destruct (Heditor CONFIG (fun i j => if Nat.eqb i j then Some (-5) else Some 5)
              scenarioRules scenarioRules_CONFIG)
    as (rules' & Hrun & Hok & Hentry).
  exists rules'. split; [exact Hrun |]. split; [exact Hok |]. split.
  - apply (Hentry 0%nat 0%nat); [cbn; lia | cbn; lia | reflexivity].
  - apply (Hentry 0%nat 1%nat); [cbn; lia | cbn; lia | reflexivity].
Defined.

(** ** Frames in a row *)

Lemma update_type cfg width height p dt : type (update cfg width height p dt) = type p.
Proof.
  unfold update, boundary. destruct (wrap cfg); [reflexivity |].
  cbn [integrate x y vx vy].
  destruct (bounce_axis _ _ _), (bounce_axis _ _ _). reflexivity.
Qed.

Lemma same_types_refl particles : same_types particles particles.
Proof. unfold same_types. induction particles; constructor; auto. Qed.

Lemma same_types_trans a b c : same_types a b -> same_types b c -> same_types a c.
Proof.
  unfold same_types. intros Hab. revert c.
  induction Hab as [| q p out ps Hqp _ IH]; intros c Hbc; inversion Hbc; subst;
    constructor; [congruence | auto].
Qed.

Lemma same_types_typed n out particles :
  same_types out particles -> typed n particles -> typed n out.
Proof.
  unfold same_types, typed. intros Hsame.
  induction Hsame as [| q p out ps Hqp _ IH]; intros Htyped; [constructor |].
  inversion Htyped; subst. constructor; [lia | auto].
Qed.

Lemma same_types_lookup out particles i p :
  same_types out particles -> particles !! i = Some p ->
  exists q, out !! i = Some q /\ type q = type p.
Proof.
  intros Hsame Hp.
  destruct (Forall2_lookup_r _ _ _ _ _ Hsame Hp) as (q & Hq & Htype).
  exists q. split; [exact Hq | exact Htype].
Qed.

Lemma animate_same_types cfg width height rules particles out :
  animate cfg width height rules particles = inr out -> same_types out particles.
Proof.
  unfold animate. destruct (paused cfg).
  { intros [= <-]. apply same_types_refl. }
  destruct (applyForces cfg width height rules particles) as [e | forced] eqn:Hforces;
    [discriminate |].
  cbn [Js.bind Js.ret]. intros [= <-].
  pose proof (applyForces_same_place _ _ _ _ _ _ Hforces) as Hsame.
  unfold same_types. clear Hforces.
  induction Hsame as [| q p forced ps (_ & _ & Htype) _ IH]; cbn [map]; constructor.
  - rewrite update_type. exact Htype.
  - exact IH.
Qed.

Lemma frames_total cfg width height rules n count :
  square n (matrix rules) ->
  forall particles, typed n particles ->
  exists out,
    frames cfg width height count rules particles = inr out /\
    same_types out particles.
Proof.
  intros Hm.
  induction count as [| count IH]; intros particles Htyped; cbn [frames].
  - exists particles. split; [reflexivity | apply same_types_refl].
  - destruct (animate_total cfg width height rules n particles Hm Htyped)
      as (next & Hnext & Htyped' & _).
    rewrite Hnext. cbn [Js.bind].
    destruct (IH next Htyped') as (out & Hout & Hsame).
    exists out. split; [exact Hout |].
    exact (same_types_trans _ _ _ Hsame (animate_same_types _ _ _ _ _ _ Hnext)).
Qed.

(** X6.  With a square matrix of side [n], whatever its entries, and
    particles of the first [n] types, any number of frames in a row runs
    without a TypeError, a NaN or a division by zero, and leaves as many
    particles, each of the type it had and so still of the first [n]
    types. *)
Theorem frames_never_throw (cfg : Config) (width height : R) (rules : Rules)
    (n count : nat) (particles : list Particle) :
  square n (matrix rules) -> typed n particles ->
  exists out,
    frames cfg width height count rules particles = inr out /\
    typed n out /\ length out = length particles /\
    forall i p, particles !! i = Some p ->
      exists q, out !! i = Some q /\ type q = type p.
Proof.
  intros Hm Htyped.
  destruct (frames_total cfg width height rules n count Hm particles Htyped)
    as (out & Hout & Hsame).
  exists out. split; [exact Hout |].
  split; [exact (same_types_typed n _ _ Hsame Htyped) |].
  split; [exact (Forall2_length _ _ _ Hsame) |].
  intros i p Hp. exact (same_types_lookup _ _ _ _ Hsame Hp).
Qed.

(** A table of six rows of six entries outside [-1, 1], and two particles of
    different types that pull each other. *)
Lemma wideRules_square : square 6 (matrix wideRules).
Proof.
  split; [reflexivity |].
  repeat (apply Forall_cons; split; [reflexivity |]). apply Forall_nil_2.
Qed.

Lemma mixed_typed : typed 6 [scenarioP; otherQ].
Proof. unfold typed. repeat (apply Forall_cons; split; [simpl; lia |]). apply Forall_nil_2. Qed.

Lemma frames_never_throw_witness :
  exists out,
    frames CONFIG 1000 800 3 wideRules [scenarioP; otherQ] = inr out /\
    typed 6 out /\ length out = length [scenarioP; otherQ] /\
    forall i p, [scenarioP; otherQ] !! i = Some p ->
      exists q, out !! i = Some q /\ type q = type p.
Proof.
  apply (frames_never_throw CONFIG 1000 800 wideRules 6 3 [scenarioP; otherQ]);
    [exact wideRules_square | exact mixed_typed].
Defined.

(** ** What [applyForces] adds to a particle *)

Lemma applyForces_total cfg width height rules n particles :
  square n (matrix rules) -> typed n particles ->
  exists out, applyForces cfg width height rules particles = inr out.
Proof.
  intros Hm Htyped. unfold applyForces.
  exact (forceLoop_total cfg width height rules n particles Hm Htyped
           (length particles) 0%nat particles
           (Forall2_same_place_refl particles) (fun _ _ => eq_refl) (le_n _)).
Qed.

(** On a well-formed state [applyForces] adds to the velocity of every
    particle the sum of the contributions of its candidates, in the order and
    with the repetitions of [getNeighbors]. *)
Lemma applyForces_candidates cfg width height rules n particles :
  matrix_ok n (matrix rules) -> typed n particles ->
  exists out,
    applyForces cfg width height rules particles = inr out /\
    forall i p, particles !! i = Some p ->
      exists f,
        out !! i = Some (addForce p f.1 f.2) /\
        f.1 = (sum_pairs (contribution cfg width height rules particles i p <$>
                 getNeighbors cfg width height (buildSpatialHash cfg particles) p)).1 /\
        f.2 = (sum_pairs (contribution cfg width height rules particles i p <$>
                 getNeighbors cfg width height (buildSpatialHash cfg particles) p)).2.
Proof.
  intros Hm Htyped.
  destruct (applyForces_total cfg width height rules n particles
              (matrix_ok_square _ _ Hm) Htyped) as [out Hout].
  exists out. split; [exact Hout |].
  intros i p Hp.
  destruct (applyForces_snapshot cfg width height rules particles out i p Hout Hp)
    as (f & Hacc & Hi).
  exists f. split; [exact Hi |].
  destruct (accumulate_sum cfg width height rules n particles i p Hm Htyped
              (proj1 (Forall_lookup _ _) Htyped _ _ Hp)
              (getNeighbors cfg width height (buildSpatialHash cfg particles) p) (0, 0)
              (candidates_valid cfg width height particles p))
    as (f' & Hacc' & H1 & H2).
  assert (f' = f) as -> by congruence.
  cbn [fst snd] in H1, H2. split; lra.
Qed.

(** Where the candidates hold every particle closer than the interaction
    radius. *)
Lemma neighbors_cover cfg width height particles i p :
  particles !! i = Some p ->
  0 < interactionRadius cfg ->
  wrap cfg = false \/
  (exists nx ny, (3 <= nx)%Z /\ (3 <= ny)%Z /\
     width = IZR nx * cellSize cfg /\ height = IZR ny * cellSize cfg /\
     Forall (in_canvas width height) particles) ->
  forall j q, particles !! j = Some q ->
    distance cfg width height p q < interactionRadius cfg ->
    j ∈ getNeighbors cfg width height (buildSpatialHash cfg particles) p.
Proof.
  intros Hp Hradius Hmode j q Hq Hdist. apply list_elem_of_In.
  destruct (wrap cfg) eqn:Hwrap.
  - destruct Hmode as [Hbounce | (nx & ny & Hnx & Hny & -> & -> & Hcanvas)];
      [discriminate |].
    destruct (proj1 (Forall_lookup _ _) Hcanvas _ _ Hp) as [Hpx Hpy].
    destruct (proj1 (Forall_lookup _ _) Hcanvas _ _ Hq) as [Hqx Hqy].
    apply (neighbors_cover_wrap cfg nx ny particles p q j); try assumption; lia.
  - apply (neighbors_cover_bounce cfg width height particles p q j); assumption.
Qed.

Lemma whole_canvas_NoDup cfg width height particles i p :
  particles !! i = Some p ->
  0 < interactionRadius cfg ->
  wrap cfg = false \/
  (exists nx ny, (3 <= nx)%Z /\ (3 <= ny)%Z /\
     width = IZR nx * cellSize cfg /\ height = IZR ny * cellSize cfg /\
     Forall (in_canvas width height) particles) ->
  NoDup (getNeighbors cfg width height (buildSpatialHash cfg particles) p).
Proof.
  intros Hp Hradius Hmode. apply getNeighbors_NoDup.
  destruct Hmode as [Hbounce | (nx & ny & Hnx & Hny & -> & -> & Hcanvas)];
    [left; exact Hbounce | right].
  split; [exact Hradius |].
  split; [exact (proj1 (Forall_lookup _ _) Hcanvas _ _ Hp) |].
  unfold maxCellX, maxCellY. rewrite !(maxCell_whole (cellSize cfg)) by exact Hradius.
  auto.
Qed.

(** Where the candidates cover the neighbours, once each, [applyForces] adds
    to the velocity of every particle the sum of the contributions of all
    particles. *)
Lemma applyForces_all_pairs cfg width height rules n particles :
  matrix_ok n (matrix rules) -> typed n particles ->
  0 < interactionRadius cfg ->
  wrap cfg = false \/
  (exists nx ny, (3 <= nx)%Z /\ (3 <= ny)%Z /\
     width = IZR nx * cellSize cfg /\ height = IZR ny * cellSize cfg /\
     Forall (in_canvas width height) particles) ->
  exists out,
    applyForces cfg width height rules particles = inr out /\
    forall i p, particles !! i = Some p ->
      exists f,
        out !! i = Some (addForce p f.1 f.2) /\
        f.1 = (sum_pairs (contribution cfg width height rules particles i p <$>
                 seq 0 (length particles))).1 /\
        f.2 = (sum_pairs (contribution cfg width height rules particles i p <$>
                 seq 0 (length particles))).2.
Proof.
  intros Hm Htyped Hradius Hmode.
  destruct (applyForces_total cfg width height rules n particles
              (matrix_ok_square _ _ Hm) Htyped) as [out Hout].
  exists out. split; [exact Hout |].
  intros i p Hp.
  destruct (applyForces_snapshot cfg width height rules particles out i p Hout Hp)
    as (f & Hacc & Hi).
  exists f. split; [exact Hi |].
  pose proof (proj1 (Forall_lookup _ _) Htyped _ _ Hp) as Htype.
  destruct (accumulate_all_pairs cfg width height rules n particles i p
              (getNeighbors cfg width height (buildSpatialHash cfg particles) p)
              Hm Htyped Htype
              (whole_canvas_NoDup cfg width height particles i p Hp Hradius Hmode)
              (candidates_valid cfg width height particles p)
              (neighbors_cover cfg width height particles i p Hp Hradius Hmode))
    as (f' & g & Hacc' & Hall & H1 & H2).
  assert (f' = f) as -> by congruence.
  assert (Forall (fun j => is_Some (particles !! j)) (seq 0 (length particles))) as Hvalid.
  { apply Forall_forall. intros j Hj. apply elem_of_seq in Hj.
    apply lookup_lt_is_Some_2. lia. }
  destruct (accumulate_sum cfg width height rules n particles i p Hm Htyped Htype
              (seq 0 (length particles)) (0, 0) Hvalid) as (g' & Hall' & H3 & H4).
  assert (g' = g) as -> by congruence.
  cbn [fst snd] in H3, H4. split; lra.
Qed.

(** With the same strength in both orders the contributions of a pair are
    opposite. *)
Lemma contribution_opposite cfg width height rules n particles i j p q s :
  matrix_ok n (matrix rules) -> typed n particles ->
  wrap cfg = false \/ (0 <= width /\ 0 <= height) ->
  particles !! i = Some p -> particles !! j = Some q ->
  entry (matrix rules) (type p) (type q) = Some s ->
  entry (matrix rules) (type q) (type p) = Some s ->
  (contribution cfg width height rules particles j q i).1 =
    - (contribution cfg width height rules particles i p j).1 /\
  (contribution cfg width height rules particles j q i).2 =
    - (contribution cfg width height rules particles i p j).2.
Proof.
  intros Hm Htyped Hmode Hp Hq Hpq Hqp. unfold contribution.
  rewrite (Nat.eqb_sym j i).
  destruct (i =? j)%nat; [cbn [fst snd]; split; lra |].
  rewrite Hp, Hq.
  pose proof (proj1 (Forall_lookup _ _) Htyped _ _ Hp) as Htp.
  pose proof (proj1 (Forall_lookup _ _) Htyped _ _ Hq) as Htq.
  destruct (pairForce_total cfg width height rules n p q (matrix_ok_square _ _ Hm) Htp Htq)
    as [c Hc].
  destruct (pairForce_total cfg width height rules n q p (matrix_ok_square _ _ Hm) Htq Htp)
    as [c' Hc'].
  destruct c as [g |].
  - rewrite (pairForce_opposite cfg width height rules p q s g Hmode Hpq Hqp Hc), Hc.
    cbn [fst snd]. split; reflexivity.
  - destruct c' as [g' |].
    + rewrite (pairForce_opposite cfg width height rules q p s g' Hmode Hqp Hpq Hc') in Hc.
      discriminate.
    + rewrite Hc, Hc'. cbn [fst snd]. split; lra.
Qed.

Lemma whole_canvas_extent cfg width height particles :
  0 < interactionRadius cfg ->
  wrap cfg = false \/
  (exists nx ny, (3 <= nx)%Z /\ (3 <= ny)%Z /\
     width = IZR nx * cellSize cfg /\ height = IZR ny * cellSize cfg /\
     Forall (in_canvas width height) particles) ->
  wrap cfg = false \/ (0 <= width /\ 0 <= height).
Proof.
  intros Hradius [Hbounce | (nx & ny & Hnx & Hny & -> & -> & _)]; [left; exact Hbounce |].
  right. unfold cellSize.
  assert (3 <= IZR nx) by (apply (IZR_le 3); exact Hnx).
  assert (3 <= IZR ny) by (apply (IZR_le 3); exact Hny).
  split; nra.
Qed.

(** X8.  On a well-formed state where the candidates cover the neighbours
    once each (bounce mode, or wrap mode with a canvas of a whole number of
    cells, at least three each way, that holds all particles), [applyForces]
    adds to the velocity of every particle the sum, over all particles, of
    what each one contributes to it; and for two particles with the same
    matrix strength in both orders, what the second contributes to the first
    and what the first contributes to the second are opposite vectors. *)
Theorem pair_forces_opposite (cfg : Config) (width height : R) (rules : Rules)
    (n : nat) (particles : list Particle) :
  matrix_ok n (matrix rules) -> typed n particles ->
  0 < interactionRadius cfg ->
  wrap cfg = false \/
  (exists nx ny, (3 <= nx)%Z /\ (3 <= ny)%Z /\
     width = IZR nx * cellSize cfg /\ height = IZR ny * cellSize cfg /\
     Forall (in_canvas width height) particles) ->
  (exists out,
     applyForces cfg width height rules particles = inr out /\
     forall i p, particles !! i = Some p ->
       exists f,
         out !! i = Some (addForce p f.1 f.2) /\
         f.1 = (sum_pairs (contribution cfg width height rules particles i p <$>
                  seq 0 (length particles))).1 /\
         f.2 = (sum_pairs (contribution cfg width height rules particles i p <$>
                  seq 0 (length particles))).2) /\
  (forall i j p q s,
     particles !! i = Some p -> particles !! j = Some q ->
     entry (matrix rules) (type p) (type q) = Some s ->
     entry (matrix rules) (type q) (type p) = Some s ->
     (contribution cfg width height rules particles j q i).1 =
       - (contribution cfg width height rules particles i p j).1 /\
     (contribution cfg width height rules particles j q i).2 =
       - (contribution cfg width height rules particles i p j).2).
Proof.
  intros Hm Htyped Hradius Hmode. split.
  - exact (applyForces_all_pairs cfg width height rules n particles Hm Htyped Hradius Hmode).
  - intros i j p q s.
    exact (contribution_opposite cfg width height rules n particles i j p q s Hm Htyped
             (whole_canvas_extent cfg width height particles Hradius Hmode)).
Qed.

Lemma scenario_separation_whole : separation CONFIG 960 800 scenarioP scenarioQ = (50, 0).
Proof.
  change (separation CONFIG 960 800 scenarioP scenarioQ)
    with (wrap_delta 960 (150 - 100), wrap_delta 800 (100 - 100)).
  unfold wrap_delta. decide_cmp. f_equal; lra.
Qed.

Lemma scenario_distance_whole : distance CONFIG 960 800 scenarioP scenarioQ = 50.
Proof.
  rewrite distance_eq, scenario_separation_whole. apply sqrt_axis; simpl; lra.
Qed.

Lemma scenario_pairForce_whole :
  pairForce CONFIG 960 800 scenarioRules scenarioP scenarioQ =
  inr (Some (50 / 50 * (1 * (1 - (50 - 10) / (80 - 10)) * 1),
             0 / 50 * (1 * (1 - (50 - 10) / (80 - 10)) * 1))).
Proof.
  rewrite (pairForce_active CONFIG 960 800 scenarioRules scenarioP scenarioQ
             [1; 0; 0; 0; 0; 0]);
    [| rewrite scenario_distance_whole; simpl; lra | reflexivity].
  rewrite scenario_distance_whole, scenario_separation_whole.
  change ([1; 0; 0; 0; 0; 0] !! type scenarioQ) with (Some 1).
  rewrite forceAt_interaction by (rewrite CONFIG_minDist; simpl; lra).
  rewrite CONFIG_minDist. reflexivity.
Qed.

Lemma scenario_typed : typed 6 [scenarioP; scenarioQ].
Proof. unfold typed. repeat (apply Forall_cons; split; [simpl; lia |]). apply Forall_nil_2. Qed.

Lemma scenario_in_whole_canvas :
  exists nx ny, (3 <= nx)%Z /\ (3 <= ny)%Z /\
    960 = IZR nx * cellSize CONFIG /\ 800 = IZR ny * cellSize CONFIG /\
    Forall (in_canvas 960 800) [scenarioP; scenarioQ].
Proof.
  exists 12%Z, 10%Z. split; [lia |]. split; [lia |].
  split; [unfold cellSize; simpl; lra |]. split; [unfold cellSize; simpl; lra |].
  repeat (apply Forall_cons; split; [unfold in_canvas; simpl; lra |]). apply Forall_nil_2.
Qed.

(** The scenario on a wrapped canvas of 12 by 10 cells: [scenarioQ]
    contributes 3/7 along x to [scenarioP]. *)
Lemma pair_forces_opposite_witness :
  ((exists out,
      applyForces CONFIG 960 800 scenarioRules [scenarioP; scenarioQ] = inr out /\
      forall i p, [scenarioP; scenarioQ] !! i = Some p ->
        exists f,
          out !! i = Some (addForce p f.1 f.2) /\
          f.1 = (sum_pairs
                   (contribution CONFIG 960 800 scenarioRules [scenarioP; scenarioQ] i p <$>
                    seq 0 (length [scenarioP; scenarioQ]))).1 /\
          f.2 = (sum_pairs
                   (contribution CONFIG 960 800 scenarioRules [scenarioP; scenarioQ] i p <$>
                    seq 0 (length [scenarioP; scenarioQ]))).2) /\
   (forall i j p q s,
      [scenarioP; scenarioQ] !! i = Some p -> [scenarioP; scenarioQ] !! j = Some q ->
      entry (matrix scenarioRules) (type p) (type q) = Some s ->
      entry (matrix scenarioRules) (type q) (type p) = Some s ->
      (contribution CONFIG 960 800 scenarioRules [scenarioP; scenarioQ] j q i).1 =
        - (contribution CONFIG 960 800 scenarioRules [scenarioP; scenarioQ] i p j).1 /\
      (contribution CONFIG 960 800 scenarioRules [scenarioP; scenarioQ] j q i).2 =
        - (contribution CONFIG 960 800 scenarioRules [scenarioP; scenarioQ] i p j).2)) /\
  (contribution CONFIG 960 800 scenarioRules [scenarioP; scenarioQ] 0 scenarioP 1).1 =
    1 * (1 - 40 / 70) * 1 /\
  (contribution CONFIG 960 800 scenarioRules [scenarioP; scenarioQ] 1 scenarioQ 0).1 =
    - (1 * (1 - 40 / 70) * 1).
Proof.
  pose proof (pair_forces_opposite CONFIG 960 800 scenarioRules 6 [scenarioP; scenarioQ]
                scenarioRules_ok scenario_typed ltac:(simpl; lra)
                (or_intror scenario_in_whole_canvas)) as Hpair.
  split; [exact Hpair |].
  assert ((contribution CONFIG 960 800 scenarioRules [scenarioP; scenarioQ] 0 scenarioP 1).1 =
          1 * (1 - 40 / 70) * 1) as Hfirst.
  { unfold contribution. cbn [Nat.eqb lookup list_lookup].
    rewrite scenario_pairForce_whole. cbn [fst]. lra. }
  split; [exact Hfirst |].
  destruct Hpair as [_ Hopposite].
  destruct (Hopposite 0%nat 1%nat scenarioP scenarioQ 1 eq_refl eq_refl
              scenario_entry scenario_entry) as [Hx _].
  rewrite Hx, Hfirst. reflexivity.
Defined.

(** ** The length of what is added *)

Lemma magnitude_nonneg g : 0 <= magnitude g.
Proof. apply sqrt_pos. Qed.

Lemma magnitude_zero : magnitude (0, 0) = 0.
Proof.
  unfold magnitude. cbn [fst snd].
  replace (0 * 0 + 0 * 0) with 0 by lra. apply sqrt_0.
Qed.

Lemma magnitude_square g : magnitude g * magnitude g = g.1 * g.1 + g.2 * g.2.
Proof. unfold magnitude. apply sqrt_sqrt. nra. Qed.

Lemma magnitude_triangle a b :
  magnitude (a.1 + b.1, a.2 + b.2) <= magnitude a + magnitude b.
Proof.
  pose proof (magnitude_nonneg a) as Ha. pose proof (magnitude_nonneg b) as Hb.
  pose proof (magnitude_square a) as Hqa. pose proof (magnitude_square b) as Hqb.
  set (A := magnitude a) in *. set (B := magnitude b) in *.
  assert (a.1 * b.1 + a.2 * b.2 <= A * B) as Hdot.
  { assert ((a.1 * b.1 + a.2 * b.2) * (a.1 * b.1 + a.2 * b.2) <= (A * B) * (A * B))
      as Hsq.
    { replace ((A * B) * (A * B)) with ((A * A) * (B * B)) by ring.
      rewrite Hqa, Hqb.
      pose proof (Rle_0_sqr (a.1 * b.2 - a.2 * b.1)) as Hcross. unfold Rsqr in Hcross.
      lra. }
    assert (0 <= A * B) as Hab by (apply Rmult_le_pos; assumption).
    destruct (Rle_dec (a.1 * b.1 + a.2 * b.2) 0) as [Hneg | Hpos]; [lra |].
    apply Rnot_le_lt in Hpos.
    destruct (Rle_dec (a.1 * b.1 + a.2 * b.2) (A * B)) as [Hle | Hgt]; [exact Hle |].
    apply Rnot_le_lt in Hgt.
    pose proof (Rmult_le_0_lt_compat _ _ _ _ Hab Hab Hgt Hgt). lra. }
  unfold magnitude at 1. cbn [fst snd].
  rewrite <- (sqrt_square (A + B)) by lra.
  apply sqrt_le_1_alt.
  replace ((A + B) * (A + B)) with (A * A + B * B + 2 * (A * B)) by ring.
  rewrite Hqa, Hqb. lra.
Qed.

Lemma magnitude_components f g : f.1 = g.1 -> f.2 = g.2 -> magnitude f = magnitude g.
Proof. intros H1 H2. unfold magnitude. rewrite H1, H2. reflexivity. Qed.

Lemma contribution_self cfg width height rules particles i p :
  contribution cfg width height rules particles i p i = (0, 0).
Proof. unfold contribution. rewrite Nat.eqb_refl. reflexivity. Qed.

Lemma contribution_bounded cfg width height rules n particles i p j :
  0 <= maxForce cfg ->
  matrix_ok n (matrix rules) -> typed n particles -> (type p < n)%nat ->
  magnitude (contribution cfg width height rules particles i p j) <= maxForce cfg.
Proof.
  intros Hmax Hm Htyped Hp. unfold contribution.
  destruct (i =? j)%nat; [rewrite magnitude_zero; exact Hmax |].
  destruct (particles !! j) as [q |] eqn:Hq; [| rewrite magnitude_zero; exact Hmax].
  destruct (pairForce cfg width height rules p q) as [e | [g |]] eqn:Hg;
    try (rewrite magnitude_zero; exact Hmax).
  apply (pairForce_bounded cfg width height rules n p q g Hmax Hm Hp); [| exact Hg].
  exact (proj1 (Forall_lookup _ _) Htyped _ _ Hq).
Qed.

(** A sum of contributions is no longer than maxForce times the number of
    indices other than [i] in the list. *)
Lemma sum_bounded cfg width height rules n particles i p :
  0 <= maxForce cfg ->
  matrix_ok n (matrix rules) -> typed n particles -> (type p < n)%nat ->
  forall l,
    magnitude (sum_pairs (contribution cfg width height rules particles i p <$> l)) <=
    INR (length (filter (fun j => j <> i) l)) * maxForce cfg.
Proof.
  intros Hmax Hm Htyped Hp. induction l as [| j l IH].
  - cbn [fmap list_fmap]. rewrite sum_pairs_nil, magnitude_zero. cbn. lra.
  - cbn [fmap list_fmap]. rewrite sum_pairs_cons.
    destruct (decide (j = i)) as [-> | Hne].
    + rewrite filter_cons_False by (intros H; apply H; reflexivity).
      rewrite contribution_self. cbn [fst snd].
      erewrite magnitude_components; [exact IH | cbn [fst snd]; lra | cbn [fst snd]; lra].
    + rewrite filter_cons_True by exact Hne. cbn [length]. rewrite S_INR.
      pose proof (magnitude_triangle
                    (contribution cfg width height rules particles i p j)
                    (sum_pairs (contribution cfg width height rules particles i p <$> l)))
        as Htri.
      pose proof (contribution_bounded cfg width height rules n particles i p j
                    Hmax Hm Htyped Hp) as Hone.
      lra.
Qed.

(** Distinct indices of [particles] other than [i]: there are fewer than
    there are particles. *)
Lemma others_count (count i : nat) (l : list nat) :
  (i < count)%nat -> NoDup l -> (forall j, j ∈ l -> (j < count)%nat) ->
  (length (filter (fun j => j <> i) l) <= count - 1)%nat.
Proof.
  intros Hi Hnodup Hvalid.
  assert (i ∈ seq 0 count) as Hin by (apply elem_of_seq; lia).
  apply list_elem_of_split in Hin as (l1 & l2 & Hsplit).
  assert (NoDup (l1 ++ i :: l2)) as Hseq by (rewrite <- Hsplit; apply NoDup_seq).
  assert (length (l1 ++ l2) = (count - 1)%nat) as Hlen.
  { pose proof (f_equal length Hsplit) as Hl.
    rewrite length_seq, length_app in Hl. cbn [length] in Hl.
    rewrite length_app. lia. }
  rewrite <- Hlen. apply submseteq_length, NoDup_submseteq.
  - apply NoDup_filter, Hnodup.
  - intros j Hj. apply list_elem_of_filter in Hj as [Hne Hj].
    assert (j ∈ seq 0 count) as Hjseq by (apply elem_of_seq; specialize (Hvalid j Hj); lia).
    rewrite Hsplit in Hjseq. rewrite elem_of_app in *. rewrite elem_of_cons in Hjseq.
    destruct Hjseq as [? | [? | ?]]; [left; assumption | contradiction | right; assumption].
Qed.

(** X9.  Where no candidate is listed twice (bounce mode, or wrap mode with
    all particles in the canvas and a grid of at least three cells each way),
    with strengths in [-1, 1] and maxForce not negative: [applyForces] adds
    to the velocity of a particle the sum of the contributions of its
    candidates, none of them longer than maxForce and none counted twice, so
    that what is added is no longer than maxForce times the number of the
    other particles. *)
Theorem pair_force_bounded (cfg : Config) (width height : R) (rules : Rules)
    (n : nat) (particles : list Particle) :
  0 <= maxForce cfg ->
  matrix_ok n (matrix rules) -> typed n particles ->
  wrap cfg = false \/
  (0 < interactionRadius cfg /\ Forall (in_canvas width height) particles /\
   (3 <= maxCellX cfg width)%Z /\ (3 <= maxCellY cfg height)%Z) ->
  exists out,
    applyForces cfg width height rules particles = inr out /\
    forall i p, particles !! i = Some p ->
      exists f,
        out !! i = Some (addForce p f.1 f.2) /\
        f.1 = (sum_pairs (contribution cfg width height rules particles i p <$>
                 getNeighbors cfg width height (buildSpatialHash cfg particles) p)).1 /\
        f.2 = (sum_pairs (contribution cfg width height rules particles i p <$>
                 getNeighbors cfg width height (buildSpatialHash cfg particles) p)).2 /\
        NoDup (getNeighbors cfg width height (buildSpatialHash cfg particles) p) /\
        (forall j,
           magnitude (contribution cfg width height rules particles i p j) <= maxForce cfg) /\
        magnitude f <= INR (length particles - 1) * maxForce cfg.
Proof.
  intros Hmax Hm Htyped Hmode.
  destruct (applyForces_candidates cfg width height rules n particles Hm Htyped)
    as (out & Hout & Hsum).
  exists out. split; [exact Hout |].
  intros i p Hp. destruct (Hsum i p Hp) as (f & Hi & H1 & H2).
  pose proof (proj1 (Forall_lookup _ _) Htyped _ _ Hp) as Htype.
  assert (NoDup (getNeighbors cfg width height (buildSpatialHash cfg particles) p))
    as Hnodup.
  { apply getNeighbors_NoDup.
    destruct Hmode as [Hbounce | (Hradius & Hcanvas & HX & HY)]; [left; exact Hbounce |].
    right. split; [exact Hradius |].
    split; [exact (proj1 (Forall_lookup _ _) Hcanvas _ _ Hp) |]. split; assumption. }
  exists f. split; [exact Hi |]. split; [exact H1 |]. split; [exact H2 |].
  split; [exact Hnodup |]. split.
  - intros j. exact (contribution_bounded cfg width height rules n particles i p j
                       Hmax Hm Htyped Htype).
  - rewrite (magnitude_components f _ H1 H2).
    eapply Rle_trans; [apply (sum_bounded cfg width height rules n particles i p
                                 Hmax Hm Htyped Htype) |].
    apply Rmult_le_compat_r; [exact Hmax |]. apply le_INR.
    apply others_count; [apply lookup_lt_Some in Hp; exact Hp | exact Hnodup |].
    intros j Hj.
    pose proof (proj1 (Forall_forall _ _)
                  (candidates_valid cfg width height particles p) j Hj) as Hsome.
    apply lookup_lt_is_Some_1 in Hsome. exact Hsome.
Qed.

Lemma scenario_in_canvas : Forall (in_canvas 1000 800) [scenarioP; scenarioQ].
Proof.
  repeat (apply Forall_cons; split; [unfold in_canvas; simpl; lra |]). apply Forall_nil_2.
Qed.

(** The scenario on the canvas of 1000 by 800: 3/7 is added to the velocity
    of [scenarioP], which is less than maxForce = 1. *)
Lemma pair_force_bounded_witness :
  exists out,
    applyForces CONFIG 1000 800 scenarioRules [scenarioP; scenarioQ] = inr out /\
    forall i p, [scenarioP; scenarioQ] !! i = Some p ->
      exists f,
        out !! i = Some (addForce p f.1 f.2) /\
        f.1 = (sum_pairs
                 (contribution CONFIG 1000 800 scenarioRules [scenarioP; scenarioQ] i p <$>
                  getNeighbors CONFIG 1000 800
                    (buildSpatialHash CONFIG [scenarioP; scenarioQ]) p)).1 /\
        f.2 = (sum_pairs
                 (contribution CONFIG 1000 800 scenarioRules [scenarioP; scenarioQ] i p <$>
                  getNeighbors CONFIG 1000 800
                    (buildSpatialHash CONFIG [scenarioP; scenarioQ]) p)).2 /\
        NoDup (getNeighbors CONFIG 1000 800
                 (buildSpatialHash CONFIG [scenarioP; scenarioQ]) p) /\
        (forall j,
           magnitude (contribution CONFIG 1000 800 scenarioRules [scenarioP; scenarioQ] i p j)
           <= maxForce CONFIG) /\
        magnitude f <= INR (length [scenarioP; scenarioQ] - 1) * maxForce CONFIG.
Proof.
  apply (pair_force_bounded CONFIG 1000 800 scenarioRules 6 [scenarioP; scenarioQ]).
  - simpl. lra.
  - exact scenarioRules_ok.
  - exact scenario_typed.
  - right. rewrite seam_maxCellX, seam_maxCellY.
    split; [simpl; lra |]. split; [exact scenario_in_canvas |]. split; lia.
Defined.
